(** * readability_lxml: a shallow embedding of the content extractor

    The development follows [trafilatura/readability_lxml.py]: the attribute
    stripper [clean_attributes], the helpers [text_length] and
    [get_link_density], and the methods of [Document] ([score_paragraphs],
    [select_best_candidate], [get_article], [sanitize], [summary], ...).

    Conventions of the model.
    - Text is a [string] of 8-bit characters, read as the code points
      U+0000..U+00FF.
    - Integers are modelled by [Z] or [nat].  The tests of the sanitizer
      and the link density are computed over the exact rationals ([Q]).
      The scoring pass and the assembler, whose results depend on the
      rounding of binary64, are also given over an arithmetic that is a
      parameter (module [Numeric]), with the exact rationals and binary64
      (the primitive floats) as instances.
    - An lxml element is a node of a rose tree carrying an identifier; a
      Python reference to an element is its identifier, and every read goes
      through the current tree.  An operation on an identifier that is no
      longer in the tree leaves the tree unchanged (in lxml it would act on
      a detached subtree, which the document never sees again).
    - A tree holds elements only: comments and processing instructions
      are left out.
    - Regular expressions are abstract syntax trees run by a backtracking
      matcher with the priorities of Python's [re] (ordered alternation,
      greedy repetition, leftmost match). *)

From Stdlib Require Import String Ascii List Bool Arith ZArith QArith Lia.
From Stdlib Require PrimFloat SpecFloat FloatOps.
Import ListNotations.

Close Scope Q_scope.
Local Open Scope string_scope.

(* ===================================================================== *)
(** * Characters and strings *)
(* ===================================================================== *)

Definition is_upper (c : ascii) : bool :=
  let n := nat_of_ascii c in (65 <=? n)%nat && (n <=? 90)%nat.

Definition is_lower (c : ascii) : bool :=
  let n := nat_of_ascii c in (97 <=? n)%nat && (n <=? 122)%nat.

(** [str.lower] on one character (only A-Z matter for the comparisons of
    the program, which are all against ASCII words). *)
Definition lower_char (c : ascii) : ascii :=
  if is_upper c then ascii_of_nat (nat_of_ascii c + 32) else c.

Fixpoint lower (s : string) : string :=
  match s with
  | EmptyString => EmptyString
  | String c s' => String (lower_char c) (lower s')
  end.

(** [str.isspace] for the code points below 256. *)
Definition is_space (c : ascii) : bool :=
  let n := nat_of_ascii c in
  ((9 <=? n)%nat && (n <=? 13)%nat) || ((28 <=? n)%nat && (n <=? 32)%nat)
  || (n =? 133)%nat || (n =? 160)%nat.

Fixpoint lstrip (s : string) : string :=
  match s with
  | EmptyString => EmptyString
  | String c s' => if is_space c then lstrip s' else s
  end.

(** Strips trailing whitespace: a character is kept when something
    non-blank follows it or when it is itself non-blank. *)
Fixpoint rstrip (s : string) : string :=
  match s with
  | EmptyString => EmptyString
  | String c s' =>
      match rstrip s' with
      | EmptyString => if is_space c then EmptyString else String c EmptyString
      | r => String c r
      end
  end.

(** [str.strip()] *)
Definition strip (s : string) : string := rstrip (lstrip s).

(** [s.count(",")] for a one-character needle. *)
Fixpoint count_char (c : ascii) (s : string) : nat :=
  match s with
  | EmptyString => 0
  | String x s' => (if Ascii.eqb x c then 1 else 0) + count_char c s'
  end.

(** [len(s.split(","))]: one more segment than there are separators. *)
Definition split_count (c : ascii) (s : string) : nat := S (count_char c s).

(** Python truthiness of an optional string. *)
Definition truthy (o : option string) : bool :=
  match o with
  | Some (String _ _) => true
  | _ => false
  end.

(** [o or ""] *)
Definition or_empty (o : option string) : string :=
  match o with Some s => s | None => "" end.

(* ===================================================================== *)
(** * Regular expressions (the fragment of [re] the program uses) *)
(* ===================================================================== *)

Module Re.

Inductive regex : Type :=
| Eps : regex                          (* the empty pattern *)
| Chr : (ascii -> bool) -> regex       (* one character of a class *)
| Seq : regex -> regex -> regex
| Alt : regex -> regex -> regex        (* ordered alternation [a|b] *)
| Star : (ascii -> bool) -> regex      (* greedy [c*] over a class *)
| Group : nat -> regex -> regex        (* capturing group number n *)
| Eos : regex.                         (* [$] without re.MULTILINE *)

(** Captured groups, most recent binding first. *)
Definition groups := list (nat * string).

Fixpoint group (n : nat) (g : groups) : string :=
  match g with
  | [] => ""
  | (m, v) :: g' => if (m =? n)%nat then v else group n g'
  end.

(** The first [n] characters of [s]. *)
Fixpoint take (n : nat) (s : string) : string :=
  match n, s with
  | S m, String c s' => String c (take m s')
  | _, _ => EmptyString
  end.

(** What was consumed between the input [s] and its suffix [s']. *)
Definition consumed (s s' : string) : string :=
  take (String.length s - String.length s') s.

(** [$] matches at the end of the string and just before a final
    newline. *)
Definition at_end (s : string) : bool :=
  match s with
  | EmptyString => true
  | String c EmptyString => Ascii.eqb c "010"%char
  | _ => false
  end.

Section Matcher.
Variable A : Type.

(** Greedy repetition of a class: the longest run is tried first, then
    one character is given back at a time. *)
Fixpoint star_match (p : ascii -> bool) (s : string)
         (k : string -> option A) : option A :=
  match s with
  | String c s' =>
      if p c then
        match star_match p s' k with
        | Some x => Some x
        | None => k s
        end
      else k s
  | EmptyString => k s
  end.

(** Backtracking match of [r] at the head of [s]; [k] is what remains
    to be matched, and receives the rest of the input and the groups. *)
Fixpoint rmatch (r : regex) (s : string) (g : groups)
         (k : string -> groups -> option A) : option A :=
  match r with
  | Eps => k s g
  | Chr p =>
      match s with
      | String c s' => if p c then k s' g else None
      | EmptyString => None
      end
  | Seq r1 r2 => rmatch r1 s g (fun s1 g1 => rmatch r2 s1 g1 k)
  | Alt r1 r2 =>
      match rmatch r1 s g k with
      | Some x => Some x
      | None => rmatch r2 s g k
      end
  | Star p => star_match p s (fun s' => k s' g)
  | Group n r1 =>
      rmatch r1 s g (fun s' g' => k s' ((n, consumed s s') :: g'))
  | Eos => if at_end s then k s g else None
  end.
End Matcher.

(** The matches of a pattern, as a relation: from the input [s] and the
    groups [g], [r] can consume a prefix, leaving [s'] and the groups
    [g'].  It does not say which match the matcher prefers. *)
Inductive matches : regex -> string -> groups -> string -> groups -> Prop :=
| m_eps : forall s g, matches Eps s g s g
| m_chr : forall p c s g, p c = true -> matches (Chr p) (String c s) g s g
| m_seq : forall r1 r2 s g s1 g1 s2 g2,
    matches r1 s g s1 g1 -> matches r2 s1 g1 s2 g2 ->
    matches (Seq r1 r2) s g s2 g2
| m_alt_l : forall r1 r2 s g s' g',
    matches r1 s g s' g' -> matches (Alt r1 r2) s g s' g'
| m_alt_r : forall r1 r2 s g s' g',
    matches r2 s g s' g' -> matches (Alt r1 r2) s g s' g'
| m_star_stop : forall p s g, matches (Star p) s g s g
| m_star_more : forall p c s g s' g',
    p c = true -> matches (Star p) s g s' g' ->
    matches (Star p) (String c s) g s' g'
| m_group : forall n r s g s' g',
    matches r s g s' g' ->
    matches (Group n r) s g s' ((n, consumed s s') :: g')
| m_eos : forall s g, at_end s = true -> matches Eos s g s g.

(** Patterns without a capturing group. *)
Fixpoint groupless (r : regex) : bool :=
  match r with
  | Seq r1 r2 | Alt r1 r2 => groupless r1 && groupless r2
  | Group _ _ => false
  | _ => true
  end.

(** [pattern.match] anchored at the head of [s]: the rest of the input
    after the match, and the groups. *)
Definition match_here (r : regex) (s : string) : option (string * groups) :=
  rmatch (string * groups) r s [] (fun s' g => Some (s', g)).

(** [pattern.search(s)] as a truth value: the leftmost position where the
    pattern matches, if any. *)
Fixpoint search (r : regex) (s : string) : bool :=
  match match_here r s with
  | Some _ => true
  | None =>
      match s with
      | EmptyString => false
      | String _ s' => search r s'
      end
  end.

(** [pattern.sub(repl, s)]: every non-overlapping match, leftmost first,
    is replaced by the template [repl] applied to its groups.  [skip]
    counts the characters of the current match still to be passed over. *)
Fixpoint sub_from (r : regex) (repl : groups -> string) (skip : nat)
         (s : string) : string :=
  match skip with
  | S n =>
      match s with
      | EmptyString => EmptyString
      | String _ s' => sub_from r repl n s'
      end
  | O =>
      match match_here r s with
      | Some (rest, g) =>
          match String.length s - String.length rest, s with
          | S n, String _ s' => repl g ++ sub_from r repl n s'
          | _, String c s' => repl g ++ String c (sub_from r repl 0 s')
          | _, EmptyString => repl g
          end
      | None =>
          match s with
          | EmptyString => EmptyString
          | String c s' => String c (sub_from r repl 0 s')
          end
      end
  end.

Definition sub (r : regex) (repl : groups -> string) (s : string) : string :=
  sub_from r repl 0 s.

(** ** Pattern combinators *)

(** One character, compared without case ([re.I]). *)
Definition ci (c : ascii) : ascii -> bool :=
  fun x => Ascii.eqb (lower_char x) (lower_char c).

(** A literal word under [re.I]. *)
Fixpoint lit (w : string) : regex :=
  match w with
  | EmptyString => Eps
  | String c w' => Seq (Chr (ci c)) (lit w')
  end.

(** [c+] over a class. *)
Definition Plus (p : ascii -> bool) : regex := Seq (Chr p) (Star p).

(** [r?] *)
Definition Opt (r : regex) : regex := Alt r Eps.

(** [w1|w2|...] over literal words. *)
Fixpoint alts (ws : list string) : regex :=
  match ws with
  | [] => Chr (fun _ => false)
  | [w] => lit w
  | w :: ws' => Alt (lit w) (alts ws')
  end.

End Re.

(* ===================================================================== *)
(** * Module-level patterns *)
(* ===================================================================== *)

(** [[-a-z]] under [re.I]. *)
Definition dash_or_letter (c : ascii) : bool :=
  Ascii.eqb c "-"%char || is_lower c || is_upper c.

(** [BAD_ATTRS = width|height|style|[-a-z]*color|background[-a-z]*|on*] *)
Definition BAD_ATTRS : Re.regex :=
  Re.Alt (Re.lit "width")
 (Re.Alt (Re.lit "height")
 (Re.Alt (Re.lit "style")
 (Re.Alt (Re.Seq (Re.Star dash_or_letter) (Re.lit "color"))
 (Re.Alt (Re.Seq (Re.lit "background") (Re.Star dash_or_letter))
         (Re.Seq (Re.lit "o") (Re.Star (Re.ci "n"%char))))))).

Definition dquote : ascii := "034"%char.
Definition squote : ascii := "039"%char.

(** [NON_SPACE]: one or more characters other than a space, a double
    quote, a single quote or a closing angle bracket. *)
Definition NON_SPACE : Re.regex :=
  Re.Plus (fun c => negb (Ascii.eqb c " "%char || Ascii.eqb c dquote
                          || Ascii.eqb c squote || Ascii.eqb c ">"%char)).

(** [QUOTES]: a non-empty value between single quotes, or else between
    double quotes. *)
Definition QUOTES : Re.regex :=
  Re.Alt
    (Re.Seq (Re.Chr (Ascii.eqb squote))
       (Re.Seq (Re.Plus (fun c => negb (Ascii.eqb c squote)))
               (Re.Chr (Ascii.eqb squote))))
    (Re.Seq (Re.Chr (Ascii.eqb dquote))
       (Re.Seq (Re.Plus (fun c => negb (Ascii.eqb c dquote)))
               (Re.Chr (Ascii.eqb dquote)))).

Definition not_gt (c : ascii) : bool := negb (Ascii.eqb c ">"%char).
Definition spaces : Re.regex := Re.Star (Ascii.eqb " "%char).

(** [HTMLSTRIP], compiled with [re.I]: an opening bracket; group 1, one or
    more characters other than a closing bracket; a space; one of
    [BAD_ATTRS]; spaces; an equals sign; spaces; a value ([NON_SPACE] or
    else [QUOTES]); group 2, any characters other than a closing bracket;
    the closing bracket. *)
Definition HTMLSTRIP : Re.regex :=
  Re.Seq (Re.Chr (Ascii.eqb "<"%char))
 (Re.Seq (Re.Group 1 (Re.Plus not_gt))
 (Re.Seq (Re.Chr (Ascii.eqb " "%char))
 (Re.Seq BAD_ATTRS
 (Re.Seq spaces
 (Re.Seq (Re.Chr (Ascii.eqb "="%char))
 (Re.Seq spaces
 (Re.Seq (Re.Alt NON_SPACE QUOTES)
 (Re.Seq (Re.Group 2 (Re.Star not_gt))
         (Re.Chr (Ascii.eqb ">"%char)))))))))).

(** The replacement template: an opening bracket, group 1, group 2, a
    closing bracket. *)
Definition HTMLSTRIP_repl (g : Re.groups) : string :=
  "<" ++ Re.group 1 g ++ Re.group 2 g ++ ">".

(** [clean_attributes]: the [while] loop, one iteration per unit of fuel;
    [None] when the fuel runs out before the pattern stops matching. *)
Fixpoint clean_attributes_loop (fuel : nat) (html : string) : option string :=
  match fuel with
  | O => None
  | S n =>
      if Re.search HTMLSTRIP html
      then clean_attributes_loop n (Re.sub HTMLSTRIP HTMLSTRIP_repl html)
      else Some html
  end.

(** Every substitution shortens the text, so its length (plus the final
    test) is enough fuel; see [clean_attributes_loop_returns]. *)
Definition clean_attributes (html : string) : string :=
  match clean_attributes_loop (S (String.length html)) html with
  | Some r => r
  | None => html
  end.

(** The patterns of [REGEXES]; all are compiled with [re.I]. *)
Definition unlikelyCandidatesRe : Re.regex :=
  Re.alts ["combx"; "comment"; "community"; "disqus"; "extra"; "foot";
           "header"; "menu"; "remark"; "rss"; "shoutbox"; "sidebar";
           "sponsor"; "ad-break"; "agegate"; "pagination"; "pager"; "popup";
           "tweet"; "twitter"].

Definition okMaybeItsACandidateRe : Re.regex :=
  Re.alts ["and"; "article"; "body"; "column"; "main"; "shadow"].

Definition positiveRe : Re.regex :=
  Re.alts ["article"; "body"; "content"; "entry"; "hentry"; "main"; "page";
           "pagination"; "post"; "text"; "blog"; "story"].

Definition negativeRe : Re.regex :=
  Re.alts ["combx"; "comment"; "com-"; "contact"; "foot"; "footer";
           "footnote"; "masthead"; "media"; "meta"; "outbrain"; "promo";
           "related"; "scroll"; "shoutbox"; "sidebar"; "sponsor"; "shopping";
           "tags"; "tool"; "widget"].

(** An opening bracket followed by one of the block-level names. *)
Definition divToPElementsRe : Re.regex :=
  Re.Seq (Re.Chr (Ascii.eqb "<"%char))
         (Re.Group 1
            (Re.alts ["a"; "blockquote"; "dl"; "div"; "img"; "ol"; "p";
                      "pre"; "table"; "ul"])).

(** [https?://(www\.)?(youtube|vimeo)\.com] *)
Definition videoRe : Re.regex :=
  Re.Seq (Re.lit "http")
 (Re.Seq (Re.Opt (Re.lit "s"))
 (Re.Seq (Re.lit "://")
 (Re.Seq (Re.Opt (Re.Group 1 (Re.lit "www.")))
 (Re.Seq (Re.Group 2 (Re.alts ["youtube"; "vimeo"]))
         (Re.lit ".com"))))).

(** The pattern of [get_article]: a full stop followed by a space or by
    the end of the text (no flags). *)
Definition sentence_end_re : Re.regex :=
  Re.Seq (Re.Chr (Ascii.eqb "."%char))
         (Re.Group 1 (Re.Alt (Re.Chr (Ascii.eqb " "%char)) Re.Eos)).

(** The tag families of [score_node] and the kinds counted by [sanitize]. *)
Definition DIV_SCORES : list string := ["div"; "article"].
Definition BLOCK_SCORES : list string := ["pre"; "td"; "blockquote"].
Definition BAD_ELEM_SCORES : list string :=
  ["address"; "ol"; "ul"; "dl"; "dd"; "dt"; "li"; "form"; "aside"].
Definition STRUCTURE_SCORES : list string :=
  ["h1"; "h2"; "h3"; "h4"; "h5"; "h6"; "th"; "header"; "footer"; "nav"].

Definition mem (x : string) (l : list string) : bool :=
  existsb (String.eqb x) l.

(* ===================================================================== *)
(** * Element trees (the part of the lxml interface the program uses) *)
(* ===================================================================== *)

Set Warnings "-register-all".

(** An element: its identity, tag, attributes in document order, the text
    before its first child, the text after its closing tag, its children. *)
Inductive element : Type :=
  Element (id : nat) (tag : string) (attrib : list (string * string))
          (text tail : option string) (children : list element).

Definition eid (e : element) : nat :=
  match e with Element i _ _ _ _ _ => i end.
Definition etag (e : element) : string :=
  match e with Element _ t _ _ _ _ => t end.
Definition eattrib (e : element) : list (string * string) :=
  match e with Element _ _ a _ _ _ => a end.
Definition etext (e : element) : option string :=
  match e with Element _ _ _ x _ _ => x end.
Definition etail (e : element) : option string :=
  match e with Element _ _ _ _ x _ => x end.
Definition echildren (e : element) : list element :=
  match e with Element _ _ _ _ _ cs => cs end.

Definition set_tag (t : string) (e : element) : element :=
  match e with Element i _ a x y cs => Element i t a x y cs end.
Definition set_text (x : option string) (e : element) : element :=
  match e with Element i t a _ y cs => Element i t a x y cs end.
Definition set_tail (y : option string) (e : element) : element :=
  match e with Element i t a x _ cs => Element i t a x y cs end.
Definition set_children (cs : list element) (e : element) : element :=
  match e with Element i t a x y _ => Element i t a x y cs end.
Definition set_attrib (a : list (string * string)) (e : element) : element :=
  match e with Element i t _ x y cs => Element i t a x y cs end.

(** [elem.get(name)] *)
Fixpoint get (name : string) (a : list (string * string)) : option string :=
  match a with
  | [] => None
  | (k, v) :: a' => if String.eqb k name then Some v else get name a'
  end.

(** [elem.set(name, value)]: an existing attribute keeps its place. *)
Fixpoint set (name value : string) (a : list (string * string))
  : list (string * string) :=
  match a with
  | [] => [(name, value)]
  | (k, v) :: a' =>
      if String.eqb k name then (k, value) :: a' else (k, v) :: set name value a'
  end.

(** The proper descendants of an element in document order (pre-order). *)
Fixpoint descendants (e : element) : list element :=
  match e with
  | Element _ _ _ _ _ cs => flat_map (fun c => c :: descendants c) cs
  end.

(** [node.findall(".//name")]: references to the descendants with that tag,
    in document order; [node.findall(".//*")] keeps them all. *)
Definition findall (name : string) (node : element) : list nat :=
  map eid (filter (fun e => String.eqb (etag e) name) (descendants node)).

Definition findall_any (node : element) : list nat :=
  map eid (descendants node).

(** Resolves a reference in the tree rooted at [root]. *)
Definition find_elem (root : element) (i : nat) : option element :=
  find (fun e => Nat.eqb (eid e) i) (root :: descendants root).

(** [elem.getparent()] inside the tree rooted at [root]. *)
Definition getparent (root : element) (i : nat) : option element :=
  find (fun e => existsb (fun c => Nat.eqb (eid c) i) (echildren e))
       (root :: descendants root).

(** [elem.text_content()]: the text of the element and of everything below
    it, without markup (the tail of the element itself is not part). *)
Fixpoint text_content (e : element) : string :=
  match e with
  | Element _ _ _ x _ cs =>
      or_empty x
      ++ String.concat ""
           (map (fun c => text_content c ++ or_empty (etail c)) cs)
  end.

(** Applies [f] to the element referred to by [i]. *)
Fixpoint update (i : nat) (f : element -> element) (e : element) : element :=
  if Nat.eqb (eid e) i then f e
  else match e with
       | Element j t a x y cs => Element j t a x y (map (update i f) cs)
       end.

(** [(old or '') + extra] when [extra] is non-empty (as [drop_tree] joins a
    tail to what precedes it). *)
Definition join_text (old extra : option string) : option string :=
  if truthy extra then Some (or_empty old ++ or_empty extra) else old.

(** Removes the child [i] from the children following [prev]; its tail
    goes to the tail of the sibling before it. *)
Fixpoint drop_after (prev : element) (i : nat) (cs : list element)
  : list element :=
  match cs with
  | [] => [prev]
  | c :: rest =>
      if Nat.eqb (eid c) i
      then set_tail (join_text (etail prev) (etail c)) prev :: rest
      else prev :: drop_after c i rest
  end.

(** Removes the child [i] of a parent whose text is [x]: without a previous
    sibling the tail goes to the text of the parent. *)
Definition drop_child (i : nat) (x : option string) (cs : list element)
  : option string * list element :=
  match cs with
  | [] => (x, [])
  | c :: rest =>
      if Nat.eqb (eid c) i then (join_text x (etail c), rest)
      else (x, drop_after c i rest)
  end.

(** [elem.drop_tree()] of lxml.html: the element goes with its subtree, its
    tail text is joined to the previous sibling or to the parent. *)
Fixpoint drop_tree (i : nat) (e : element) : element :=
  match e with
  | Element j t a x y cs =>
      if existsb (fun c => Nat.eqb (eid c) i) cs
      then let (x', cs') := drop_child i x cs in Element j t a x' y cs'
      else Element j t a x y (map (drop_tree i) cs)
  end.

(** [list.insert(pos, x)] *)
Fixpoint insert_at {A : Type} (pos : nat) (x : A) (l : list A) : list A :=
  match pos, l with
  | O, _ => x :: l
  | S n, [] => [x]
  | S n, y :: l' => y :: insert_at n x l'
  end.

(** [fragment_fromstring] of an empty element: a fresh element with no
    text, no tail, no attribute and no child. *)
Definition fragment_fromstring (fresh : nat) (name : string) : element :=
  Element fresh name [] None None [].

(** [node.find("body")]: the first child with that tag. *)
Definition find_child (name : string) (node : element) : option element :=
  find (fun c => String.eqb (etag c) name) (echildren node).

(** ** Serialization, [lxml.etree.tostring(..., method='xml')] *)

(** The serializer writes a carriage return as a character reference
    everywhere, and a tab, a line feed and a double quote as references
    inside attribute values only ([quot]). *)
Fixpoint escape (quot : bool) (s : string) : string :=
  match s with
  | EmptyString => EmptyString
  | String c s' =>
      (if Ascii.eqb c "&"%char then "&amp;"
       else if Ascii.eqb c "<"%char then "&lt;"
       else if Ascii.eqb c ">"%char then "&gt;"
       else if Ascii.eqb c (ascii_of_nat 13) then "&#13;"
       else if quot && Ascii.eqb c dquote then "&quot;"
       else if quot && Ascii.eqb c (ascii_of_nat 9) then "&#9;"
       else if quot && Ascii.eqb c (ascii_of_nat 10) then "&#10;"
       else String c EmptyString) ++ escape quot s'
  end.

Definition attr_tostring (kv : string * string) : string :=
  " " ++ fst kv ++ "=" ++ String dquote (escape true (snd kv))
      ++ String dquote EmptyString.

(** An element with neither text nor children is written as an empty tag;
    the tail follows the element. *)
Fixpoint _tostring (e : element) : string :=
  match e with
  | Element _ t a x y cs =>
      "<" ++ t ++ String.concat "" (map attr_tostring a)
      ++ match x, cs with
         | None, [] => "/>"
         | _, _ =>
             ">" ++ escape false (or_empty x)
             ++ String.concat "" (map _tostring cs)
             ++ "</" ++ t ++ ">"
         end
      ++ escape false (or_empty y)
  end.

(** References to the siblings after an element, nearest first
    ([elem.itersiblings()]), and before it, nearest first
    ([elem.itersiblings(preceding=True)]). *)
Fixpoint siblings_after (i : nat) (cs : list element) : list element :=
  match cs with
  | [] => []
  | c :: rest => if Nat.eqb (eid c) i then rest else siblings_after i rest
  end.

Fixpoint siblings_before (i : nat) (seen cs : list element) : list element :=
  match cs with
  | [] => []
  | c :: rest =>
      if Nat.eqb (eid c) i then seen else siblings_before i (c :: seen) rest
  end.

Definition itersiblings (root : element) (i : nat) : list element :=
  match getparent root i with
  | Some p => siblings_after i (echildren p)
  | None => []
  end.

Definition itersiblings_preceding (root : element) (i : nat) : list element :=
  match getparent root i with
  | Some p => siblings_before i [] (echildren p)
  | None => []
  end.

(* ===================================================================== *)
(** * Numbers *)
(* ===================================================================== *)

Definition Qltb (a b : Q) : bool := negb (Qle_bool b a).
Definition Qmin (a b : Q) : Q := if Qle_bool a b then a else b.
Definition Qmax (a b : Q) : Q := if Qle_bool b a then a else b.
Definition Qnat (n : nat) : Q := inject_Z (Z.of_nat n).

Definition sum_nat (l : list nat) : nat := fold_right Nat.add 0 l.

(* ===================================================================== *)
(** * Text measures *)
(* ===================================================================== *)

(** Modelled from the spec: [trim] is imported from the module [utils],
    which is not part of the sources at hand.  The specification speaks of
    the trimmed text, and the sanitizer of the text length excluding any
    surrounding whitespace, so [trim] removes the whitespace around the
    text. *)
Definition trim (s : string) : string := strip s.

(** [text_length(elem)] *)
Definition text_length (e : element) : nat :=
  String.length (trim (text_content e)).

Definition findall_elems (name : string) (node : element) : list element :=
  filter (fun e => String.eqb (etag e) name) (descendants node).

(** [n or 1] *)
Definition or_one (n : nat) : nat :=
  match n with O => 1 | _ => n end.

(** [get_link_density] *)
Definition get_link_density (e : element) : Q :=
  let total_length := or_one (text_length e) in
  let link_length := sum_nat (map text_length (findall_elems "a" e)) in
  (Qnat link_length / Qnat total_length)%Q.

(* ===================================================================== *)
(** * Candidates *)
(* ===================================================================== *)

(** The candidate dictionary: element reference and score, in insertion
    order (the order [dict.values()] yields). *)
Definition candidates := list (nat * Q).

Fixpoint cand_mem (i : nat) (c : candidates) : bool :=
  match c with
  | [] => false
  | (j, _) :: c' => Nat.eqb j i || cand_mem i c'
  end.

(** [candidates[elem].score] *)
Fixpoint cand_score (i : nat) (c : candidates) : Q :=
  match c with
  | [] => 0%Q
  | (j, q) :: c' => if Nat.eqb j i then q else cand_score i c'
  end.

(** [candidates[elem].score = f(candidates[elem].score)] *)
Fixpoint cand_update (i : nat) (f : Q -> Q) (c : candidates) : candidates :=
  match c with
  | [] => []
  | (j, q) :: c' =>
      if Nat.eqb j i then (j, f q) :: c' else (j, q) :: cand_update i f c'
  end.

(** [candidates[elem] = Candidate(score, elem)] for a new key. *)
Definition cand_insert (i : nat) (q : Q) (c : candidates) : candidates :=
  (c ++ [(i, q)])%list.

(** The attributes among [class] and [id] that are present. *)
Definition class_and_id (e : element) : list string :=
  flat_map (fun o => match o with Some v => [v] | None => [] end)
           [get "class" (eattrib e); get "id" (eattrib e)].

Definition class_weight (e : element) : Z :=
  fold_left
    (fun weight attribute =>
       let weight :=
         if Re.search negativeRe attribute then (weight - 25)%Z else weight in
       if Re.search positiveRe attribute then (weight + 25)%Z else weight)
    (class_and_id e) 0%Z.

Definition score_node (e : element) : Z :=
  let score := class_weight e in
  let name := lower (etag e) in
  if mem name DIV_SCORES then (score + 5)%Z
  else if mem name BLOCK_SCORES then (score + 3)%Z
  else if mem name BAD_ELEM_SCORES then (score - 3)%Z
  else if mem name STRUCTURE_SCORES then (score - 5)%Z
  else score.

(* ===================================================================== *)
(** * The document *)
(* ===================================================================== *)

(** The slots of [Document], and [fresh], the next unused element
    identity (the allocator behind [fragment_fromstring]). *)
Record Document : Type := mkDocument {
  doc : element;
  min_text_length : Z;
  retry_length : Z;
  fresh : nat
}.

Definition with_doc (d : Document) (e : element) : Document :=
  mkDocument e (min_text_length d) (retry_length d) (fresh d).

(** [get_clean_html] *)
Definition get_clean_html (d : Document) : string :=
  clean_attributes (_tostring (doc d)).

(** [self.tags(node, *tag_names)] over a tree that the loop body does not
    change. *)
Definition tags (node : element) (tag_names : list string) : list element :=
  flat_map (fun tag_name => findall_elems tag_name node) tag_names.

(** [self.reverse_tags(node, *tag_names)], likewise. *)
Definition reverse_tags (node : element) (tag_names : list string)
  : list element :=
  flat_map (fun tag_name => rev (findall_elems tag_name node)) tag_names.

(** A loop [for elem in self.tags(node, ...)] whose body changes the tree:
    the generator calls [findall] for a tag name only when the elements of
    the names before it have been handled, so each list is taken from the
    tree as it is by then.  [node_of] reads the tree in the state of the
    loop; [order] is the identity for [tags] and [rev] for
    [reverse_tags]. *)
Definition for_tags {S : Type} (node_of : S -> element)
           (order : list nat -> list nat) (tag_names : list string)
           (body : nat -> S -> S) (st : S) : S :=
  fold_left
    (fun st tag_name =>
       fold_left (fun st i => body i st)
                 (order (findall tag_name (node_of st))) st)
    tag_names st.

Definition in_order (l : list nat) : list nat := l.

(** ** Scoring *)

(** The scores of this section and of the next are exact rationals: they
    are the instance [Numeric.exact] of the definitions of the module
    [Numeric] below, whose instance [Numeric.binary64] rounds every
    operation as the program does. *)

(** The contribution of one paragraph whose trimmed text is [elem_text]. *)
Definition paragraph_score (elem_text : string) : Q :=
  (1 + Qnat (split_count ","%char elem_text)
   + Qmin (Qnat (String.length elem_text) / 100) 3)%Q.

(** The body of the first loop of [score_paragraphs]; the state is the
    dictionary and the list [ordered]. *)
Definition score_paragraph (d : Document) (st : candidates * list nat)
           (elem : element) : candidates * list nat :=
  match getparent (doc d) (eid elem) with
  | None => st
  | Some parent_node =>
      let grand_parent_node := getparent (doc d) (eid parent_node) in
      let elem_text := trim (text_content elem) in
      let elem_text_len := String.length elem_text in
      if (Z.of_nat elem_text_len <? min_text_length d)%Z then st
      else
        let st :=
          if cand_mem (eid parent_node) (fst st) then st
          else (cand_insert (eid parent_node)
                  (inject_Z (score_node parent_node)) (fst st),
                (snd st ++ [eid parent_node])%list) in
        let st :=
          match grand_parent_node with
          | Some g =>
              if cand_mem (eid g) (fst st) then st
              else (cand_insert (eid g) (inject_Z (score_node g)) (fst st),
                    (snd st ++ [eid g])%list)
          | None => st
          end in
        let score := paragraph_score elem_text in
        let c := cand_update (eid parent_node) (fun q => q + score)%Q (fst st) in
        let c :=
          match grand_parent_node with
          | Some g => cand_update (eid g) (fun q => q + score / 2)%Q c
          | None => c
          end in
        (c, snd st)
  end.

(** The scores accumulated by the first loop, before the scaling. *)
Definition accumulate_scores (d : Document) : candidates * list nat :=
  fold_left (score_paragraph d) (tags (doc d) ["p"; "pre"; "td"]) ([], []).

(** The second loop: one scaling by the link density per scored element. *)
Definition scale_by_density (d : Document) (c : candidates) (i : nat)
  : candidates :=
  match find_elem (doc d) i with
  | Some elem =>
      let density := get_link_density elem in
      cand_update i (fun q => q * (1 - density))%Q c
  | None => c
  end.

Definition score_paragraphs (d : Document) : candidates :=
  let (c, ordered) := accumulate_scores d in
  fold_left (scale_by_density d) ordered c.

(** ** Selection *)

(** Stable sort of the candidates by decreasing score
    ([sorted(..., key=score, reverse=True)]): an entry goes before the
    first entry that does not beat it. *)
Fixpoint insert_desc (x : nat * Q) (l : list (nat * Q)) : list (nat * Q) :=
  match l with
  | [] => [x]
  | y :: l' =>
      if Qle_bool (snd y) (snd x) then x :: l else y :: insert_desc x l'
  end.

Definition sorted_desc (l : list (nat * Q)) : list (nat * Q) :=
  fold_right insert_desc [] l.

Definition select_best_candidate (c : candidates) : option (nat * Q) :=
  match c with
  | [] => None
  | _ => hd_error (sorted_desc c)
  end.

(** ** Assembling the article *)

(** The decision taken for one sibling in the loop of [get_article]. *)
Definition sibling_appended (c : candidates) (best_candidate : nat * Q)
           (sibling_score_threshold : Q) (sibling : element) : bool :=
  if Nat.eqb (eid sibling) (fst best_candidate) then true
  else if cand_mem (eid sibling) c
          && Qle_bool sibling_score_threshold (cand_score (eid sibling) c)
  then true
  else if String.eqb (etag sibling) "p" then
    let link_density := get_link_density sibling in
    let node_content := or_empty (etext sibling) in
    let node_length := String.length node_content in
    if (80 <? node_length)%nat && Qltb link_density (1 # 4) then true
    else if (node_length <=? 80)%nat && Qeq_bool link_density 0
            && Re.search sentence_end_re node_content
    then true
    else false
  else false.

(** [output.append(sibling)]: the sibling becomes the last child. *)
Definition append (sibling : element) (output : element) : element :=
  set_children (echildren output ++ [sibling])%list output.

(** An appended element leaves its former parent (with its tail). *)
Fixpoint detach (i : nat) (e : element) : element :=
  match e with
  | Element j t a x y cs =>
      Element j t a x y
        (flat_map (fun c => if Nat.eqb (eid c) i then [] else [detach i c]) cs)
  end.

(** [get_article]: the new root and the document after the moves.  When
    the best candidate has no parent it is the root of the document and is
    appended itself. *)
Definition get_article (d : Document) (c : candidates)
           (best_candidate : nat * Q) : element * Document :=
  let sibling_score_threshold := Qmax 10 (snd best_candidate * (2 # 10))%Q in
  let output := fragment_fromstring (fresh d) "div" in
  let siblings :=
    match getparent (doc d) (fst best_candidate) with
    | Some parent => echildren parent
    | None =>
        match find_elem (doc d) (fst best_candidate) with
        | Some e => [e]
        | None => []
        end
    end in
  let step (st : element * element) (sibling : element) :=
    if sibling_appended c best_candidate sibling_score_threshold sibling
    then (append sibling (fst st), detach (eid sibling) (snd st))
    else st in
  let (output, root) := fold_left step siblings (output, doc d) in
  (output, mkDocument root (min_text_length d) (retry_length d) (S (fresh d))).

(** ** Pruning unlikely candidates *)

Definition is_unlikely (elem : element) : bool :=
  let attrs := String.concat " " (class_and_id elem) in
  if (String.length attrs <? 2)%nat then false
  else Re.search unlikelyCandidatesRe attrs
       && negb (Re.search okMaybeItsACandidateRe attrs)
       && negb (mem (etag elem) ["html"; "body"]).

Definition remove_unlikely_candidates (d : Document) : Document :=
  with_doc d
    (fold_left
       (fun root i =>
          match find_elem root i with
          | Some elem => if is_unlikely elem then drop_tree i root else root
          | None => root
          end)
       (findall_any (doc d)) (doc d)).

(** ** Normalizing misused divs *)

Definition is_blank (s : string) : bool :=
  match strip s with EmptyString => true | _ => false end.

(** The body of the first loop: a div without block-level markup among its
    serialized children becomes a paragraph. *)
Definition retag_div (root : element) (i : nat) : element :=
  match find_elem root i with
  | Some elem =>
      if Re.search divToPElementsRe
           (String.concat "" (map _tostring (echildren elem)))
      then root
      else update i (set_tag "p") root
  | None => root
  end.

(** The state of the second loop: the tree and the next fresh identity. *)
Definition wrap_leading_text (i : nat) (st : element * nat) : element * nat :=
  match find_elem (fst st) i with
  | Some elem =>
      match etext elem with
      | Some x =>
          if is_blank x then st
          else
            let p_elem := set_text (Some x) (fragment_fromstring (snd st) "p") in
            (update i
               (fun e => set_children (insert_at 0 p_elem (echildren e))
                           (set_text None e))
               (fst st),
             S (snd st))
      | None => st
      end
  | None => st
  end.

Definition wrap_tail (i : nat) (st : element * nat) (pc : nat * nat)
  : element * nat :=
  let (pos, child_ref) := pc in
  match find_elem (fst st) child_ref with
  | Some child =>
      let st :=
        if truthy (etail child) && negb (is_blank (or_empty (etail child)))
        then
          let p_elem :=
            set_text (etail child) (fragment_fromstring (snd st) "p") in
          let root := update child_ref (set_tail None) (fst st) in
          (update i
             (fun e => set_children (insert_at (pos + 1) p_elem (echildren e)) e)
             root,
           S (snd st))
        else st in
      if String.eqb (etag child) "br"
      then (drop_tree child_ref (fst st), snd st)
      else st
  | None => st
  end.

(** The body of the second loop; the children are enumerated once the
    leading text has been wrapped, and walked from the last to the first. *)
Definition split_div (st : element * nat) (i : nat) : element * nat :=
  let st := wrap_leading_text i st in
  match find_elem (fst st) i with
  | Some elem =>
      let enumerated :=
        combine (seq 0 (List.length (echildren elem)))
                (map eid (echildren elem)) in
      fold_left (wrap_tail i) (rev enumerated) st
  | None => st
  end.

(** The first loop alone, and the references the second loop walks: the
    elements that are a div once the first loop is over. *)
Definition retag_divs (root : element) : element :=
  fold_left retag_div (findall "div" root) root.

Definition second_pass_nodes (root : element) : list nat :=
  findall "div" (retag_divs root).

Definition transform_misused_divs_into_paragraphs (d : Document) : Document :=
  let root := retag_divs (doc d) in
  let (root, n) := fold_left split_div (findall "div" root) (root, fresh d) in
  mkDocument root (min_text_length d) (retry_length d) n.

(** ** Sanitizing *)

(** Why the detailed filter removes an element. *)
Inductive reason : Type :=
| TooManyImages (img : Z)
| MoreLiThanP
| TooManyInputs
| TooShortWithoutImage (content_length : nat)
| TooShortTooManyImages (content_length : nat)
| TooManyLinks (link_density : Q) (weight : Z)
| BadEmbeds
| NoContent.

(** What the detailed filter decides: [to_remove] with its reason, or the
    element stays, possibly with its descendants put on the allow-list. *)
Inductive decision : Type :=
| Remove (r : reason)
| Keep
| KeepAndAllow.

(** What the conditional cleaning did with a visited element. *)
Inductive verdict : Type :=
| Skipped                      (* the element is on the allow-list *)
| RemovedByScore               (* weight + score < 0 *)
| RemovedBecause (r : reason)  (* the detailed filter *)
| NotRemoved                   (* the detailed filter kept it *)
| Untouched.                   (* ten commas or more *)

(** The dictionary [counts] after its two adjustments. *)
Record counts : Type := mkCounts {
  count_p : Z; count_img : Z; count_li : Z; count_a : Z;
  count_embed : Z; count_input : Z
}.

Definition count_kind (kind : string) (elem : element) : Z :=
  Z.of_nat (List.length (findall kind elem)).

(** The descendants matched by [.//input[@type="hidden"]]. *)
Definition hidden_inputs (elem : element) : list element :=
  filter (fun e => match get "type" (eattrib e) with
                   | Some v => String.eqb v "hidden"
                   | None => false
                   end)
         (findall_elems "input" elem).

Definition count_kinds (elem : element) : counts :=
  mkCounts (count_kind "p" elem)
           (count_kind "img" elem)
           (count_kind "li" elem - 100)%Z
           (count_kind "a" elem)
           (count_kind "embed" elem)
           (count_kind "input" elem
            - Z.of_nat (List.length (hidden_inputs elem)))%Z.

(** One of the two sibling loops: the non-zero text lengths are appended
    until the list has [limit] entries. *)
Fixpoint collect_lengths (limit : nat) (siblings : list nat)
         (l : list element) : list nat :=
  match l with
  | [] => siblings
  | sib :: rest =>
      match text_length sib with
      | O => collect_lengths limit siblings rest
      | sib_content_length =>
          let siblings := (siblings ++ [sib_content_length])%list in
          if (limit <=? List.length siblings)%nat then siblings
          else collect_lengths limit siblings rest
      end
  end.

(** The list [siblings] of the no-content rule. *)
Definition neighbour_lengths (root : element) (i : nat) : list nat :=
  let siblings := collect_lengths 1 [] (itersiblings root i) in
  let limit := (List.length siblings + 1)%nat in
  collect_lengths limit siblings (itersiblings_preceding root i).

(** The chain of rules of the detailed filter. *)
Definition detailed_filter (min_len : Z) (tag : string) (weight : Z)
           (n : counts) (content_length : nat) (link_density : Q)
           (siblings : list nat) : decision :=
  if negb (count_p n =? 0)%Z
     && Qltb (1 + inject_Z (count_p n) * (13 # 10))%Q (inject_Z (count_img n))
  then Remove (TooManyImages (count_img n))
  else if (count_p n <? count_li n)%Z && negb (mem tag ["ol"; "ul"])
  then Remove MoreLiThanP
  else if Qltb (inject_Z (count_p n) / 3)%Q (inject_Z (count_input n))
  then Remove TooManyInputs
  else if (Z.of_nat content_length <? min_len)%Z && (count_img n =? 0)%Z
  then Remove (TooShortWithoutImage content_length)
  else if (Z.of_nat content_length <? min_len)%Z && (2 <? count_img n)%Z
  then Remove (TooShortTooManyImages content_length)
  else if (weight <? 25)%Z && Qltb (2 # 10) link_density
  then Remove (TooManyLinks link_density weight)
  else if (25 <=? weight)%Z && Qltb (1 # 2) link_density
  then Remove (TooManyLinks link_density weight)
  else if ((count_embed n =? 1)%Z && (content_length <? 75)%nat)
          || (1 <? count_embed n)%Z
  then Remove BadEmbeds
  else if (content_length =? 0)%nat
  then
    match siblings with
    | [] => Remove NoContent
    | _ => if (1000 <? sum_nat siblings)%nat then KeepAndAllow
           else Remove NoContent
    end
  else Keep.

(** The state of the conditional cleaning: the tree of [node], the set
    [allowed], and the elements visited so far with what was done. *)
Record cleaning : Type := mkCleaning {
  node : element;
  allowed : list nat;
  visited : list (nat * verdict)
}.

Definition note (i : nat) (v : verdict) (st : cleaning) : cleaning :=
  mkCleaning (node st) (allowed st) (visited st ++ [(i, v)])%list.

Definition dropped (i : nat) (st : cleaning) : cleaning :=
  mkCleaning (drop_tree i (node st)) (allowed st) (visited st).

Definition allow (l : list nat) (st : cleaning) : cleaning :=
  mkCleaning (node st) (allowed st ++ l)%list (visited st).

(** The decision of the detailed filter for the element [elem], whose
    reference is [i], in the tree [root]. *)
Definition filter_decision (d : Document) (root : element) (i : nat)
           (elem : element) : decision :=
  detailed_filter (min_text_length d) (etag elem) (class_weight elem)
    (count_kinds elem) (text_length elem) (get_link_density elem)
    (neighbour_lengths root i).

(** The body of the loop over [reverse_tags]. *)
Definition clean_conditionally (d : Document) (c : candidates) (i : nat)
           (st : cleaning) : cleaning :=
  if existsb (Nat.eqb i) (allowed st) then note i Skipped st
  else
    match find_elem (node st) i with
    | None => st
    | Some elem =>
        let weight := class_weight elem in
        let score := if cand_mem i c then cand_score i c else 0%Q in
        if Qltb (inject_Z weight + score)%Q 0
        then dropped i (note i RemovedByScore st)
        else if (count_char ","%char (text_content elem) <? 10)%nat
        then
          match filter_decision d (node st) i elem with
          | Remove r => dropped i (note i (RemovedBecause r) st)
          | Keep => note i NotRemoved st
          | KeepAndAllow =>
              allow (map eid (tags elem ["table"; "ul"; "div"; "section"]))
                    (note i NotRemoved st)
          end
        else note i Untouched st
    end.

Definition sanitize_header (i : nat) (root : element) : element :=
  match find_elem root i with
  | Some header =>
      if (class_weight header <? 0)%Z
         || Qltb (33 # 100) (get_link_density header)
      then drop_tree i root
      else root
  | None => root
  end.

Definition sanitize_iframe (i : nat) (root : element) : element :=
  match find_elem root i with
  | Some elem =>
      match get "src" (eattrib elem) with
      | Some src =>
          if Re.search videoRe src
          then update i (set_text (Some "VIDEO")) root
          else drop_tree i root
      | None => drop_tree i root
      end
  | None => root
  end.

Definition CLEANED_TAGS : list string :=
  ["table"; "ul"; "div"; "aside"; "header"; "footer"; "section"].

(** The tree and the visits of [sanitize], before the serialization. *)
Definition sanitize_tree (d : Document) (article : element) (c : candidates)
  : cleaning :=
  let root :=
    for_tags (fun r => r) in_order ["h1"; "h2"; "h3"; "h4"; "h5"; "h6"]
             sanitize_header article in
  let root :=
    for_tags (fun r => r) in_order ["form"; "textarea"] drop_tree root in
  let root := for_tags (fun r => r) in_order ["iframe"] sanitize_iframe root in
  for_tags node (@rev nat) CLEANED_TAGS (clean_conditionally d c)
           (mkCleaning root [] []).

(** [sanitize]: the cleaned markup and the document, whose root is now the
    sanitized node. *)
Definition sanitize (d : Document) (article : element) (c : candidates)
  : string * Document :=
  let d := with_doc d (node (sanitize_tree d article c)) in
  (get_clean_html d, d).

(** ** The retry loop of [summary] *)

(** How one turn of the [while] loop ends: [continue] with the new value of
    [ruthless], or [return cleaned_article]. *)
Inductive outcome : Type :=
| Retry (ruthless : bool) (d : Document)
| Return (cleaned_article : string) (d : Document).

Definition mark_body (i : nat) (root : element) : element :=
  update i (fun e => set_attrib (set "id" "readabilityBody" (eattrib e)) e) root.

(** The turn up to the normalization of the divs. *)
Definition prepare (ruthless : bool) (d : Document) : Document :=
  let d :=
    with_doc d (for_tags (fun r => r) in_order ["script"; "style"]
                         drop_tree (doc d)) in
  let d := with_doc d (for_tags (fun r => r) in_order ["body"]
                                mark_body (doc d)) in
  let d := if ruthless then remove_unlikely_candidates d else d in
  transform_misused_divs_into_paragraphs d.

(** The fallback article: [self.doc.find("body")], or the document. *)
Definition fallback_article (d : Document) : element :=
  match find_child "body" (doc d) with
  | Some article => article
  | None => doc d
  end.

(** From [sanitize] to the end of the turn. *)
Definition clean_and_decide (ruthless : bool) (d : Document)
           (article : element) (c : candidates) : outcome :=
  let (cleaned_article, d) := sanitize d article c in
  let article_length := String.length cleaned_article in
  if ruthless && negb (retry_length d <=? Z.of_nat article_length)%Z
  then Retry false d
  else Return cleaned_article d.

(** One turn of the loop. *)
Definition summary_iteration (ruthless : bool) (d : Document) : outcome :=
  let d := prepare ruthless d in
  let c := score_paragraphs d in
  match select_best_candidate c with
  | Some best_candidate =>
      let (article, d) := get_article d c best_candidate in
      clean_and_decide ruthless d article c
  | None =>
      if ruthless then Retry false d
      else clean_and_decide ruthless d (fallback_article d) c
  end.

(** The [while True] loop with a bound on its turns: the result, the final
    document and the number of turns taken; [None] when the bound is
    reached without a [return]. *)
Fixpoint summary_loop (fuel : nat) (ruthless : bool) (d : Document)
  : option (string * Document * nat) :=
  match fuel with
  | O => None
  | S n =>
      match summary_iteration ruthless d with
      | Return cleaned_article d' => Some (cleaned_article, d', 1%nat)
      | Retry ruthless' d' =>
          match summary_loop n ruthless' d' with
          | Some (r, d'', turns) => Some (r, d'', S turns)
          | None => None
          end
      end
  end.

(** [summary]: two turns are always enough, see [summary_loop_returns]. *)
Definition summary (d : Document) : option (string * Document * nat) :=
  summary_loop 2 true d.

(* ===================================================================== *)
(** * Sample trees and documents *)
(* ===================================================================== *)

(** An anchor inside a block inside an anchor. *)
Definition nested_anchors : element :=
  Element 1 "div" [] None None
    [Element 2 "a" [] (Some "ab") None
       [Element 3 "div" [] None None
          [Element 4 "a" [] (Some "cd") None []]]].

(** A paragraph with one link. *)
Definition one_anchor : element :=
  Element 1 "p" [] (Some "see ") None
    [Element 2 "a" [] (Some "this") (Some " page") []].

(** A div whose only content is text. *)
Definition lone_div : element :=
  Element 0 "html" [] None None
    [Element 1 "body" [] None None [Element 2 "div" [] (Some "hello") None []]].

(** A div holding text and a nested block. *)
Definition mixed_div : element :=
  Element 0 "html" [] None None
    [Element 1 "body" [] None None
       [Element 2 "div" [] (Some "intro") None
          [Element 3 "div" [] (Some "inner") (Some "outro") []]]].

Definition ten_commas : string :=
  "one, two, three, four, five, six, seven, eight, nine, ten, eleven".

(** A div inside a table. *)
Definition table_with_div : element :=
  Element 10 "div" [] None None
    [Element 11 "table" [] None None
       [Element 12 "tr" [] None None
          [Element 13 "td" [] None None
             [Element 14 "div" [] (Some ten_commas) None []]]]].

(** A div inside a div. *)
Definition div_in_div : element :=
  Element 10 "section" [] None None
    [Element 11 "div" [] None None
       [Element 12 "div" [] (Some ten_commas) None []]].

Definition caption : string := "A caption that is long enough to be kept".

(** Two images, a caption and no paragraph. *)
Definition gallery_inner : element :=
  Element 21 "div" [] (Some caption) None
    [Element 22 "img" [] None None []; Element 23 "img" [] None None []].

Definition gallery : element := Element 20 "div" [] None None [gallery_inner].

(** Three images and one paragraph. *)
Definition album_inner : element :=
  Element 21 "div" [] (Some caption) None
    [Element 22 "img" [] None None []; Element 23 "img" [] None None [];
     Element 24 "img" [] None None []; Element 25 "p" [] None None []].

Definition album : element := Element 20 "div" [] None None [album_inner].

Definition long_text : string :=
  "Lorem ipsum dolor sit amet consectetur adipiscing elit sed do eiusmod tempor incididunt ut labore et dolore magna aliqua Ut enim ad minim veniam quis nostrud exercitation ullamco laboris nisi ut aliquip ex ea commodo consequat Duis aute irure dolor in reprehenderit in voluptate velit esse cillum dolore eu fugiat nulla pariatur".

(** A document without any p, pre or td element. *)
Definition no_paragraph : Document :=
  mkDocument
    (Element 0 "html" [] None None
       [Element 1 "body" [] None None
          [Element 2 "span" [] (Some long_text) None []]])
    25 250 3.

Definition sentence : string :=
  "A first paragraph, long enough to count, with commas, and more words at the end.".

(** A scored div followed by two short paragraphs. *)
Definition two_siblings : Document :=
  mkDocument
    (Element 0 "html" [] None None
       [Element 1 "body" [] None None
          [Element 2 "div" [] None None
             [Element 3 "p" [] (Some sentence) None [];
              Element 4 "p" [] (Some sentence) None []];
           Element 5 "p" [] (Some "a. b") None [];
           Element 6 "p" [] (Some "no stop") None []]])
    25 250 7.

(* ===================================================================== *)
(** * Notions used in the statements *)
(* ===================================================================== *)

(** No two elements of the tree have the same identity. *)
Fixpoint distinct (l : list nat) : bool :=
  match l with
  | [] => true
  | x :: l' => negb (existsb (Nat.eqb x) l') && distinct l'
  end.

Definition unique_ids (root : element) : bool :=
  distinct (map eid (root :: descendants root)).

(** [x] occurs before [y] in [l]. *)
Definition before {A : Type} (x y : A) (l : list A) : Prop :=
  exists l1 l2 l3, l = (l1 ++ x :: l2 ++ y :: l3)%list.

(** ** Scoring, as the specification words it *)






(** ** Anchors *)

(** The text is made of whitespace only. *)
Fixpoint all_space (s : string) : bool :=
  match s with
  | EmptyString => true
  | String c s' => is_space c && all_space s'
  end.

(** No anchor below [e] has an anchor below itself. *)
Definition anchors_flat (e : element) : bool :=
  forallb (fun x => match findall_elems "a" x with [] => true | _ => false end)
          (findall_elems "a" e).

(** ** The two passes of the normalizer *)

(** The element referred to by [i] is a div in the tree [root]. *)
Definition still_div (root : element) (i : nat) : bool :=
  match find_elem root i with
  | Some e => String.eqb (etag e) "div"
  | None => false
  end.

(** [b] is [a], possibly retagged to a paragraph. *)
Definition retagged (a b : element) : Prop :=
  eid a = eid b /\ (etag b = etag a \/ etag b = "p").

Definition self_and_descendants (e : element) : list element :=
  e :: descendants e.

(** ** Sentence ends *)

Definition newline : string := String "010"%char EmptyString.

(** The text holds a full stop that is followed by a space, or by the end
    of the text, or by a newline that ends the text. *)
Definition has_sentence_end (s : string) : Prop :=
  exists pre post,
    s = pre ++ String "."%char post
    /\ (post = "" \/ post = newline \/ exists rest, post = String " "%char rest).

(** The same, for a full stop at the head of the text. *)
Definition sentence_end_here (s : string) : bool :=
  match s with
  | String c post =>
      Ascii.eqb c "."%char
      && match post with
         | EmptyString => true
         | String c2 rest =>
             Ascii.eqb c2 " "%char
             || (Ascii.eqb c2 "010"%char
                 && match rest with EmptyString => true | _ => false end)
         end
  | EmptyString => false
  end.

(** [s.endswith(suffix)] *)
Fixpoint ends_with (suffix s : string) : bool :=
  String.eqb s suffix
  || match s with
     | String _ s' => ends_with suffix s'
     | EmptyString => false
     end.

(** The text ends with a full stop, or with a full stop and a space. *)
Definition ends_sentence (s : string) : bool :=
  ends_with "." s || ends_with ". " s.

(** ** Sample documents for the sanitizer *)

Definition gallery_doc : Document := mkDocument gallery 25 250 30.
Definition album_doc : Document := mkDocument album 25 250 30.
Definition table_doc : Document := mkDocument table_with_div 25 250 20.

(** ** Further samples *)

(** Two entries tie for the highest score. *)
Definition tied_candidates : candidates :=
  [(7, (3 # 1)%Q); (8, (5 # 1)%Q); (9, (5 # 1)%Q)].

(** The text lengths of the elements of [l] that have text. *)
Definition lengths_with_text (l : list element) : list nat :=
  filter (fun n => negb (Nat.eqb n 0)) (map text_length l).

Definition very_long_text : string :=
  long_text ++ long_text ++ long_text ++ long_text.

(** An image without text after a long paragraph. *)
Definition picture_inner : element :=
  Element 42 "div" [] None None [Element 43 "img" [] None None []].

Definition picture : element :=
  Element 40 "div" [] None None
    [Element 41 "p" [] (Some very_long_text) None []; picture_inner].

Definition picture_doc : Document := mkDocument picture 25 250 50.

(** ** What the sanitizer leaves *)

(** What identifies an element for the sanitizer: its identity, its tag
    and its attributes. *)
Definition label (e : element) : nat * string * list (string * string) :=
  (eid e, etag e, eattrib e).

Definition lid (l : nat * string * list (string * string)) : nat :=
  fst (fst l).
Definition ltag (l : nat * string * list (string * string)) : string :=
  snd (fst l).
Definition lattrib (l : nat * string * list (string * string))
  : list (string * string) := snd l.

(** The labels of the descendants, in document order. *)
Definition labels (e : element) : list (nat * string * list (string * string)) :=
  map label (descendants e).

(** The labels of a list of siblings and of all that lies below them. *)
Definition blocks (cs : list element)
  : list (nat * string * list (string * string)) :=
  flat_map (fun c => label c :: labels c) cs.

(** [l1] is [l2] with some entries left out. *)
Inductive sub_list {A : Type} : list A -> list A -> Prop :=
| sub_nil : sub_list [] []
| sub_skip : forall x l1 l2, sub_list l1 l2 -> sub_list l1 (x :: l2)
| sub_keep : forall x l1 l2, sub_list l1 l2 -> sub_list (x :: l1) (x :: l2).

(** [new] is [old] with the root labelled as before and some descendants
    taken away. *)
Definition only_removes (old new : element) : Prop :=
  label new = label old /\ sub_list (labels new) (labels old).

(** The identities of a tree, the root first. *)
Definition tree_ids (r : element) : list nat := eid r :: map lid (labels r).

(** The attributes carry a source that the video pattern accepts. *)
Definition video_source (a : list (string * string)) : Prop :=
  exists src, get "src" a = Some src /\ Re.search videoRe src = true.

(** A form among the children. *)
Definition with_form : element :=
  Element 50 "div" [] None None
    [Element 51 "form" [] None None [Element 52 "input" [] None None []];
     Element 53 "p" [] (Some sentence) None []].

(** Two iframes, one of them a video. *)
Definition with_iframes : element :=
  Element 60 "div" [] None None
    [Element 61 "iframe" [("src", "https://www.youtube.com/embed/x")]
             None None [];
     Element 62 "iframe" [("src", "https://example.org/ad")] None None [];
     Element 63 "p" [] (Some sentence) None []].

(** ** The tags of a tree *)

(** The tags of the root and of its descendants. *)
Definition all_tags (r : element) : list string :=
  map etag (self_and_descendants r).

(** Every tag of [new] is a tag of [old], or else p or div, the tags of
    the elements the program creates. *)
Definition tags_from (old new : element) : Prop :=
  forall t, In t (all_tags new) -> t = "p" \/ t = "div" \/ In t (all_tags old).

(** The document a turn of the loop ends with. *)
Definition outcome_doc (o : outcome) : Document :=
  match o with
  | Retry _ d => d
  | Return _ d => d
  end.

(** A script and a style element beside a paragraph. *)
Definition with_script : Document :=
  mkDocument
    (Element 0 "html" [] None None
       [Element 1 "head" [] None None
          [Element 2 "script" [] (Some "var x;") None [];
           Element 3 "style" [] (Some "p {}") None []];
        Element 4 "body" [] None None
          [Element 5 "div" [] None None
             [Element 6 "p" [] (Some sentence) None
                [Element 7 "script" [] (Some "y()") None []]]]])
    25 250 8.

(** No element of the tree is a script or a style element. *)
Definition no_script (r : element) : Prop :=
  forall t, In t (all_tags r) -> t <> "script" /\ t <> "style".


(** A sidebar beside the article, each holding a paragraph. *)
Definition with_sidebar : Document :=
  mkDocument
    (Element 0 "html" [] None None
       [Element 1 "body" [("class", "sidebar")] None None
          [Element 2 "div" [("class", "sidebar")] None None
             [Element 3 "p" [] (Some sentence) None []];
           Element 4 "div" [("id", "article-sidebar")] None None
             [Element 5 "p" [] (Some sentence) None []]]])
    25 250 6.


(** ** Normal divs *)

(** No text, or blank text. *)
Definition blank_opt (o : option string) : bool :=
  match o with
  | Some s => is_blank s
  | None => true
  end.

(** What a parent sees of a child: its identity, its tag and its tail. *)
Definition cview (c : element) : nat * string * option string :=
  (eid c, etag c, etail c).

Definition settled_view (v : nat * string * option string) : bool :=
  blank_opt (snd v) && negb (String.eqb (snd (fst v)) "br").

(** A child as the second loop of the normalization leaves it: its tail
    is blank and it is not a br element. *)
Definition settled (c : element) : bool := settled_view (cview c).

(** A div as the normalization leaves it: no text of its own before its
    first child, between its children or after the last one, and no br
    child. *)
Definition div_ok (e : element) : bool :=
  blank_opt (etext e) && forallb settled (echildren e).

(** The state of a div whose children are being walked: a child is still
    to be visited (its identity is in [T]), or settled, or its tail has
    been dealt with while the child may still be a br (its identity is in
    [B]). *)
Definition vok (T B : list nat) (v : nat * string * option string) : Prop :=
  In (fst (fst v)) T \/ settled_view v = true
  \/ (In (fst (fst v)) B /\ blank_opt (snd v) = true).

Definition sok (T B : list nat) (x : element) : Prop :=
  blank_opt (etext x) = true
  /\ forall v, In v (map cview (echildren x)) -> vok T B v.

(** The identities of a tree, the root first. *)
Definition elem_ids (r : element) : list nat := map eid (self_and_descendants r).

(** Every identity of the tree lies below [n]. *)
Definition ids_below (n : nat) (r : element) : Prop :=
  forall k, In k (elem_ids r) -> k < n.

(** The tail of the children with identity [c] is taken away. *)
Definition retail (c : nat) (v : nat * string * option string)
  : nat * string * option string :=
  if Nat.eqb (fst (fst v)) c then (fst v, None) else v.

(** Divs with text, tails and breaks. *)
Definition with_breaks : Document :=
  mkDocument
    (Element 0 "html" [] None None
       [Element 1 "body" [] None None
          [Element 2 "div" [] (Some "lead") None
             [Element 3 "br" [] None (Some " ") [];
              Element 4 "div" [] (Some " ") (Some "after")
                [Element 5 "br" [] None (Some "x") [];
                 Element 6 "p" [] (Some "s") (Some "y") [];
                 Element 7 "br" [] None (Some "  ") []];
              Element 8 "p" [] (Some "t") (Some " tail ") [];
              Element 9 "br" [] None None []]]])
    25 250 10.

(** What the second loop has reached for a div [x]: it is still to be
    walked (its identity is in [P]), or it is the root, or it is the div
    the loop is at, with the children in [T] still to be visited, or the
    loop is done with it. *)
Definition div_state (P : list nat) (rid i : nat) (T B : list nat)
           (x : element) : Prop :=
  In (eid x) P \/ eid x = rid \/ (eid x = i /\ sok T B x) \/ sok [] [] x.

Definition div_inv (P : list nat) (rid i : nat) (T B : list nat)
           (cur : element) : Prop :=
  forall x, In x (self_and_descendants cur) -> etag x = "div" ->
            div_state P rid i T B x.

(** Distinct identities, all below the next fresh one. *)
Definition well_formed (cur : element) (n : nat) : Prop :=
  NoDup (elem_ids cur) /\ ids_below n cur.


(** ** Headers *)

Definition HEADER_TAGS : list string := ["h1"; "h2"; "h3"; "h4"; "h5"; "h6"].

(** Three headers, one of them in a comment block, beside a paragraph. *)
Definition with_headers : element :=
  Element 70 "div" [] None None
    [Element 71 "h2" [("class", "comment")] (Some "Comments") None [];
     Element 72 "h2" [] (Some "Section") None [];
     Element 73 "h1" [("class", "post-title")] (Some "Title") None [];
     Element 74 "p" [] (Some sentence) None []].

(* ===================================================================== *)
(** * The scores in the arithmetic of the program *)
(* ===================================================================== *)

(** Python computes the scores in binary64 floating point: a sum depends
    on the order of its additions and a product is rounded.  The scoring
    pass and the assembler are therefore given once more over an
    arithmetic that is a parameter, with two instances: the exact
    rationals, for which they are the definitions above, and binary64,
    the arithmetic of the program.  Where Python still holds an [int]
    (the score of [score_node], a length, a count of segments) the
    number is converted by [of_int] before it is used: for integers
    below 2^53, which those of a document are, the conversion is exact
    and Python computes the same value. *)
Module Numeric.

Record arithmetic : Type := mkArithmetic {
  num : Type;
  of_int : Z -> num;            (* [float(n)] of an integer *)
  n_add : num -> num -> num;    (* [a + b] *)
  n_sub : num -> num -> num;    (* [a - b] *)
  n_mul : num -> num -> num;    (* [a * b] *)
  n_div : num -> num -> num;    (* [a / b] *)
  n_lt : num -> num -> bool;    (* [a < b] *)
  n_le : num -> num -> bool;    (* [a <= b] *)
  n_eq : num -> num -> bool     (* [a == b] *)
}.

(** The exact rationals. *)
Definition exact : arithmetic :=
  mkArithmetic Q inject_Z Qplus Qminus Qmult Qdiv Qltb Qle_bool Qeq_bool.

(** The nearest binary64 number to an integer, ties to even. *)
Definition f64_of_Z (z : Z) : PrimFloat.float :=
  FloatOps.SF2Prim
    (SpecFloat.binary_normalize FloatOps.prec FloatOps.emax z 0 false).

(** IEEE 754 binary64, the [float] of Python. *)
Definition binary64 : arithmetic :=
  mkArithmetic PrimFloat.float f64_of_Z PrimFloat.add PrimFloat.sub
               PrimFloat.mul PrimFloat.div PrimFloat.ltb PrimFloat.leb
               PrimFloat.eqb.

Section Over.
Variable N : arithmetic.

Definition of_nat (n : nat) : num N := of_int N (Z.of_nat n).

(** A decimal literal such as [0.2], written as the quotient [2 / 10]:
    the division is correctly rounded, so in binary64 this is the number
    the literal denotes. *)
Definition ratio (p q : Z) : num N := n_div N (of_int N p) (of_int N q).

(** [min(a, b)] and [max(a, b)]: the first argument, unless the second
    one beats it. *)
Definition n_min (a b : num N) : num N := if n_lt N b a then b else a.
Definition n_max (a b : num N) : num N := if n_lt N a b then b else a.

(** [get_link_density] *)
Definition get_link_density (e : element) : num N :=
  let total_length := or_one (text_length e) in
  let link_length := sum_nat (map text_length (findall_elems "a" e)) in
  n_div N (of_nat link_length) (of_nat total_length).

(** The candidate dictionary, in insertion order. *)
Definition candidates : Type := list (nat * num N).

Fixpoint cand_mem (i : nat) (c : candidates) : bool :=
  match c with
  | [] => false
  | (j, _) :: c' => Nat.eqb j i || cand_mem i c'
  end.

(** [candidates[elem].score] *)
Fixpoint cand_score (i : nat) (c : candidates) : num N :=
  match c with
  | [] => of_int N 0
  | (j, q) :: c' => if Nat.eqb j i then q else cand_score i c'
  end.

(** [candidates[elem].score = f(candidates[elem].score)] *)
Fixpoint cand_update (i : nat) (f : num N -> num N) (c : candidates)
  : candidates :=
  match c with
  | [] => []
  | (j, q) :: c' =>
      if Nat.eqb j i then (j, f q) :: c' else (j, q) :: cand_update i f c'
  end.

(** [candidates[elem] = Candidate(score, elem)] for a new key. *)
Definition cand_insert (i : nat) (q : num N) (c : candidates) : candidates :=
  (c ++ [(i, q)])%list.

(** [1 + len(elem_text.split(",")) + min((elem_text_len / 100), 3)]: the
    sum of the two integers, then the float. *)
Definition paragraph_score (elem_text : string) : num N :=
  n_add N (of_nat (1 + split_count ","%char elem_text))
        (n_min (n_div N (of_nat (String.length elem_text)) (of_int N 100))
               (of_int N 3)).

(** The body of the first loop of [score_paragraphs]. *)
Definition score_paragraph (d : Document) (st : candidates * list nat)
           (elem : element) : candidates * list nat :=
  match getparent (doc d) (eid elem) with
  | None => st
  | Some parent_node =>
      let grand_parent_node := getparent (doc d) (eid parent_node) in
      let elem_text := trim (text_content elem) in
      let elem_text_len := String.length elem_text in
      if (Z.of_nat elem_text_len <? min_text_length d)%Z then st
      else
        let st :=
          if cand_mem (eid parent_node) (fst st) then st
          else (cand_insert (eid parent_node)
                  (of_int N (score_node parent_node)) (fst st),
                (snd st ++ [eid parent_node])%list) in
        let st :=
          match grand_parent_node with
          | Some g =>
              if cand_mem (eid g) (fst st) then st
              else (cand_insert (eid g) (of_int N (score_node g)) (fst st),
                    (snd st ++ [eid g])%list)
          | None => st
          end in
        let score := paragraph_score elem_text in
        let c :=
          cand_update (eid parent_node) (fun q => n_add N q score) (fst st) in
        let c :=
          match grand_parent_node with
          | Some g =>
              cand_update (eid g)
                (fun q => n_add N q (n_div N score (of_int N 2))) c
          | None => c
          end in
        (c, snd st)
  end.

Definition accumulate_scores (d : Document) : candidates * list nat :=
  fold_left (score_paragraph d) (tags (doc d) ["p"; "pre"; "td"]) ([], []).

(** The second loop: [candidate.score *= 1 - density]. *)
Definition scale_by_density (d : Document) (c : candidates) (i : nat)
  : candidates :=
  match find_elem (doc d) i with
  | Some elem =>
      let density := get_link_density elem in
      cand_update i (fun q => n_mul N q (n_sub N (of_int N 1) density)) c
  | None => c
  end.

Definition score_paragraphs (d : Document) : candidates :=
  let (c, ordered) := accumulate_scores d in
  fold_left (scale_by_density d) ordered c.

(** [max(10, best_candidate.score * 0.2)] *)
Definition sibling_score_threshold (best_candidate : nat * num N) : num N :=
  n_max (of_int N 10) (n_mul N (snd best_candidate) (ratio 2 10)).

(** The decision taken for one sibling in the loop of [get_article]. *)
Definition sibling_appended (c : candidates) (best_candidate : nat * num N)
           (threshold : num N) (sibling : element) : bool :=
  if Nat.eqb (eid sibling) (fst best_candidate) then true
  else if cand_mem (eid sibling) c
          && n_le N threshold (cand_score (eid sibling) c)
  then true
  else if String.eqb (etag sibling) "p" then
    let link_density := get_link_density sibling in
    let node_content := or_empty (etext sibling) in
    let node_length := String.length node_content in
    if (80 <? node_length)%nat && n_lt N link_density (ratio 1 4) then true
    else if (node_length <=? 80)%nat && n_eq N link_density (of_int N 0)
            && Re.search sentence_end_re node_content
    then true
    else false
  else false.

(** [get_article] *)
Definition get_article (d : Document) (c : candidates)
           (best_candidate : nat * num N) : element * Document :=
  let threshold := sibling_score_threshold best_candidate in
  let output := fragment_fromstring (fresh d) "div" in
  let siblings :=
    match getparent (doc d) (fst best_candidate) with
    | Some parent => echildren parent
    | None =>
        match find_elem (doc d) (fst best_candidate) with
        | Some e => [e]
        | None => []
        end
    end in
  let step (st : element * element) (sibling : element) :=
    if sibling_appended c best_candidate threshold sibling
    then (append sibling (fst st), detach (eid sibling) (snd st))
    else st in
  let (output, root) := fold_left step siblings (output, doc d) in
  (output, mkDocument root (min_text_length d) (retry_length d) (S (fresh d))).

(** ** The account of one element *)





End Over.

End Numeric.

(** Two divs with the same two paragraphs, in the two orders. *)
Definition text_31 : string := "abcdefghijklmnopqrstuvwxyz01234".
Definition text_29 : string := "abcdefghijklmnopqrstuvwxyz012".

Definition two_orders : Document :=
  mkDocument
    (Element 0 "html" [] None None
       [Element 1 "body" [] None None
          [Element 2 "div" [] None None
             [Element 3 "p" [] (Some text_31) None [];
              Element 4 "p" [] (Some text_29) None []];
           Element 5 "div" [] None None
             [Element 6 "p" [] (Some text_29) None [];
              Element 7 "p" [] (Some text_31) None []]]])
    25 250 8.

(* ===================================================================== *)
(** * Facts about strings *)
(* ===================================================================== *)

Lemma length_append (a b : string) :
  String.length (a ++ b) = String.length a + String.length b.
Proof.
  induction a as [|c a IH]; simpl; [reflexivity | now rewrite IH].
Qed.

Lemma length_take (n : nat) (s : string) :
  String.length (Re.take n s) = Nat.min n (String.length s).
Proof.
  revert s; induction n as [|n IH]; intros [|c s]; simpl; auto.
Qed.

Lemma length_consumed (s s' : string) :
  String.length (Re.consumed s s') = String.length s - String.length s'.
Proof.
  unfold Re.consumed. rewrite length_take. lia.
Qed.

(** Induction on an element with the property known of its children. *)
Lemma element_induction (P : element -> Prop) :
  (forall i t a x y cs, Forall P cs -> P (Element i t a x y cs)) ->
  forall e, P e.
Proof.
  intros H. fix IH 1. intros [i t a x y cs]. apply H.
  induction cs as [|c cs IHcs]; constructor; [apply IH | exact IHcs].
Qed.

(* ===================================================================== *)
(** * The matcher only finds matches of the pattern *)
(* ===================================================================== *)

Section MatcherSound.
Variable A : Type.

Lemma star_match_sound (p : ascii -> bool) (g : Re.groups) :
  forall s (k : string -> option A) x,
    Re.star_match A p s k = Some x ->
    exists s', Re.matches (Re.Star p) s g s' g /\ k s' = Some x.
Proof.
  induction s as [|c s IH]; intros k x H; simpl in H.
  - exists EmptyString. split; [constructor | exact H].
  - destruct (p c) eqn:Hp.
    + destruct (Re.star_match A p s k) as [y|] eqn:Hs.
      * injection H as ->. destruct (IH k x Hs) as [s' [Hm Hk]].
        exists s'. split; [now apply Re.m_star_more | exact Hk].
      * exists (String c s). split; [constructor | exact H].
    + exists (String c s). split; [constructor | exact H].
Qed.

Lemma rmatch_sound :
  forall r s g (k : string -> Re.groups -> option A) x,
    Re.rmatch A r s g k = Some x ->
    exists s' g', Re.matches r s g s' g' /\ k s' g' = Some x.
Proof.
  induction r as [|p|r1 IH1 r2 IH2|r1 IH1 r2 IH2|p|n r IH|];
    intros s g k x H; simpl in H.
  - exists s, g. split; [constructor | exact H].
  - destruct s as [|c s]; [discriminate|].
    destruct (p c) eqn:Hp; [|discriminate].
    exists s, g. split; [now constructor | exact H].
  - destruct (IH1 _ _ _ _ H) as [s1 [g1 [Hm1 H1]]].
    destruct (IH2 _ _ _ _ H1) as [s2 [g2 [Hm2 H2]]].
    exists s2, g2. split; [econstructor; eassumption | exact H2].
  - destruct (Re.rmatch A r1 s g k) as [y|] eqn:H1.
    + injection H as ->. destruct (IH1 _ _ _ _ H1) as [s' [g' [Hm Hk]]].
      exists s', g'. split; [now apply Re.m_alt_l | exact Hk].
    + destruct (IH2 _ _ _ _ H) as [s' [g' [Hm Hk]]].
      exists s', g'. split; [now apply Re.m_alt_r | exact Hk].
  - destruct (star_match_sound p g s _ x H) as [s' [Hm Hk]].
    exists s', g. split; assumption.
  - destruct (IH _ _ _ _ H) as [s' [g' [Hm Hk]]].
    exists s', ((n, Re.consumed s s') :: g'). split; [now constructor | exact Hk].
  - destruct (Re.at_end s) eqn:He; [|discriminate].
    exists s, g. split; [now constructor | exact H].
Qed.
End MatcherSound.

Lemma match_here_sound (r : Re.regex) (s rest : string) (g : Re.groups) :
  Re.match_here r s = Some (rest, g) -> Re.matches r s [] rest g.
Proof.
  unfold Re.match_here. intros H.
  destruct (rmatch_sound _ _ _ _ _ _ H) as [s' [g' [Hm Hk]]].
  now injection Hk as -> ->.
Qed.

(** A match leaves a suffix of its input. *)
Lemma matches_length r s g s' g' :
  Re.matches r s g s' g' -> String.length s' <= String.length s.
Proof.
  induction 1; simpl in *; lia.
Qed.

(** A pattern without groups leaves the groups as they are. *)
Lemma matches_groupless r s g s' g' :
  Re.matches r s g s' g' -> Re.groupless r = true -> g' = g.
Proof.
  induction 1; simpl; intros Hg; try reflexivity; try discriminate.
  - apply andb_prop in Hg as [Hg1 Hg2].
    rewrite (IHmatches2 Hg2). now apply IHmatches1.
  - apply andb_prop in Hg as [Hg1 _]. now apply IHmatches.
  - apply andb_prop in Hg as [_ Hg2]. now apply IHmatches.
  - now apply IHmatches.
Qed.

Lemma matches_seq_inv r1 r2 s g s2 g2 :
  Re.matches (Re.Seq r1 r2) s g s2 g2 ->
  exists s1 g1, Re.matches r1 s g s1 g1 /\ Re.matches r2 s1 g1 s2 g2.
Proof. inversion 1; subst; eauto. Qed.

Lemma matches_chr_inv p s g s' g' :
  Re.matches (Re.Chr p) s g s' g' ->
  exists c, s = String c s' /\ g' = g /\ p c = true.
Proof. inversion 1; subst; eauto. Qed.

Lemma matches_group_inv n r s g s' g2 :
  Re.matches (Re.Group n r) s g s' g2 ->
  exists g', Re.matches r s g s' g' /\ g2 = (n, Re.consumed s s') :: g'.
Proof. inversion 1; subst; eauto. Qed.

(* ===================================================================== *)
(** * The attribute stripper *)
(* ===================================================================== *)

(** The replacement of a match of [HTMLSTRIP] is shorter than the match:
    the space before the attribute is consumed and not written back. *)
Lemma HTMLSTRIP_match_shrinks (s rest : string) (g : Re.groups) :
  Re.match_here HTMLSTRIP s = Some (rest, g) ->
  String.length (HTMLSTRIP_repl g) < String.length s - String.length rest.
Proof.
  intros H. apply match_here_sound in H. unfold HTMLSTRIP in H.
  apply matches_seq_inv in H as (s1 & g1 & Hlt & H).
  apply matches_chr_inv in Hlt as (c1 & -> & -> & _).
  apply matches_seq_inv in H as (s2 & g2 & Hg1 & H).
  apply matches_group_inv in Hg1 as (g1' & Hg1 & ->).
  pose proof (matches_length _ _ _ _ _ Hg1) as L1.
  apply matches_groupless in Hg1 as ->; [|reflexivity].
  apply matches_seq_inv in H as (s3 & g3 & Hsp & H).
  apply matches_chr_inv in Hsp as (c2 & -> & -> & _).
  apply matches_seq_inv in H as (s4 & g4 & Hattr & H).
  pose proof (matches_length _ _ _ _ _ Hattr) as L3.
  apply matches_groupless in Hattr as ->; [|reflexivity].
  apply matches_seq_inv in H as (s5 & g5 & Hs1 & H).
  pose proof (matches_length _ _ _ _ _ Hs1) as L4.
  apply matches_groupless in Hs1 as ->; [|reflexivity].
  apply matches_seq_inv in H as (s6 & g6 & Heq & H).
  apply matches_chr_inv in Heq as (c3 & -> & -> & _).
  apply matches_seq_inv in H as (s7 & g7 & Hs2 & H).
  pose proof (matches_length _ _ _ _ _ Hs2) as L6.
  apply matches_groupless in Hs2 as ->; [|reflexivity].
  apply matches_seq_inv in H as (s8 & g8 & Hval & H).
  pose proof (matches_length _ _ _ _ _ Hval) as L7.
  apply matches_groupless in Hval as ->; [|reflexivity].
  apply matches_seq_inv in H as (s9 & g9 & Hg2 & H).
  apply matches_group_inv in Hg2 as (g2' & Hg2 & ->).
  pose proof (matches_length _ _ _ _ _ Hg2) as L8.
  apply matches_groupless in Hg2 as ->; [|reflexivity].
  apply matches_chr_inv in H as (c4 & -> & -> & _).
  unfold HTMLSTRIP_repl. cbn [Re.group Nat.eqb].
  rewrite !length_append, !length_consumed.
  cbn [String.length] in *. lia.
Qed.

Section Substitution.
Variable r : Re.regex.
Variable repl : Re.groups -> string.
Hypothesis shrinks : forall s rest g,
  Re.match_here r s = Some (rest, g) ->
  String.length (repl g) < String.length s - String.length rest.

(** The substitution never lengthens the text. *)
Lemma sub_from_length :
  forall s skip, skip <= String.length s ->
    String.length (Re.sub_from r repl skip s) + skip <= String.length s.
Proof.
  induction s as [|c s IH]; intros skip Hs.
  - destruct skip; simpl in *; [|lia].
    destruct (Re.match_here r "") as [[rest g]|] eqn:Hm; simpl; [|lia].
    apply shrinks in Hm. simpl in Hm. lia.
  - destruct skip as [|n]; cbn [Re.sub_from].
    + destruct (Re.match_here r (String c s)) as [[rest g]|] eqn:Hm.
      * apply shrinks in Hm.
        destruct (String.length (String c s) - String.length rest)
          as [|n] eqn:Hn; [lia|].
        rewrite length_append. cbn [String.length] in Hn |- *.
        assert (Hle : n <= String.length s) by lia.
        specialize (IH n Hle). lia.
      * specialize (IH 0 (Nat.le_0_l _)). simpl. lia.
    + simpl in Hs. specialize (IH n (le_S_n _ _ Hs)). simpl. lia.
Qed.

(** Where the pattern is found, the substitution shortens the text. *)
Lemma sub_shrinks :
  forall s, Re.search r s = true ->
    String.length (Re.sub r repl s) < String.length s.
Proof.
  unfold Re.sub.
  induction s as [|c s IH]; intros Hf; cbn [Re.search] in Hf.
  - destruct (Re.match_here r "") as [[rest g]|] eqn:Hm; [|discriminate].
    apply shrinks in Hm. simpl in Hm. lia.
  - cbn [Re.sub_from].
    destruct (Re.match_here r (String c s)) as [[rest g]|] eqn:Hm.
    + apply shrinks in Hm.
      destruct (String.length (String c s) - String.length rest)
        as [|n] eqn:Hn; [lia|].
      rewrite length_append. cbn [String.length] in Hn |- *.
      assert (Hle : n <= String.length s) by lia.
      pose proof (sub_from_length s n Hle). lia.
    + specialize (IH Hf). simpl. lia.
Qed.
End Substitution.

(** The loop of [clean_attributes] returns as soon as the fuel exceeds the
    length of the text, and what it returns has no match left. *)
Lemma clean_attributes_loop_returns :
  forall fuel html, String.length html < fuel ->
    exists r, clean_attributes_loop fuel html = Some r
              /\ Re.search HTMLSTRIP r = false.
Proof.
  induction fuel as [|fuel IH]; intros html Hlen; [lia|].
  simpl. destruct (Re.search HTMLSTRIP html) eqn:Hs.
  - apply IH.
    pose proof (sub_shrinks HTMLSTRIP HTMLSTRIP_repl
                  HTMLSTRIP_match_shrinks html Hs). lia.
  - exists html. split; [reflexivity | exact Hs].
Qed.

Lemma clean_attributes_spec (html : string) :
  clean_attributes_loop (S (String.length html)) html
    = Some (clean_attributes html)
  /\ Re.search HTMLSTRIP (clean_attributes html) = false.
Proof.
  unfold clean_attributes.
  destruct (clean_attributes_loop_returns (S (String.length html)) html)
    as [r [Hr Hs]]; [lia|].
  rewrite Hr. split; [reflexivity | exact Hs].
Qed.

(** More fuel does not change the result of the loop. *)
Lemma clean_attributes_loop_more_fuel :
  forall fuel html r, clean_attributes_loop fuel html = Some r ->
    forall fuel', fuel <= fuel' -> clean_attributes_loop fuel' html = Some r.
Proof.
  induction fuel as [|fuel IH]; intros html r H fuel' Hle; [discriminate|].
  destruct fuel' as [|fuel']; [lia|].
  simpl in *. destruct (Re.search HTMLSTRIP html); [|exact H].
  apply (IH _ _ H). lia.
Qed.

(** C9. The attribute stripper is idempotent: on every text [s] the loop
    of [clean_attributes] returns (its fuel is never exhausted), what it
    returns holds no match of the bad-attribute pattern, and stripping
    that result again gives it back unchanged. *)
Theorem clean_attributes_idempotent (s : string) :
  clean_attributes_loop (S (String.length s)) s = Some (clean_attributes s)
  /\ Re.search HTMLSTRIP (clean_attributes s) = false
  /\ clean_attributes (clean_attributes s) = clean_attributes s.
Proof.
  destruct (clean_attributes_spec s) as [Hr Hs].
  split; [exact Hr|]. split; [exact Hs|].
  unfold clean_attributes at 1. simpl. now rewrite Hs.
Qed.

(* ===================================================================== *)
(** * Facts about lists, sums and the candidate dictionary *)
(* ===================================================================== *)

Lemma cand_mem_insert j i q c :
  cand_mem j (cand_insert i q c) = cand_mem j c || Nat.eqb i j.
Proof.
  unfold cand_insert. induction c as [|[k v] c IH]; simpl.
  - now rewrite orb_false_r.
  - rewrite IH. now rewrite orb_assoc.
Qed.

Lemma cand_score_insert j i q c :
  cand_score j (cand_insert i q c)
  = if cand_mem j c then cand_score j c
    else if Nat.eqb i j then q else 0%Q.
Proof.
  unfold cand_insert. induction c as [|[k v] c IH]; simpl.
  - reflexivity.
  - destruct (Nat.eqb k j); simpl; [reflexivity | exact IH].
Qed.

Lemma cand_mem_update j i f c : cand_mem j (cand_update i f c) = cand_mem j c.
Proof.
  induction c as [|[k v] c IH]; simpl; [reflexivity|].
  destruct (Nat.eqb k i); simpl; [reflexivity | now rewrite IH].
Qed.

Lemma cand_score_update j i f c :
  cand_score j (cand_update i f c)
  = if Nat.eqb i j && cand_mem j c then f (cand_score j c) else cand_score j c.
Proof.
  induction c as [|[k v] c IH]; simpl.
  - now rewrite andb_false_r.
  - destruct (Nat.eqb k i) eqn:Hki; simpl.
    + apply Nat.eqb_eq in Hki as ->.
      destruct (Nat.eqb i j); simpl; reflexivity.
    + destruct (Nat.eqb k j) eqn:Hkj; simpl.
      * apply Nat.eqb_eq in Hkj as ->.
        rewrite Nat.eqb_sym in Hki. now rewrite Hki.
      * exact IH.
Qed.

(** In a list without repeated identities, an element is found under its
    own identity. *)
Lemma find_by_id (l : list element) (p : element) :
  distinct (map eid l) = true -> In p l ->
  find (fun e => Nat.eqb (eid e) (eid p)) l = Some p.
Proof.
  induction l as [|x l IH]; simpl; intros Hd Hin; [contradiction|].
  apply andb_prop in Hd as [Hx Hd].
  destruct Hin as [<- | Hin].
  - now rewrite Nat.eqb_refl.
  - destruct (Nat.eqb (eid x) (eid p)) eqn:E.
    + exfalso. apply Nat.eqb_eq in E.
      apply negb_true_iff in Hx.
      assert (existsb (Nat.eqb (eid x)) (map eid l) = true) as Hc.
      { apply existsb_exists. exists (eid p). split.
        - now apply in_map.
        - now apply Nat.eqb_eq. }
      congruence.
    + now apply IH.
Qed.


(* ===================================================================== *)
(** * Scoring *)
(* ===================================================================== *)


(* ===================================================================== *)
(** * Link density *)
(* ===================================================================== *)

Lemma Qnat_nonneg (n : nat) : (0 <= Qnat n)%Q.
Proof.
  unfold Qnat, Qle. simpl. lia.
Qed.

Lemma Qnat_pos (n : nat) : 0 < n -> (0 < Qnat n)%Q.
Proof.
  unfold Qnat, Qlt. simpl. lia.
Qed.

Lemma Qnat_le (a b : nat) : a <= b -> (Qnat a <= Qnat b)%Q.
Proof.
  unfold Qnat, Qle. simpl. lia.
Qed.

(** A quotient of two counts, the second one positive. *)
Lemma Qnat_div_bounds (a b : nat) :
  0 < b ->
  (0 <= Qnat a / Qnat b)%Q /\ (a <= b -> (Qnat a / Qnat b <= 1)%Q).
Proof.
  intros Hb. pose proof (Qnat_pos b Hb) as Hpos. split.
  - apply Qle_shift_div_l; [exact Hpos|].
    rewrite Qmult_0_l. apply Qnat_nonneg.
  - intros Hab. apply Qle_shift_div_r; [exact Hpos|].
    rewrite Qmult_1_l. now apply Qnat_le.
Qed.

(** The denominator of [get_link_density]. *)
Lemma or_one_pos (n : nat) : 0 < or_one n.
Proof. destruct n; simpl; lia. Qed.

(** C6, as stated, fails: with an anchor inside an anchor the inner text
    is counted twice, and the density of [nested_anchors] is 3/2. *)
Lemma get_link_density_above_one :
  (get_link_density nested_anchors == 3 # 2)%Q
  /\ ~ (get_link_density nested_anchors <= 1)%Q.
Proof.
  split; [reflexivity|]. vm_compute. intros H. apply H. reflexivity.
Qed.

(* ===================================================================== *)
(** * Anchors that do not lie in one another *)
(* ===================================================================== *)

(** The modelled [trim] never loses length when texts are joined: the
    trimmed parts fit side by side in the trimmed whole. *)
Lemma append_empty_r (s : string) : s ++ "" = s.
Proof. induction s as [|c s IH]; simpl; [reflexivity | now rewrite IH]. Qed.

Lemma lstrip_append (a b : string) :
  lstrip (a ++ b) = if all_space a then lstrip b else lstrip a ++ b.
Proof.
  induction a as [|c a IH]; simpl; [reflexivity|].
  destruct (is_space c); simpl; [exact IH | reflexivity].
Qed.

Lemma rstrip_empty (s : string) : rstrip s = "" <-> all_space s = true.
Proof.
  induction s as [|c s IH]; simpl; [tauto|].
  destruct (rstrip s) as [|c' r] eqn:E.
  - destruct (is_space c); simpl.
    + split; [intros _; now apply IH | reflexivity].
    + split; discriminate.
  - split; [discriminate|]. intros H. apply andb_prop in H as [_ H].
    apply IH in H. discriminate.
Qed.

Lemma rstrip_append (a b : string) :
  rstrip (a ++ b) = if all_space b then rstrip a else a ++ rstrip b.
Proof.
  induction a as [|c a IH]; simpl.
  - destruct (all_space b) eqn:E; [now apply rstrip_empty | reflexivity].
  - rewrite IH. destruct (all_space b) eqn:E; [reflexivity|].
    destruct (a ++ rstrip b) as [|c' r] eqn:Ea; [|reflexivity].
    exfalso. destruct a; [|discriminate]. simpl in Ea.
    apply rstrip_empty in Ea. congruence.
Qed.

Lemma length_rstrip (s : string) : String.length (rstrip s) <= String.length s.
Proof.
  induction s as [|c s IH]; simpl; [lia|].
  destruct (rstrip s); [destruct (is_space c)|]; simpl in *; lia.
Qed.

Lemma lstrip_all_space (s : string) : all_space s = true -> lstrip s = "".
Proof.
  induction s as [|c s IH]; simpl; [reflexivity|].
  intros H. apply andb_prop in H as [-> H]. now apply IH.
Qed.

Lemma lstrip_split (s : string) :
  exists ws, all_space ws = true /\ s = ws ++ lstrip s.
Proof.
  induction s as [|c s [ws [Hw Hs]]]; simpl.
  - now exists "".
  - destruct (is_space c) eqn:E.
    + exists (String c ws). simpl. rewrite E, Hw. split; [reflexivity|].
      now rewrite <- Hs.
    + now exists "".
Qed.

Lemma length_strip_rstrip (s : string) :
  String.length (strip s) <= String.length (rstrip s).
Proof.
  unfold strip. destruct (lstrip_split s) as [ws [Hw Hs]].
  rewrite Hs at 2. rewrite rstrip_append.
  destruct (all_space (lstrip s)) eqn:E.
  - apply rstrip_empty in E. rewrite E. simpl. lia.
  - rewrite length_append. lia.
Qed.

Lemma strip_superadditive (a b : string) :
  String.length (strip a) + String.length (strip b)
  <= String.length (strip (a ++ b)).
Proof.
  unfold strip at 3. rewrite lstrip_append.
  destruct (all_space a) eqn:Ea.
  - unfold strip at 1. rewrite (lstrip_all_space a Ea). simpl.
    unfold strip. lia.
  - rewrite rstrip_append. destruct (all_space b) eqn:Eb.
    + unfold strip at 2. rewrite (lstrip_all_space b Eb). simpl.
      unfold strip. lia.
    + rewrite length_append.
      pose proof (length_rstrip (lstrip a)).
      pose proof (length_strip_rstrip b).
      unfold strip at 1. lia.
Qed.

Lemma concat_empty_cons (x : string) (xs : list string) :
  String.concat "" (x :: xs) = x ++ String.concat "" xs.
Proof.
  destruct xs; simpl; [now rewrite append_empty_r | reflexivity].
Qed.

Lemma trim_superadditive (a b : string) :
  String.length (trim a) + String.length (trim b)
  <= String.length (trim (a ++ b)).
Proof. apply strip_superadditive. Qed.

Lemma trim_append_r (a b : string) :
  String.length (trim b) <= String.length (trim (a ++ b)).
Proof. pose proof (trim_superadditive a b). lia. Qed.

Lemma trim_append_l (a b : string) :
  String.length (trim a) <= String.length (trim (a ++ b)).
Proof. pose proof (trim_superadditive a b). lia. Qed.

(** The text lengths of the children add up to at most the length of the
    text they make together. *)
Lemma children_text_length (cs : list element) :
  sum_nat (map text_length cs)
  <= String.length
       (trim (String.concat ""
                (map (fun c => text_content c ++ or_empty (etail c)) cs))).
Proof.
  induction cs as [|c cs IH]; [simpl; lia|].
  cbn [map]. rewrite concat_empty_cons. cbn [sum_nat fold_right].
  fold (sum_nat (map text_length cs)).
  pose proof (trim_superadditive
                (text_content c ++ or_empty (etail c))
                (String.concat ""
                   (map (fun c => text_content c ++ or_empty (etail c)) cs))).
  pose proof (trim_append_l (text_content c) (or_empty (etail c))).
  unfold text_length at 1. lia.
Qed.

Lemma findall_elems_children (name : string) i t a x y cs :
  findall_elems name (Element i t a x y cs)
  = flat_map (fun c => (if String.eqb (etag c) name then [c] else [])
                       ++ findall_elems name c)%list cs.
Proof.
  unfold findall_elems. cbn [descendants].
  induction cs as [|c cs IH]; [reflexivity|].
  cbn [flat_map]. rewrite filter_app, IH. cbn [filter].
  now destruct (String.eqb (etag c) name).
Qed.

Lemma sum_nat_app (a b : list nat) : sum_nat (a ++ b) = sum_nat a + sum_nat b.
Proof.
  induction a as [|x a IH]; simpl; [reflexivity|].
  unfold sum_nat in *. simpl. rewrite IH. lia.
Qed.

Lemma anchors_within_text (e : element) :
  anchors_flat e = true ->
  sum_nat (map text_length (findall_elems "a" e)) <= text_length e.
Proof.
  induction e as [i t a x y cs IH] using element_induction.
  unfold anchors_flat. rewrite findall_elems_children.
  intros Hflat.
  assert (Hsum : sum_nat (map text_length
                   (flat_map (fun c => (if String.eqb (etag c) "a" then [c] else [])
                                        ++ findall_elems "a" c)%list cs))
                 <= sum_nat (map text_length cs)).
  { induction cs as [|c cs IHcs]; [simpl; lia|].
    cbn [flat_map] in *. rewrite !forallb_app in Hflat.
    apply andb_prop in Hflat as [Hc Hrest].
    apply andb_prop in Hc as [Hhead Hsub].
    inversion IH as [|c' cs' Pc Pcs]; subst.
    specialize (IHcs Pcs Hrest).
    rewrite !map_app, !sum_nat_app. cbn [map].
    assert (sum_nat (map text_length
                       (if String.eqb (etag c) "a" then [c] else []))
            + sum_nat (map text_length (findall_elems "a" c))
            <= text_length c).
    { destruct (String.eqb (etag c) "a").
      - simpl in Hhead. destruct (findall_elems "a" c); [|discriminate].
        simpl. lia.
      - simpl. apply Pc. exact Hsub. }
    cbn [sum_nat fold_right]. fold (sum_nat (map text_length cs)). lia. }
  unfold text_length at 2. cbn [text_content].
  pose proof (children_text_length cs).
  pose proof (trim_append_r (or_empty x)
                (String.concat ""
                   (map (fun c => text_content c ++ or_empty (etail c)) cs))).
  lia.
Qed.

(** Without an anchor inside an anchor the link density is at most 1. *)
Lemma get_link_density_flat_anchors (e : element) :
  anchors_flat e = true -> (get_link_density e <= 1)%Q.
Proof.
  intros Hflat. unfold get_link_density.
  apply (Qnat_div_bounds _ _ (or_one_pos (text_length e))).
  pose proof (anchors_within_text e Hflat).
  destruct (text_length e); simpl; lia.
Qed.

(** C6, as amended. The link density of every element is at least 0; it
    is at most 1 for every element below which no anchor lies inside
    another anchor, the one case in which a text is counted twice; and it
    is 0 for an element without anchor descendants. *)
Theorem get_link_density_bounds (e : element) :
  (0 <= get_link_density e)%Q
  /\ (anchors_flat e = true -> (get_link_density e <= 1)%Q)
  /\ (findall_elems "a" e = [] -> (get_link_density e == 0)%Q).
Proof.
  split; [|split].
  - unfold get_link_density.
    exact (proj1 (Qnat_div_bounds
                    (sum_nat (map text_length (findall_elems "a" e)))
                    _ (or_one_pos (text_length e)))).
  - apply get_link_density_flat_anchors.
  - unfold get_link_density. intros ->. simpl. unfold Qdiv.
    apply Qmult_0_l.
Qed.

Lemma get_link_density_bounds_witness :
  (anchors_flat one_anchor = true
   /\ (get_link_density one_anchor <= 1)%Q)
  /\ (findall_elems "a" (Element 2 "a" [] (Some "this") None []) = []
      /\ (get_link_density (Element 2 "a" [] (Some "this") None []) == 0)%Q).
Proof.
  split.
  - assert (H : anchors_flat one_anchor = true) by reflexivity.
    split; [exact H|].
    exact (proj1 (proj2 (get_link_density_bounds one_anchor)) H).
  - split; [reflexivity|].
    exact (proj2 (proj2 (get_link_density_bounds
                           (Element 2 "a" [] (Some "this") None [])))
                 eq_refl).
Defined.

(* ===================================================================== *)
(** * The retry loop *)
(* ===================================================================== *)

Lemma sanitize_clean_html d article c :
  fst (sanitize d article c) = get_clean_html (snd (sanitize d article c)).
Proof. reflexivity. Qed.

(** A [return] hands out the serialization of the document it leaves. *)
Lemma clean_and_decide_return ruthless d article c r d' :
  clean_and_decide ruthless d article c = Return r d' ->
  get_clean_html d' = r.
Proof.
  unfold clean_and_decide.
  destruct (sanitize d article c) as [cleaned d2] eqn:E.
  pose proof (sanitize_clean_html d article c) as H. rewrite E in H.
  simpl in H.
  destruct (ruthless && _); [discriminate|].
  intros Hr. injection Hr as <- <-. now rewrite H.
Qed.

Lemma summary_iteration_return ruthless d r d' :
  summary_iteration ruthless d = Return r d' -> get_clean_html d' = r.
Proof.
  unfold summary_iteration.
  destruct (select_best_candidate _) as [best|].
  - destruct (get_article _ _ best) as [article d2].
    apply clean_and_decide_return.
  - destruct ruthless; [discriminate|].
    apply clean_and_decide_return.
Qed.

(** Without [ruthless] the turn cannot end in a [continue]. *)
Lemma clean_and_decide_lenient d article c :
  clean_and_decide false d article c
  = Return (fst (sanitize d article c)) (snd (sanitize d article c)).
Proof.
  unfold clean_and_decide. now destruct (sanitize d article c).
Qed.

Lemma summary_iteration_lenient d :
  exists r d', summary_iteration false d = Return r d'.
Proof.
  unfold summary_iteration.
  destruct (select_best_candidate _) as [best|].
  - destruct (get_article _ _ best) as [article d2].
    rewrite clean_and_decide_lenient. eauto.
  - rewrite clean_and_decide_lenient. eauto.
Qed.

(** Every [continue] clears [ruthless]. *)
Lemma summary_iteration_retry ruthless d b d' :
  summary_iteration ruthless d = Retry b d' -> b = false.
Proof.
  unfold summary_iteration, clean_and_decide.
  destruct (select_best_candidate _) as [best|].
  - destruct (get_article _ _ best) as [article d2].
    destruct (sanitize d2 article _) as [cleaned d3].
    destruct (ruthless && _); [|discriminate].
    now intros H; injection H as <- _.
  - destruct ruthless.
    + now intros H; injection H as <- _.
    + destruct (sanitize _ _ _) as [cleaned d3]. simpl. discriminate.
Qed.

(** Started at any turn, the loop returns within two turns, and the bound
    on the turns does not matter once it is two or more. *)
Lemma summary_loop_returns (ruthless : bool) (d : Document) :
  exists r d' n,
    summary_loop 2 ruthless d = Some (r, d', n)
    /\ 1 <= n <= 2
    /\ get_clean_html d' = r
    /\ forall fuel, 2 <= fuel -> summary_loop fuel ruthless d = Some (r, d', n).
Proof.
  destruct (summary_iteration ruthless d) as [b d1 | r d1] eqn:E1.
  - pose proof (summary_iteration_retry _ _ _ _ E1) as ->.
    destruct (summary_iteration_lenient d1) as [r [d2 E2]].
    exists r, d2, 2. repeat split.
    + simpl. now rewrite E1, E2.
    + lia.
    + lia.
    + exact (summary_iteration_return _ _ _ _ E2).
    + intros [|[|fuel]] Hf; try lia. simpl. now rewrite E1, E2.
  - exists r, d1, 1. repeat split.
    + simpl. now rewrite E1.
    + lia.
    + lia.
    + exact (summary_iteration_return _ _ _ _ E1).
    + intros [|fuel] Hf; try lia. simpl. now rewrite E1.
Qed.

(** C2. For every document [summary] returns after one or two turns of
    its loop: whatever bound of two or more is put on the turns, the loop
    returns the same result after at most two of them; and a turn taken
    without [ruthless] always ends in a [return], whatever the length of
    its result. *)
Theorem summary_two_turns (d : Document) :
  (exists r d' n,
      summary d = Some (r, d', n) /\ 1 <= n <= 2
      /\ forall fuel, 2 <= fuel -> summary_loop fuel true d = Some (r, d', n))
  /\ (forall d0 : Document,
         exists r d', summary_iteration false d0 = Return r d').
Proof.
  split.
  - destruct (summary_loop_returns true d) as (r & d' & n & H & Hn & _ & Hf).
    exists r, d', n. repeat split; try assumption; lia.
  - exact summary_iteration_lenient.
Qed.

(** C10. For every document, [summary] returns a text [r] and leaves a
    document on which [get_clean_html] returns exactly [r]. *)
Theorem get_clean_html_after_summary (d : Document) :
  exists r d' n, summary d = Some (r, d', n) /\ get_clean_html d' = r.
Proof.
  destruct (summary_loop_returns true d) as (r & d' & n & H & _ & Hc & _).
  exists r, d', n. split; assumption.
Qed.

(** C7, as amended. When the selector finds no candidate in a turn: a
    ruthless turn clears [ruthless] and continues with the prepared
    document, without sanitizing anything; a lenient turn sanitizes the
    body child of the document, or the document itself when it has no
    body child, and returns the result; in both cases the loop, taken
    from that turn, returns a result. *)
Theorem summary_without_candidate (ruthless : bool) (d : Document) :
  let d1 := prepare ruthless d in
  let c := score_paragraphs d1 in
  let article :=
    match find (fun e => String.eqb (etag e) "body") (echildren (doc d1)) with
    | Some body => body
    | None => doc d1
    end in
  select_best_candidate c = None ->
  (ruthless = true -> summary_iteration ruthless d = Retry false d1)
  /\ (ruthless = false ->
      summary_iteration ruthless d
      = Return (fst (sanitize d1 article c)) (snd (sanitize d1 article c)))
  /\ exists r d' n, summary_loop 2 ruthless d = Some (r, d', n).
Proof.
  intros d1 c article Hnone. repeat split.
  - intros ->. unfold summary_iteration. fold d1 c. now rewrite Hnone.
  - intros ->. unfold summary_iteration. fold d1 c. rewrite Hnone.
    now rewrite clean_and_decide_lenient.
  - destruct (summary_loop_returns ruthless d) as (r & d' & n & H & _).
    eauto.
Qed.

Lemma summary_without_candidate_witness :
  select_best_candidate (score_paragraphs (prepare true no_paragraph)) = None
  /\ summary_iteration true no_paragraph
     = Retry false (prepare true no_paragraph).
Proof.
  assert (H : select_best_candidate
                (score_paragraphs (prepare true no_paragraph)) = None)
    by reflexivity.
  split; [exact H|].
  exact (proj1 (summary_without_candidate true no_paragraph H) eq_refl).
Defined.

(** C7, as stated, fails on the first turn: [no_paragraph] has no
    candidate, and the ruthless turn continues instead of returning the
    sanitized body, which is what the fallback would have produced. *)
Lemma ruthless_turn_does_not_fall_back :
  let d1 := prepare true no_paragraph in
  let c := score_paragraphs d1 in
  select_best_candidate c = None
  /\ summary_iteration true no_paragraph = Retry false d1
  /\ clean_and_decide true d1 (fallback_article d1) c
     = Return (fst (sanitize d1 (fallback_article d1) c))
              (snd (sanitize d1 (fallback_article d1) c))
  /\ summary_iteration true no_paragraph
     <> clean_and_decide true d1 (fallback_article d1) c.
Proof.
  vm_compute. repeat split; discriminate.
Qed.

(* ===================================================================== *)
(** * Comparisons of rationals *)
(* ===================================================================== *)

Lemma Qltb_lt (a b : Q) : Qltb a b = true <-> (a < b)%Q.
Proof.
  unfold Qltb. rewrite negb_true_iff. split.
  - intros H. apply Qnot_le_lt. intros Hle.
    apply Qle_bool_iff in Hle. congruence.
  - intros H. destruct (Qle_bool b a) eqn:E; [|reflexivity].
    apply Qle_bool_iff in E. exfalso. exact (Qlt_not_le _ _ H E).
Qed.

(* ===================================================================== *)
(** * The detailed filter of the sanitizer *)
(* ===================================================================== *)

(** With a paragraph count of zero the image rule is passed over. *)
Lemma detailed_filter_no_paragraph min_len tag weight n cl ld sibs img :
  count_p n = 0%Z ->
  detailed_filter min_len tag weight n cl ld sibs <> Remove (TooManyImages img).
Proof.
  intros Hp. unfold detailed_filter. rewrite Hp. simpl.
  repeat match goal with
         | |- context [if ?b then _ else _] => destruct b
         end;
    try discriminate.
  all: destruct sibs; try discriminate.
  all: destruct (1000 <? _); discriminate.
Qed.

(** With paragraphs, the image rule comes first. *)
Lemma detailed_filter_images min_len tag weight n cl ld sibs :
  count_p n <> 0%Z ->
  (1 + inject_Z (count_p n) * (13 # 10) < inject_Z (count_img n))%Q ->
  detailed_filter min_len tag weight n cl ld sibs
  = Remove (TooManyImages (count_img n)).
Proof.
  intros Hp Himg. unfold detailed_filter.
  apply Z.eqb_neq in Hp. rewrite Hp.
  apply Qltb_lt in Himg. now rewrite Himg.
Qed.

(** C4, as amended. For an element that reaches the detailed filter (it is
    not allow-listed, its weight plus its score is not negative, and its
    text has fewer than 10 commas): when its paragraph count is not zero
    and its image count exceeds 1 + 1.3 times the paragraph count, it is
    excised for having too many images, before any other rule is looked
    at; when its paragraph count is zero, the image rule is passed over
    and the element is never excised for that reason. *)
Theorem too_many_images_rule (d : Document) (c : candidates) (i : nat)
        (st : cleaning) (elem : element) :
  existsb (Nat.eqb i) (allowed st) = false ->
  find_elem (node st) i = Some elem ->
  ~ (inject_Z (class_weight elem)
     + (if cand_mem i c then cand_score i c else 0) < 0)%Q ->
  count_char ","%char (text_content elem) < 10 ->
  (count_p (count_kinds elem) <> 0%Z ->
   (1 + inject_Z (count_p (count_kinds elem)) * (13 # 10)
    < inject_Z (count_img (count_kinds elem)))%Q ->
   clean_conditionally d c i st
   = dropped i
       (note i (RemovedBecause (TooManyImages (count_img (count_kinds elem))))
             st))
  /\ (count_p (count_kinds elem) = 0%Z ->
      forall img,
        clean_conditionally d c i st
        <> dropped i (note i (RemovedBecause (TooManyImages img)) st)
        /\ filter_decision d (node st) i elem <> Remove (TooManyImages img)).
Proof.
  intros Hallowed Hfind Hscore Hcommas.
  assert (Hs : Qltb (inject_Z (class_weight elem)
                     + (if cand_mem i c then cand_score i c else 0))%Q 0
               = false).
  { destruct (Qltb _ 0) eqn:E; [|reflexivity].
    apply Qltb_lt in E. contradiction. }
  apply Nat.ltb_lt in Hcommas.
  unfold clean_conditionally. rewrite Hallowed, Hfind, Hs, Hcommas.
  split.
  - intros Hp Himg. unfold filter_decision.
    now rewrite (detailed_filter_images _ _ _ _ _ _ _ Hp Himg).
  - intros Hp img.
    assert (Hd : filter_decision d (node st) i elem
                 <> Remove (TooManyImages img))
      by (now apply detailed_filter_no_paragraph).
    split; [|exact Hd].
    destruct (filter_decision d (node st) i elem) as [r| |] eqn:E.
    + intros H.
      assert (Hv : visited (dropped i (note i (RemovedBecause r) st))
                   = visited (dropped i (note i (RemovedBecause
                                                    (TooManyImages img)) st)))
        by (now rewrite H).
      simpl in Hv. apply app_inv_head in Hv. congruence.
    + intros H.
      assert (Hv : visited (note i NotRemoved st)
                   = visited (dropped i (note i (RemovedBecause
                                                    (TooManyImages img)) st)))
        by (now rewrite H).
      simpl in Hv. apply app_inv_head in Hv. discriminate.
    + intros H.
      match type of H with
      | ?a = ?b => assert (Hv : visited a = visited b) by (now rewrite H)
      end.
      simpl in Hv. apply app_inv_head in Hv. discriminate.
Qed.

Lemma too_many_images_rule_witness :
  let st := mkCleaning album [] [] in
  count_p (count_kinds album_inner) = 1%Z
  /\ count_img (count_kinds album_inner) = 3%Z
  /\ clean_conditionally album_doc [] 21 st
     = dropped 21 (note 21 (RemovedBecause (TooManyImages 3)) st).
Proof.
  intros st. split; [reflexivity|]. split; [reflexivity|].
  refine (proj1 (too_many_images_rule album_doc [] 21 st album_inner
                   eq_refl eq_refl _ _) _ _).
  - intros H. vm_compute in H. discriminate.
  - vm_compute. lia.
  - vm_compute. discriminate.
  - vm_compute. reflexivity.
Defined.

(** C4, as stated, fails for a paragraph count of zero: the inner div of
    [gallery] reaches the detailed filter with two images and no
    paragraph, so that 2 > 1 + 0 * 1.3, and it is not removed. *)
Lemma gallery_is_not_removed :
  let st := sanitize_tree gallery_doc gallery [] in
  find_elem gallery 21 = Some gallery_inner
  /\ ~ (inject_Z (class_weight gallery_inner) + 0 < 0)%Q
  /\ count_char ","%char (text_content gallery_inner) < 10
  /\ count_p (count_kinds gallery_inner) = 0%Z
  /\ (1 + inject_Z (count_p (count_kinds gallery_inner)) * (13 # 10)
      < inject_Z (count_img (count_kinds gallery_inner)))%Q
  /\ visited st = [(21, NotRemoved)]
  /\ find_elem (node st) 21 = Some gallery_inner.
Proof.
  intros st. repeat split.
  - intros H. vm_compute in H. discriminate.
  - vm_compute. lia.
Qed.

(* ===================================================================== *)
(** * The article assembler *)
(* ===================================================================== *)

(** The pattern of the sentence end, at the head of a text. *)
Lemma match_sentence_end (s : string) :
  match Re.match_here sentence_end_re s with
  | Some _ => true
  | None => false
  end = sentence_end_here s.
Proof.
  destruct s as [|c post]; [reflexivity|].
  unfold Re.match_here, sentence_end_re, sentence_end_here.
  cbn [Re.rmatch]. rewrite (Ascii.eqb_sym c).
  destruct (Ascii.eqb "."%char c); [|reflexivity].
  cbn [andb].
  destruct post as [|c2 rest]; [reflexivity|].
  rewrite (Ascii.eqb_sym c2 " "%char).
  destruct (Ascii.eqb " "%char c2); [reflexivity|].
  cbn [orb Re.at_end].
  destruct rest; [|now rewrite andb_false_r].
  now destruct (Ascii.eqb c2 "010"%char).
Qed.

Lemma sentence_end_here_spec (s : string) :
  sentence_end_here s = true
  <-> exists post,
        s = String "."%char post
        /\ (post = "" \/ post = newline
            \/ exists rest, post = String " "%char rest).
Proof.
  unfold sentence_end_here, newline. split.
  - destruct s as [|c post]; [discriminate|].
    intros H. apply andb_prop in H as [Hc H].
    apply Ascii.eqb_eq in Hc. subst c. exists post. split; [reflexivity|].
    destruct post as [|c2 rest]; [now left|].
    apply orb_prop in H as [H|H].
    + apply Ascii.eqb_eq in H. subst c2. right. right. now exists rest.
    + apply andb_prop in H as [H Hr]. apply Ascii.eqb_eq in H. subst c2.
      destruct rest; [|discriminate]. right. now left.
  - intros [post [-> H]]. rewrite Ascii.eqb_refl. simpl.
    destruct H as [->|[->|[rest ->]]]; reflexivity.
Qed.

(** The search finds the pattern exactly in the texts that hold a
    sentence end. *)
Lemma search_sentence_end (s : string) :
  Re.search sentence_end_re s = true <-> has_sentence_end s.
Proof.
  unfold has_sentence_end. induction s as [|c s IH].
  - split; [discriminate|].
    intros (pre & post & H & _). destruct pre; discriminate.
  - cbn [Re.search].
    pose proof (match_sentence_end (String c s)) as Hm.
    destruct (Re.match_here sentence_end_re (String c s)) as [x|].
    + split; [|reflexivity]. intros _. symmetry in Hm.
      apply sentence_end_here_spec in Hm as [post [Hs Hp]].
      exists "", post. split; [exact Hs | exact Hp].
    + rewrite IH. split.
      * intros (pre & post & -> & Hp).
        exists (String c pre), post. split; [reflexivity | exact Hp].
      * intros (pre & post & Hs & Hp).
        destruct pre as [|c' pre].
        -- exfalso. simpl in Hs.
           assert (sentence_end_here (String c s) = true) as Ht
             by (apply sentence_end_here_spec; eauto).
           congruence.
        -- simpl in Hs. injection Hs as -> ->. eauto.
Qed.

(** The chain of tests of [get_article], as one boolean formula. *)
Lemma sibling_appended_formula c best threshold sibling :
  sibling_appended c best threshold sibling
  = Nat.eqb (eid sibling) (fst best)
    || (cand_mem (eid sibling) c
        && Qle_bool threshold (cand_score (eid sibling) c))
    || (String.eqb (etag sibling) "p"
        && (((80 <? String.length (or_empty (etext sibling)))%nat
             && Qltb (get_link_density sibling) (1 # 4))
            || ((String.length (or_empty (etext sibling)) <=? 80)%nat
                && Qeq_bool (get_link_density sibling) 0
                && Re.search sentence_end_re (or_empty (etext sibling))))).
Proof.
  unfold sibling_appended.
  destruct (Nat.eqb _ _); [reflexivity|].
  destruct (cand_mem _ _ && _); [reflexivity|].
  destruct (String.eqb _ _); [|reflexivity].
  destruct (_ && Qltb _ _); [reflexivity|].
  now destruct (_ && Re.search _ _).
Qed.

(** The children of the new root are the appended siblings, in the order
    of the loop. *)
Lemma get_article_fold (f : element -> bool) (siblings : list element) :
  forall output root,
    echildren
      (fst (fold_left
              (fun (st : element * element) sibling =>
                 if f sibling
                 then (append sibling (fst st), detach (eid sibling) (snd st))
                 else st)
              siblings (output, root)))
    = (echildren output ++ filter f siblings)%list.
Proof.
  induction siblings as [|x l IH]; intros output root; simpl.
  - now rewrite app_nil_r.
  - destruct (f x).
    + rewrite IH. unfold append. destruct output; simpl.
      now rewrite <- app_assoc.
    + apply IH.
Qed.

(* ===================================================================== *)
(** * Document order *)
(* ===================================================================== *)

(** In document order an element is directly followed by everything
    below it. *)
Lemma descendants_block (node x : element) :
  In x (descendants node) ->
  exists l1 l2, descendants node = (l1 ++ x :: descendants x ++ l2)%list.
Proof.
  revert x. induction node as [i t a tx tl cs IH] using element_induction.
  intros x Hin. simpl in Hin. apply in_flat_map in Hin as [c [Hc Hx]].
  apply in_split in Hc as Hs. destruct Hs as [cs1 [cs2 ->]].
  cbn [descendants]. rewrite flat_map_app. cbn [flat_map].
  set (f := fun c : element => c :: descendants c) in *. fold f.
  destruct Hx as [<- | Hx].
  - exists (flat_map f cs1), (flat_map f cs2).
    reflexivity.
  - rewrite Forall_forall in IH.
    destruct (IH c (in_elt c cs1 cs2) x Hx) as [m1 [m2 Hm]].
    exists (flat_map f cs1 ++ c :: m1)%list, (m2 ++ flat_map f cs2)%list.
    rewrite Hm. simpl.
    repeat (rewrite <- app_assoc; simpl). reflexivity.
Qed.

Lemma descendants_trans (node x y : element) :
  In x (descendants node) -> In y (descendants x) -> In y (descendants node).
Proof.
  intros Hx Hy. destruct (descendants_block node x Hx) as [l1 [l2 ->]].
  apply in_or_app. right. right. apply in_or_app. now left.
Qed.

Lemma before_app {A : Type} (x y : A) (l pre post : list A) :
  before x y l -> before x y (pre ++ l ++ post).
Proof.
  intros (l1 & l2 & l3 & ->).
  exists (pre ++ l1)%list, l2, (l3 ++ post)%list.
  repeat (rewrite <- app_assoc; simpl). reflexivity.
Qed.

Lemma before_map {A B : Type} (f : A -> B) (x y : A) (l : list A) :
  before x y l -> before (f x) (f y) (map f l).
Proof.
  intros (l1 & l2 & l3 & ->).
  exists (map f l1), (map f l2), (map f l3).
  rewrite map_app. simpl. rewrite map_app. reflexivity.
Qed.

(** Among the elements with one tag, taken in reverse document order, an
    element comes before the element it lies in. *)
Lemma nested_first_in_batch (node x y : element) (t : string) :
  In x (descendants node) -> In y (descendants x) ->
  etag x = t -> etag y = t ->
  before y x (rev (findall_elems t node)).
Proof.
  intros Hx Hy Tx Ty.
  destruct (descendants_block node x Hx) as [l1 [l2 Hd]].
  unfold findall_elems. rewrite Hd.
  set (p := fun e : element => String.eqb (etag e) t).
  assert (Px : p x = true) by (unfold p; now apply String.eqb_eq).
  assert (Py : p y = true) by (unfold p; now apply String.eqb_eq).
  rewrite filter_app. simpl. rewrite Px, filter_app.
  assert (Hin : In y (filter p (descendants x)))
    by (apply filter_In; now split).
  apply in_split in Hin as [m1 [m2 ->]].
  exists (rev (filter p l2) ++ rev m2)%list, (rev m1), (rev (filter p l1)).
  rewrite rev_app_distr. simpl. rewrite !rev_app_distr. simpl.
  repeat (rewrite <- app_assoc; simpl). reflexivity.
Qed.

(** The batches of [reverse_tags] follow the order of the tag names. *)
Lemma batches_in_order (node x y : element) (n1 n2 n3 : list string) :
  In x (descendants node) -> In y (descendants node) ->
  before x y (reverse_tags node (n1 ++ etag x :: n2 ++ etag y :: n3)).
Proof.
  intros Hx Hy. unfold reverse_tags.
  set (batch := fun tag_name => rev (findall_elems tag_name node)).
  assert (Bx : In x (batch (etag x))).
  { unfold batch. apply -> in_rev. apply filter_In.
    split; [exact Hx | apply String.eqb_refl]. }
  assert (By : In y (batch (etag y))).
  { unfold batch. apply -> in_rev. apply filter_In.
    split; [exact Hy | apply String.eqb_refl]. }
  apply in_split in Bx as [a1 [a2 Ba]].
  apply in_split in By as [b1 [b2 Bb]].
  rewrite flat_map_app. cbn [flat_map]. rewrite flat_map_app. cbn [flat_map].
  rewrite Ba, Bb.
  exists (flat_map batch n1 ++ a1)%list,
         (a2 ++ flat_map batch n2 ++ b1)%list,
         (b2 ++ flat_map batch n3)%list.
  repeat (rewrite <- app_assoc; simpl). reflexivity.
Qed.

(** A loop over [for_tags] whose body leaves the tree alone walks the
    list that [tags] or [reverse_tags] gives for the tree. *)
Lemma for_tags_unchanged {S : Type} (node_of : S -> element)
      (order : list nat -> list nat) (body : nat -> S -> S) :
  (forall i st, node_of (body i st) = node_of st) ->
  forall tag_names st,
    for_tags node_of order tag_names body st
    = fold_left (fun st i => body i st)
        (flat_map (fun tag_name => order (findall tag_name (node_of st)))
                  tag_names)
        st.
Proof.
  intros Hbody.
  assert (Hfold : forall l st,
             node_of (fold_left (fun st i => body i st) l st) = node_of st).
  { induction l as [|i l IH]; intros st; simpl; [reflexivity|].
    now rewrite IH, Hbody. }
  unfold for_tags.
  induction tag_names as [|t ts IH]; intros st; simpl; [reflexivity|].
  rewrite fold_left_app, IH.
  now rewrite Hfold.
Qed.

Lemma reverse_tags_refs (node : element) (tag_names : list string) :
  map eid (reverse_tags node tag_names)
  = flat_map (fun tag_name => rev (findall tag_name node)) tag_names.
Proof.
  unfold reverse_tags, findall.
  induction tag_names as [|t ts IH]; simpl; [reflexivity|].
  now rewrite map_app, IH, map_rev.
Qed.

(** C3, as stated, fails: in [table_with_div] a div lies inside a table,
    both are left untouched, and the sanitizer evaluates the table, the
    ancestor, before the div. *)
Lemma table_before_nested_div :
  map fst (visited (sanitize_tree table_doc table_with_div [])) = [11; 14]
  /\ exists x y,
      find_elem table_with_div 11 = Some x /\ etag x = "table"
      /\ In y (descendants x) /\ eid y = 14 /\ etag y = "div"
      /\ node (sanitize_tree table_doc table_with_div []) = table_with_div.
Proof.
  split; [reflexivity|].
  eexists. eexists. split; [reflexivity|]. split; [reflexivity|].
  split; [simpl; right; right; left; reflexivity|].
  repeat split.
Qed.

(* ===================================================================== *)
(** * The two passes of the normalizer *)
(* ===================================================================== *)

Lemma retagged_refl (l : list element) : Forall2 retagged l l.
Proof.
  induction l; constructor; [|assumption]. split; [reflexivity | now left].
Qed.

Lemma retagged_trans (l1 l2 : list element) :
  Forall2 retagged l1 l2 ->
  forall l3, Forall2 retagged l2 l3 -> Forall2 retagged l1 l3.
Proof.
  induction 1 as [|a b l1 l2 [Hid Htag] _ IH]; intros l3 H23.
  - inversion H23. constructor.
  - inversion H23 as [|b' c l2' l3' [Hid' Htag'] Hrest]; subst.
    constructor; [|now apply IH].
    split; [congruence|].
    destruct Htag' as [Hc|Hc]; [|now right].
    rewrite Hc. exact Htag.
Qed.

Lemma retagged_ids (l1 l2 : list element) :
  Forall2 retagged l1 l2 -> map eid l1 = map eid l2.
Proof.
  induction 1 as [|a b l1 l2 [Hid _] _ IH]; simpl; [reflexivity|].
  now rewrite Hid, IH.
Qed.

(** Retagging one element keeps the identities and the document order. *)
Lemma update_set_tag_retagged (i : nat) (e : element) :
  Forall2 retagged (self_and_descendants e)
          (self_and_descendants (update i (set_tag "p") e)).
Proof.
  unfold self_and_descendants.
  induction e as [j t a x y cs IH] using element_induction.
  cbn [update eid]. destruct (Nat.eqb j i).
  - simpl. constructor; [split; [reflexivity | now right]|].
    apply retagged_refl.
  - constructor; [split; [reflexivity | now left]|].
    cbn [descendants].
    induction cs as [|c cs IHcs]; simpl; [constructor|].
    inversion IH as [|c' cs' Hc Hcs]; subst.
    inversion Hc as [|a1 b1 l1' l2' Hhead Htail]; subst.
    constructor; [exact Hhead|].
    apply Forall2_app; [exact Htail | now apply IHcs].
Qed.

Lemma retag_div_retagged (root : element) (i : nat) :
  Forall2 retagged (self_and_descendants root)
          (self_and_descendants (retag_div root i)).
Proof.
  unfold retag_div. destruct (find_elem root i) as [elem|].
  - destruct (Re.search _ _).
    + apply retagged_refl.
    + apply update_set_tag_retagged.
  - apply retagged_refl.
Qed.

Lemma retag_divs_retagged (ids : list nat) :
  forall root,
    Forall2 retagged (self_and_descendants root)
            (self_and_descendants (fold_left retag_div ids root)).
Proof.
  induction ids as [|i ids IH]; intros root; simpl.
  - apply retagged_refl.
  - eapply retagged_trans; [apply retag_div_retagged | apply IH].
Qed.

(** The divs of the retagged list are the divs of the original list that
    are still a div when looked up after the retagging. *)
Lemma divs_after_retagging (look : nat -> option element)
      (l1 l2 : list element) :
  Forall2 retagged l1 l2 ->
  (forall b, In b l2 -> look (eid b) = Some b) ->
  map eid (filter (fun e => String.eqb (etag e) "div") l2)
  = filter (fun i => match look i with
                     | Some e => String.eqb (etag e) "div"
                     | None => false
                     end)
           (map eid (filter (fun e => String.eqb (etag e) "div") l1)).
Proof.
  induction 1 as [|a b l1 l2 [Hid Htag] _ IH]; intros Hlook;
    [reflexivity|].
  assert (Hb : look (eid b) = Some b) by (apply Hlook; now left).
  assert (Hrest : forall b', In b' l2 -> look (eid b') = Some b')
    by (intros b' Hin; apply Hlook; now right).
  specialize (IH Hrest). cbn [filter].
  destruct (String.eqb (etag b) "div") eqn:Eb.
  - assert (Ea : String.eqb (etag a) "div" = true).
    { destruct Htag as [<-|Hp]; [exact Eb|].
      rewrite Hp in Eb. discriminate. }
    rewrite Ea. cbn [map filter]. rewrite Hid, Hb, Eb. now rewrite IH.
  - destruct (String.eqb (etag a) "div") eqn:Ea; [|exact IH].
    cbn [map filter]. rewrite Hid, Hb, Eb. exact IH.
Qed.

(** C8, as amended. The second pass of the normalizer walks a list of its
    own, captured when the first pass is over: the div elements of the
    tree as the first pass leaves it.  In a tree whose elements have
    distinct identities these are the elements of the original div set
    that the first pass did not retag, in document order; the elements
    that the first pass turned into paragraphs are not walked. *)
Theorem second_pass_nodes_captured (root : element) :
  unique_ids root = true ->
  second_pass_nodes root
  = filter (still_div (retag_divs root)) (findall "div" root)
  /\ forall d : Document,
      doc d = root ->
      doc (transform_misused_divs_into_paragraphs d)
      = fst (fold_left split_div (second_pass_nodes root)
                       (retag_divs root, fresh d)).
Proof.
  intros Hu. split.
  - unfold second_pass_nodes, findall, still_div.
    pose proof (retag_divs_retagged (findall "div" root) root) as H.
    fold (retag_divs root) in H.
    set (R := retag_divs root) in *.
    assert (HuR : distinct (map eid (self_and_descendants R)) = true).
    { rewrite <- (retagged_ids _ _ H). exact Hu. }
    unfold self_and_descendants in H.
    inversion H as [|a b l1 l2 _ Hdesc]; subst.
    apply (divs_after_retagging (find_elem R) _ _ Hdesc).
    intros b Hin. unfold find_elem.
    apply find_by_id; [exact HuR | now right].
  - intros d <-. unfold transform_misused_divs_into_paragraphs.
    fold (retag_divs (doc d)). fold (second_pass_nodes (doc d)).
    now destruct (fold_left split_div _ _).
Qed.

Lemma second_pass_nodes_captured_witness :
  unique_ids mixed_div = true
  /\ findall "div" mixed_div = [2; 3]
  /\ second_pass_nodes mixed_div
     = filter (still_div (retag_divs mixed_div)) (findall "div" mixed_div)
  /\ second_pass_nodes mixed_div = [2].
Proof.
  split; [reflexivity|]. split; [reflexivity|].
  split; [|reflexivity].
  exact (proj1 (second_pass_nodes_captured mixed_div eq_refl)).
Defined.

(** C8, as stated, fails: the only div of [lone_div] holds nothing but
    text, the first pass retags it, and the second pass, whose list is
    taken afterwards, does not walk it: its text is not wrapped. *)
Lemma retagged_div_is_not_walked :
  findall "div" lone_div = [2]
  /\ second_pass_nodes lone_div = []
  /\ second_pass_nodes lone_div <> findall "div" lone_div
  /\ doc (transform_misused_divs_into_paragraphs
            (mkDocument lone_div 25 250 3))
     = Element 0 "html" [] None None
         [Element 1 "body" [] None None
            [Element 2 "p" [] (Some "hello") None []]].
Proof.
  repeat split. discriminate.
Qed.

(* ===================================================================== *)
(** * Sample runs *)
(* ===================================================================== *)

Example clean_attributes_strips_all :
  clean_attributes "<td bgcolor=#fff width=3 id=x>x</td>" = "<td id=x>x</td>".
Proof. reflexivity. Qed.

(** The alternative [on*] only matches an o followed by n's, so an event
    handler stays while the style goes. *)
Example clean_attributes_keeps_onclick :
  clean_attributes "<p onclick='f()' style='a'>" = "<p onclick='f()'>".
Proof. reflexivity. Qed.

Example link_density_one_anchor :
  (get_link_density one_anchor == 4 # 13)%Q.
Proof. reflexivity. Qed.

(** The body, marked with the identity readabilityBody, wins the
    selection in [two_siblings], and the first turn returns. *)
Example summary_two_siblings_turns :
  option_map snd (summary two_siblings) = Some 1
  /\ option_map fst
       (select_best_candidate (score_paragraphs (prepare true two_siblings)))
     = Some 1.
Proof. split; reflexivity. Qed.

Example summary_no_paragraph_turns :
  option_map snd (summary no_paragraph) = Some 2.
Proof. reflexivity. Qed.

(* ===================================================================== *)
(** * Further properties: weights and scores *)
(* ===================================================================== *)






(* ===================================================================== *)
(** * Further properties: the selection *)
(* ===================================================================== *)

(** The head of the sorted list, read off the list itself. *)
Lemma sorted_desc_head (x : nat * Q) (l : list (nat * Q)) :
  hd_error (sorted_desc (x :: l))
  = match hd_error (sorted_desc l) with
    | None => Some x
    | Some y => if Qle_bool (snd y) (snd x) then Some x else Some y
    end.
Proof.
  unfold sorted_desc. cbn [fold_right].
  destruct (fold_right insert_desc [] l) as [|y l']; [reflexivity|].
  cbn [insert_desc hd_error]. now destruct (Qle_bool (snd y) (snd x)).
Qed.

Lemma sorted_desc_nonempty (x : nat * Q) (l : list (nat * Q)) :
  hd_error (sorted_desc (x :: l)) <> None.
Proof.
  rewrite sorted_desc_head.
  destruct (hd_error (sorted_desc l)) as [y|]; [|discriminate].
  destruct (Qle_bool (snd y) (snd x)); discriminate.
Qed.

Lemma sorted_desc_head_spec (c : list (nat * Q)) (b : nat * Q) :
  hd_error (sorted_desc c) = Some b ->
  exists l1 l2,
    c = (l1 ++ b :: l2)%list
    /\ (forall x, In x l1 -> (snd x < snd b)%Q)
    /\ (forall x, In x l2 -> (snd x <= snd b)%Q).
Proof.
  revert b. induction c as [|x l IH]; intros b H; [discriminate|].
  rewrite sorted_desc_head in H.
  destruct (hd_error (sorted_desc l)) as [y|] eqn:Ey.
  - destruct (IH y eq_refl) as (m1 & m2 & Hl & H1 & H2).
    destruct (Qle_bool (snd y) (snd x)) eqn:E.
    + injection H as <-. apply Qle_bool_iff in E.
      exists [], l. split; [reflexivity|]. split; [intros z []|].
      intros z Hz. rewrite Hl in Hz. apply in_app_or in Hz as [Hz|[<-|Hz]].
      * apply Qlt_le_weak. eapply Qlt_le_trans; [apply (H1 z Hz) | exact E].
      * exact E.
      * eapply Qle_trans; [apply (H2 z Hz) | exact E].
    + injection H as <-.
      assert (Hlt : (snd x < snd y)%Q).
      { apply Qnot_le_lt. intros Hle. apply Qle_bool_iff in Hle. congruence. }
      exists (x :: m1), m2. split; [now rewrite Hl|]. split; [|exact H2].
      intros z [<-|Hz]; [exact Hlt | now apply H1].
  - injection H as <-.
    destruct l as [|y l]; [|now destruct (sorted_desc_nonempty y l)].
    exists [], []. split; [reflexivity|]. split; intros z [].
Qed.

(** X3. [select_best_candidate] reports no candidate exactly for the empty
    dictionary; otherwise it returns an entry of the dictionary with the
    highest score, and among the entries with that score the one inserted
    first: every entry before it has a strictly lower score, every entry
    after it a score that is not higher. *)
Theorem select_best_candidate_spec (c : candidates) :
  (select_best_candidate c = None <-> c = [])
  /\ forall b, select_best_candidate c = Some b ->
       exists l1 l2,
         c = (l1 ++ b :: l2)%list
         /\ (forall x, In x l1 -> (snd x < snd b)%Q)
         /\ (forall x, In x l2 -> (snd x <= snd b)%Q).
Proof.
  split.
  - destruct c as [|x l]; [split; reflexivity|].
    split; [|discriminate]. intros H. exfalso.
    exact (sorted_desc_nonempty x l H).
  - intros b H. destruct c as [|x l]; [discriminate|].
    now apply sorted_desc_head_spec.
Qed.

Lemma select_best_candidate_spec_witness :
  select_best_candidate tied_candidates = Some (8, (5 # 1)%Q)
  /\ exists l1 l2,
      tied_candidates = (l1 ++ (8, (5 # 1)%Q) :: l2)%list
      /\ (forall x, In x l1 -> (snd x < 5 # 1)%Q)
      /\ (forall x, In x l2 -> (snd x <= 5 # 1)%Q).
Proof.
  split; [reflexivity|].
  exact (proj2 (select_best_candidate_spec tied_candidates)
               (8, (5 # 1)%Q) eq_refl).
Defined.

(* ===================================================================== *)
(** * Further properties: the dictionary that scoring returns *)
(* ===================================================================== *)

Lemma keys_update i f c : map fst (cand_update i f c) = map fst c.
Proof.
  induction c as [|[k v] c IH]; simpl; [reflexivity|].
  destruct (Nat.eqb k i); simpl; [reflexivity | now rewrite IH].
Qed.

Lemma keys_insert i q c : map fst (cand_insert i q c) = (map fst c ++ [i])%list.
Proof. unfold cand_insert. now rewrite map_app. Qed.

Lemma cand_mem_keys j c : cand_mem j c = true <-> In j (map fst c).
Proof.
  induction c as [|[k v] c IH]; simpl; [split; [discriminate | tauto]|].
  rewrite orb_true_iff, Nat.eqb_eq, IH. tauto.
Qed.

Lemma nodup_snoc (l : list nat) (i : nat) :
  NoDup l -> ~ In i l -> NoDup (l ++ [i]).
Proof.
  intros Hl Hi. apply NoDup_app; [exact Hl | repeat constructor; intros [] |].
  intros x Hx [<-|[]]. contradiction.
Qed.

(** The list [ordered] holds the keys of the dictionary, each once. *)
Lemma not_mem_keys j c : cand_mem j c = false -> ~ In j (map fst c).
Proof.
  intros H Hin. apply cand_mem_keys in Hin. congruence.
Qed.

Lemma score_paragraph_keys d st x :
  snd st = map fst (fst st) -> NoDup (map fst (fst st)) ->
  snd (score_paragraph d st x) = map fst (fst (score_paragraph d st x))
  /\ NoDup (map fst (fst (score_paragraph d st x))).
Proof.
  intros Ho Hn. unfold score_paragraph.
  destruct (getparent (doc d) (eid x)) as [p|]; [|now split].
  destruct (Z.of_nat _ <? min_text_length d)%Z; [now split|].
  cbv zeta. destruct st as [c o]. cbn [fst snd] in *. subst o.
  destruct (cand_mem (eid p) c) eqn:E1;
    destruct (getparent (doc d) (eid p)) as [g|]; cbn [fst snd];
    try (destruct (cand_mem (eid g) _) eqn:E2; cbn [fst snd]);
    rewrite ?keys_update, ?keys_insert;
    (split; [reflexivity|]);
    try apply not_mem_keys in E1; try apply not_mem_keys in E2;
    rewrite ?keys_insert in *;
    repeat (apply nodup_snoc; try assumption); assumption.
Qed.

Lemma accumulate_scores_keys (d : Document) :
  snd (accumulate_scores d) = map fst (fst (accumulate_scores d))
  /\ NoDup (map fst (fst (accumulate_scores d))).
Proof.
  unfold accumulate_scores.
  assert (H : forall xs st,
             snd st = map fst (fst st) -> NoDup (map fst (fst st)) ->
             snd (fold_left (score_paragraph d) xs st)
             = map fst (fst (fold_left (score_paragraph d) xs st))
             /\ NoDup (map fst (fst (fold_left (score_paragraph d) xs st)))).
  { induction xs as [|x xs IH]; intros st Ho Hn; simpl; [now split|].
    destruct (score_paragraph_keys d st x Ho Hn) as [Ho' Hn'].
    now apply IH. }
  apply H; [reflexivity | constructor].
Qed.

Lemma scale_keys d l : forall c,
  map fst (fold_left (scale_by_density d) l c) = map fst c.
Proof.
  induction l as [|i l IH]; intros c; simpl; [reflexivity|].
  rewrite IH. unfold scale_by_density.
  destruct (find_elem (doc d) i); [apply keys_update | reflexivity].
Qed.

(** X4. The dictionary [score_paragraphs] returns has the keys of the
    first loop, in the same order, and no key twice: there is one
    candidate for an element at most. *)
Theorem score_paragraphs_keys (d : Document) :
  map fst (score_paragraphs d) = map fst (fst (accumulate_scores d))
  /\ NoDup (map fst (score_paragraphs d)).
Proof.
  unfold score_paragraphs.
  destruct (accumulate_scores_keys d) as [Ho Hn].
  destruct (accumulate_scores d) as [c ordered]. cbn [fst snd] in *.
  rewrite scale_keys. split; [reflexivity | exact Hn].
Qed.

Lemma scale_other d j l : forall c,
  ~ In j l ->
  cand_score j (fold_left (scale_by_density d) l c) = cand_score j c.
Proof.
  induction l as [|i l IH]; intros c Hj; simpl; [reflexivity|].
  rewrite IH by (intros H; apply Hj; now right).
  unfold scale_by_density. destruct (find_elem (doc d) i); [|reflexivity].
  rewrite cand_score_update.
  destruct (Nat.eqb_spec i j) as [->|_]; [|reflexivity].
  exfalso. apply Hj. now left.
Qed.

Lemma scale_once d j e l : forall c,
  find_elem (doc d) j = Some e -> NoDup l -> In j l -> cand_mem j c = true ->
  cand_score j (fold_left (scale_by_density d) l c)
  = (cand_score j c * (1 - get_link_density e))%Q.
Proof.
  induction l as [|i l IH]; intros c He Hn Hin Hm; [contradiction|].
  inversion Hn as [|i' l' Hi Hl]; subst. simpl.
  destruct (Nat.eq_dec i j) as [->|Hne].
  - rewrite scale_other by exact Hi.
    unfold scale_by_density. rewrite He, cand_score_update, Nat.eqb_refl, Hm.
    reflexivity.
  - destruct Hin as [Hin|Hin]; [contradiction|].
    rewrite (IH _ He Hl Hin).
    + unfold scale_by_density. destruct (find_elem (doc d) i); [|reflexivity].
      rewrite cand_score_update.
      destruct (Nat.eqb_spec i j); [contradiction | reflexivity].
    + unfold scale_by_density. destruct (find_elem (doc d) i); [|exact Hm].
      now rewrite cand_mem_update.
Qed.

(** X5. The score [score_paragraphs] returns for a candidate is the score
    accumulated by the first loop multiplied by one minus the link density
    of the element, and that scaling is applied exactly once, however many
    paragraphs the element was seen for. *)
Theorem score_paragraphs_scaled_once (d : Document) (j : nat) (e : element) :
  find_elem (doc d) j = Some e ->
  cand_mem j (fst (accumulate_scores d)) = true ->
  cand_score j (score_paragraphs d)
  = (cand_score j (fst (accumulate_scores d)) * (1 - get_link_density e))%Q.
Proof.
  intros He Hm. unfold score_paragraphs.
  destruct (accumulate_scores_keys d) as [Ho Hn].
  destruct (accumulate_scores d) as [c ordered]. cbn [fst snd] in *.
  subst ordered. apply scale_once; try assumption.
  now apply cand_mem_keys.
Qed.

Lemma score_paragraphs_scaled_once_witness :
  find_elem (doc two_siblings) 2
  = Some (Element 2 "div" [] None None
            [Element 3 "p" [] (Some sentence) None [];
             Element 4 "p" [] (Some sentence) None []])
  /\ cand_mem 2 (fst (accumulate_scores two_siblings)) = true
  /\ cand_score 2 (score_paragraphs two_siblings)
     = (cand_score 2 (fst (accumulate_scores two_siblings))
        * (1 - get_link_density
                 (Element 2 "div" [] None None
                    [Element 3 "p" [] (Some sentence) None [];
                     Element 4 "p" [] (Some sentence) None []])))%Q.
Proof.
  split; [reflexivity|]. split; [reflexivity|].
  exact (score_paragraphs_scaled_once two_siblings 2 _ eq_refl eq_refl).
Defined.

(* ===================================================================== *)
(** * Further properties: the assembled article *)
(* ===================================================================== *)

(** The loop of [get_article] only appends children to the new root. *)
Lemma get_article_root (f : element -> bool) (siblings : list element) :
  forall output root,
    fst (fold_left
           (fun (st : element * element) sibling =>
              if f sibling
              then (append sibling (fst st), detach (eid sibling) (snd st))
              else st)
           siblings (output, root))
    = set_children (echildren output ++ filter f siblings)%list output.
Proof.
  induction siblings as [|x l IH]; intros output root; simpl.
  - rewrite app_nil_r. now destruct output.
  - destruct (f x); [|apply IH].
    rewrite IH. unfold append. destruct output; simpl.
    now rewrite <- app_assoc.
Qed.

(** X6. The root [get_article] builds is a new div, with the identity that
    was free, without attributes, text or tail; and when the best
    candidate is an element of the document it is among the children of
    that root, whatever its score and its siblings are. *)
Theorem get_article_keeps_best (d : Document) (c : candidates)
        (best : nat * Q) (e : element) :
  find_elem (doc d) (fst best) = Some e ->
  let output := fst (get_article d c best) in
  (eid output = fresh d /\ etag output = "div" /\ eattrib output = []
   /\ etext output = None /\ etail output = None)
  /\ fresh (snd (get_article d c best)) = S (fresh d)
  /\ exists x, In x (echildren output) /\ eid x = fst best.
Proof.
  intros He output. unfold output, get_article.
  set (threshold := Qmax 10 (snd best * (2 # 10))).
  set (siblings := match getparent (doc d) (fst best) with
                   | Some parent => echildren parent
                   | None => match find_elem (doc d) (fst best) with
                             | Some e0 => [e0]
                             | None => []
                             end
                   end).
  pose proof (get_article_root (sibling_appended c best threshold) siblings
                (fragment_fromstring (fresh d) "div") (doc d)) as H.
  destruct (fold_left _ siblings _) as [out root]. cbn [fst snd] in *.
  subst out. cbn. split; [repeat split|]. split; [reflexivity|].
  assert (Hs : exists x, In x siblings /\ eid x = fst best).
  { unfold siblings. destruct (getparent (doc d) (fst best)) as [p|] eqn:Hp.
    - apply find_some in Hp as [_ Hp].
      apply existsb_exists in Hp as [x [Hx Hid]].
      apply Nat.eqb_eq in Hid. now exists x.
    - rewrite He. exists e. split; [now left|].
      apply find_some in He as [_ He]. now apply Nat.eqb_eq in He. }
  destruct Hs as [x [Hx Hid]]. exists x. split; [|exact Hid].
  apply filter_In. split; [exact Hx|].
  unfold sibling_appended. now rewrite Hid, Nat.eqb_refl.
Qed.

Lemma get_article_keeps_best_witness :
  let c := score_paragraphs two_siblings in
  find_elem (doc two_siblings) 2
  = Some (Element 2 "div" [] None None
            [Element 3 "p" [] (Some sentence) None [];
             Element 4 "p" [] (Some sentence) None []])
  /\ exists x,
      In x (echildren (fst (get_article two_siblings c (2, 0%Q))))
      /\ eid x = 2.
Proof.
  intros c. split; [reflexivity|].
  exact (proj2 (proj2 (get_article_keeps_best two_siblings c (2, 0%Q) _
                         eq_refl))).
Defined.

(* ===================================================================== *)
(** * Further properties: the attribute stripper *)
(* ===================================================================== *)

Lemma clean_attributes_loop_length :
  forall fuel html r,
    clean_attributes_loop fuel html = Some r ->
    String.length r <= String.length html.
Proof.
  induction fuel as [|fuel IH]; intros html r H; [discriminate|].
  simpl in H. destruct (Re.search HTMLSTRIP html) eqn:Hs.
  - apply IH in H.
    pose proof (sub_shrinks HTMLSTRIP HTMLSTRIP_repl
                  HTMLSTRIP_match_shrinks html Hs). lia.
  - injection H as <-. lia.
Qed.

Lemma clean_attributes_loop_changes :
  forall fuel html r,
    clean_attributes_loop fuel html = Some r ->
    Re.search HTMLSTRIP html = true ->
    String.length r < String.length html.
Proof.
  intros [|fuel] html r H Hs; [discriminate|].
  simpl in H. rewrite Hs in H. apply clean_attributes_loop_length in H.
  pose proof (sub_shrinks HTMLSTRIP HTMLSTRIP_repl
                HTMLSTRIP_match_shrinks html Hs). lia.
Qed.

(** The pattern starts with an opening bracket. *)
Lemma HTMLSTRIP_needs_bracket (s : string) :
  count_char "<"%char s = 0 -> Re.search HTMLSTRIP s = false.
Proof.
  induction s as [|c s IH]; intros H.
  - reflexivity.
  - simpl in H. destruct (Ascii.eqb c "<"%char) eqn:E; [discriminate|].
    cbn [Re.search]. unfold Re.match_here, HTMLSTRIP at 1.
    cbn [Re.rmatch]. rewrite Ascii.eqb_sym, E. now apply IH.
Qed.

(** X7. [clean_attributes] never lengthens a text; it returns the text
    unchanged exactly when the bad-attribute pattern is not found in it,
    and makes it strictly shorter otherwise; a text without an opening
    angle bracket is always returned unchanged. *)
Theorem clean_attributes_shortens (s : string) :
  String.length (clean_attributes s) <= String.length s
  /\ (clean_attributes s = s <-> Re.search HTMLSTRIP s = false)
  /\ (Re.search HTMLSTRIP s = true ->
      String.length (clean_attributes s) < String.length s)
  /\ (count_char "<"%char s = 0 -> clean_attributes s = s).
Proof.
  destruct (clean_attributes_spec s) as [Hr Hs].
  assert (Hno : Re.search HTMLSTRIP s = false -> clean_attributes s = s).
  { intros H. unfold clean_attributes. simpl. now rewrite H. }
  assert (Hlt : Re.search HTMLSTRIP s = true ->
                String.length (clean_attributes s) < String.length s).
  { intros H. exact (clean_attributes_loop_changes _ _ _ Hr H). }
  split; [exact (clean_attributes_loop_length _ _ _ Hr)|].
  split; [|split; [exact Hlt|]].
  - split; [|exact Hno]. intros H.
    destruct (Re.search HTMLSTRIP s) eqn:E; [|reflexivity].
    specialize (Hlt eq_refl). rewrite H in Hlt. lia.
  - intros H. apply Hno. now apply HTMLSTRIP_needs_bracket.
Qed.

Lemma clean_attributes_shortens_witness :
  (Re.search HTMLSTRIP "<td width=3>" = true
   /\ String.length (clean_attributes "<td width=3>")
      < String.length "<td width=3>")
  /\ (count_char "<"%char "width=3 style=x" = 0
      /\ clean_attributes "width=3 style=x" = "width=3 style=x").
Proof.
  split.
  - split; [reflexivity|].
    exact (proj1 (proj2 (proj2 (clean_attributes_shortens "<td width=3>")))
                 eq_refl).
  - split; [reflexivity|].
    exact (proj2 (proj2 (proj2 (clean_attributes_shortens "width=3 style=x")))
                 eq_refl).
Defined.

(** X8. Whatever the document, the text [summary] returns, like every
    text [get_clean_html] returns, holds no match of the bad-attribute
    pattern, so that stripping it again changes nothing. *)
Theorem summary_result_stripped (d : Document) :
  (Re.search HTMLSTRIP (get_clean_html d) = false
   /\ clean_attributes (get_clean_html d) = get_clean_html d)
  /\ exists r d' n,
      summary d = Some (r, d', n)
      /\ Re.search HTMLSTRIP r = false
      /\ clean_attributes r = r.
Proof.
  assert (H : forall d0 : Document,
             Re.search HTMLSTRIP (get_clean_html d0) = false
             /\ clean_attributes (get_clean_html d0) = get_clean_html d0).
  { intros d0. unfold get_clean_html.
    destruct (clean_attributes_spec (_tostring (doc d0))) as [_ Hs].
    split; [exact Hs|].
    unfold clean_attributes at 1. simpl. now rewrite Hs. }
  split; [apply H|].
  destruct (summary_loop_returns true d) as (r & d' & n & Hsum & _ & Hc & _).
  exists r, d', n. split; [exact Hsum|]. rewrite <- Hc. apply H.
Qed.

(* ===================================================================== *)
(** * Further properties: the detailed filter *)
(* ===================================================================== *)

Lemma collect_lengths_firstn (l : list element) :
  forall limit siblings,
    List.length siblings < limit ->
    collect_lengths limit siblings l
    = (siblings
       ++ firstn (limit - List.length siblings) (lengths_with_text l))%list.
Proof.
  unfold lengths_with_text.
  induction l as [|sib rest IH]; intros limit siblings Hlt; cbn [collect_lengths].
  - simpl. rewrite firstn_nil. now rewrite app_nil_r.
  - cbn [map filter]. destruct (text_length sib) as [|n] eqn:E.
    + simpl. now apply IH.
    + cbn [Nat.eqb negb]. rewrite length_app. cbn [List.length].
      destruct (limit <=? List.length siblings + 1)%nat eqn:El.
      * apply Nat.leb_le in El.
        replace (limit - List.length siblings) with 1 by lia.
        reflexivity.
      * apply Nat.leb_gt in El. rewrite IH by (rewrite length_app; simpl; lia).
        rewrite length_app. cbn [List.length].
        replace (limit - List.length siblings)
          with (S (limit - (List.length siblings + 1))) by lia.
        cbn [firstn]. now rewrite <- app_assoc.
Qed.

(** X9. The list the no-content rule sums up holds at most two numbers:
    the text length of the nearest following sibling that has text, then
    the text length of the nearest preceding sibling that has text. *)
Theorem neighbour_lengths_nearest (root : element) (i : nat) :
  neighbour_lengths root i
  = (firstn 1 (lengths_with_text (itersiblings root i))
     ++ firstn 1 (lengths_with_text (itersiblings_preceding root i)))%list
  /\ List.length (neighbour_lengths root i) <= 2.
Proof.
  assert (H : neighbour_lengths root i
              = (firstn 1 (lengths_with_text (itersiblings root i))
                 ++ firstn 1 (lengths_with_text
                                (itersiblings_preceding root i)))%list).
  { unfold neighbour_lengths.
    rewrite (collect_lengths_firstn _ 1 []) by (simpl; lia).
    cbn [app List.length]. rewrite Nat.sub_0_r.
    rewrite collect_lengths_firstn by lia.
    f_equal. f_equal. lia. }
  split; [exact H|].
  rewrite H, length_app.
  pose proof (firstn_le_length 1 (lengths_with_text (itersiblings root i))).
  pose proof (firstn_le_length 1
                (lengths_with_text (itersiblings_preceding root i))).
  lia.
Qed.

(** X10. The rule on list items compares the number of li descendants less
    100 with the number of paragraphs, so an element with at most 100 li
    descendants is never removed for having more list items than
    paragraphs; neither is an ol or ul element. *)
Theorem list_items_rule_threshold (d : Document) (root : element) (i : nat)
        (elem : element) :
  List.length (findall "li" elem) <= 100
  \/ etag elem = "ol" \/ etag elem = "ul" ->
  filter_decision d root i elem <> Remove MoreLiThanP.
Proof.
  intros H. unfold filter_decision, detailed_filter.
  assert (Hrule : (count_p (count_kinds elem) <? count_li (count_kinds elem))%Z
                  && negb (mem (etag elem) ["ol"; "ul"]) = false).
  { destruct H as [H|[H|H]].
    - apply andb_false_intro1. apply Z.ltb_ge.
      unfold count_kinds, count_kind. cbn [count_p count_li]. lia.
    - apply andb_false_intro2. rewrite H. reflexivity.
    - apply andb_false_intro2. rewrite H. reflexivity. }
  rewrite Hrule.
  repeat match goal with
         | |- context [if ?b then _ else _] => destruct b
         end;
    try discriminate.
  all: destruct (neighbour_lengths root i); try discriminate.
  all: destruct (1000 <? _)%nat; discriminate.
Qed.

Lemma list_items_rule_threshold_witness :
  List.length (findall "li" gallery_inner) <= 100
  /\ filter_decision gallery_doc gallery 21 gallery_inner <> Remove MoreLiThanP.
Proof.
  assert (H : List.length (findall "li" gallery_inner) <= 100)
    by (vm_compute; lia).
  split; [exact H|].
  exact (list_items_rule_threshold gallery_doc gallery 21 gallery_inner
           (or_introl H)).
Defined.

(** X11. The escape of the no-content rule, which keeps an element and
    puts its descendants on the allow-list, is only taken for an element
    without text whose neighbours' text lengths add up to more than 1000;
    and unless [min_text_length] is zero or negative, only for an element
    with exactly one or two images, since the rules on short content
    remove the others before. *)
Theorem allow_escape_reach (d : Document) (root : element) (i : nat)
        (elem : element) :
  filter_decision d root i elem = KeepAndAllow ->
  text_length elem = 0
  /\ 1000 < sum_nat (neighbour_lengths root i)
  /\ ((min_text_length d <= 0)%Z
      \/ List.length (findall "img" elem) = 1
      \/ List.length (findall "img" elem) = 2).
Proof.
  unfold filter_decision, detailed_filter.
  destruct (negb _ && Qltb _ _); [discriminate|].
  destruct (_ && negb (mem _ _)); [discriminate|].
  destruct (Qltb _ _); [discriminate|].
  destruct ((Z.of_nat (text_length elem) <? min_text_length d)%Z
            && (count_img (count_kinds elem) =? 0)%Z) eqn:R4; [discriminate|].
  destruct ((Z.of_nat (text_length elem) <? min_text_length d)%Z
            && (2 <? count_img (count_kinds elem))%Z) eqn:R5; [discriminate|].
  destruct (_ && Qltb (2 # 10) _); [discriminate|].
  destruct (_ && Qltb (1 # 2) _); [discriminate|].
  destruct (_ || _); [discriminate|].
  destruct (text_length elem =? 0)%nat eqn:R9; [|discriminate].
  destruct (neighbour_lengths root i) as [|n l] eqn:En; [discriminate|].
  destruct (1000 <? sum_nat (n :: l))%nat eqn:Es; [|discriminate].
  intros _. apply Nat.eqb_eq in R9. apply Nat.ltb_lt in Es.
  split; [exact R9|]. split; [exact Es|].
  rewrite R9 in R4, R5. cbn [count_kinds count_img count_kind] in R4, R5.
  destruct (Z.of_nat 0 <? min_text_length d)%Z eqn:Em.
  - right. cbn [andb] in R4, R5.
    apply Z.eqb_neq in R4. apply Z.ltb_ge in R5.
    unfold count_kind in R4, R5. lia.
  - left. apply Z.ltb_ge in Em. simpl in Em. lia.
Qed.

Lemma allow_escape_reach_witness :
  filter_decision picture_doc picture 42 picture_inner = KeepAndAllow
  /\ text_length picture_inner = 0
  /\ 1000 < sum_nat (neighbour_lengths picture 42)
  /\ ((min_text_length picture_doc <= 0)%Z
      \/ List.length (findall "img" picture_inner) = 1
      \/ List.length (findall "img" picture_inner) = 2).
Proof.
  assert (H : filter_decision picture_doc picture 42 picture_inner
              = KeepAndAllow) by reflexivity.
  split; [exact H|].
  exact (allow_escape_reach picture_doc picture 42 picture_inner H).
Defined.

(** X12. An element that reaches the detailed filter with a link density
    above 0.5, or with more than one embed descendant, is removed,
    whatever its weight and its other measures are. *)
Theorem linky_or_embeds_removed (min_len : Z) (tag : string) (weight : Z)
        (n : counts) (content_length : nat) (link_density : Q)
        (siblings : list nat) :
  (1 # 2 < link_density)%Q \/ (1 < count_embed n)%Z ->
  exists r,
    detailed_filter min_len tag weight n content_length link_density siblings
    = Remove r.
Proof.
  intros H. unfold detailed_filter.
  destruct (negb _ && Qltb _ _); [eauto|].
  destruct (_ && negb (mem _ _)); [eauto|].
  destruct (Qltb _ _); [eauto|].
  destruct (_ && (count_img n =? 0)%Z); [eauto|].
  destruct (_ && (2 <? count_img n)%Z); [eauto|].
  destruct H as [H|H].
  - assert (H5 : Qltb (1 # 2) link_density = true) by (now apply Qltb_lt).
    assert (H2 : Qltb (2 # 10) link_density = true).
    { apply Qltb_lt. eapply Qlt_trans; [|exact H]. reflexivity. }
    rewrite H5, H2, !andb_true_r.
    destruct (weight <? 25)%Z eqn:E; [eauto|].
    apply Z.ltb_ge in E. apply Z.leb_le in E. rewrite E. eauto.
  - destruct (_ && Qltb (2 # 10) _); [eauto|].
    destruct (_ && Qltb (1 # 2) _); [eauto|].
    apply Z.ltb_lt in H. rewrite H, orb_true_r. eauto.
Qed.

Lemma linky_or_embeds_removed_witness :
  (1 # 2 < 3 # 4)%Q
  /\ exists r,
      detailed_filter 25 "div" 30 (mkCounts 2 0 (-100) 3 0 0) 120 (3 # 4) []
      = Remove r.
Proof.
  assert (H : (1 # 2 < 3 # 4)%Q) by reflexivity.
  split; [exact H|].
  exact (linky_or_embeds_removed 25 "div" 30 (mkCounts 2 0 (-100) 3 0 0)
           120 (3 # 4) [] (or_introl H)).
Defined.

(* ===================================================================== *)
(** * Further properties: removing elements *)
(* ===================================================================== *)

Lemma sub_list_refl {A : Type} (l : list A) : sub_list l l.
Proof. induction l; [apply sub_nil | now apply sub_keep]. Qed.

Lemma sub_list_nil {A : Type} (l : list A) : sub_list [] l.
Proof. induction l; [apply sub_nil | now apply sub_skip]. Qed.

Lemma sub_list_trans {A : Type} (l1 l2 l3 : list A) :
  sub_list l1 l2 -> sub_list l2 l3 -> sub_list l1 l3.
Proof.
  intros H12 H23. revert l1 H12.
  induction H23 as [|x l2 l3 H IH|x l2 l3 H IH]; intros l1 H12.
  - exact H12.
  - constructor. now apply IH.
  - inversion H12; subst.
    + apply sub_skip. now apply IH.
    + apply sub_keep. now apply IH.
Qed.

Lemma sub_list_app {A : Type} (a a' b b' : list A) :
  sub_list a a' -> sub_list b b' -> sub_list (a ++ b) (a' ++ b').
Proof.
  intros Ha Hb. induction Ha; simpl;
    [exact Hb | now apply sub_skip | now apply sub_keep].
Qed.

Lemma sub_list_In {A : Type} (l1 l2 : list A) (x : A) :
  sub_list l1 l2 -> In x l1 -> In x l2.
Proof.
  induction 1 as [|y l1 l2 H IH|y l1 l2 H IH]; intros Hin.
  - exact Hin.
  - right. now apply IH.
  - destruct Hin as [->|Hin]; [now left | right; now apply IH].
Qed.

Lemma sub_list_map {A B : Type} (f : A -> B) (l1 l2 : list A) :
  sub_list l1 l2 -> sub_list (map f l1) (map f l2).
Proof.
  induction 1; simpl;
    [apply sub_nil | now apply sub_skip | now apply sub_keep].
Qed.

Lemma sub_list_NoDup {A : Type} (l1 l2 : list A) :
  sub_list l1 l2 -> NoDup l2 -> NoDup l1.
Proof.
  induction 1 as [|y l1 l2 H IH|y l1 l2 H IH]; intros Hn.
  - exact Hn.
  - inversion Hn; subst. now apply IH.
  - inversion Hn as [|y' l' Hy Hl]; subst. constructor; [|now apply IH].
    intros Hin. apply Hy. exact (sub_list_In _ _ _ H Hin).
Qed.

Lemma labels_children i t a x y cs :
  labels (Element i t a x y cs) = blocks cs.
Proof.
  unfold labels, blocks. cbn [descendants].
  induction cs as [|c cs IH]; [reflexivity|].
  cbn [flat_map]. rewrite map_app, IH. reflexivity.
Qed.

Lemma blocks_app (a b : list element) :
  blocks (a ++ b) = (blocks a ++ blocks b)%list.
Proof. unfold blocks. apply flat_map_app. Qed.

Lemma blocks_cons (c : element) (cs : list element) :
  blocks (c :: cs) = (label c :: labels c ++ blocks cs)%list.
Proof. reflexivity. Qed.

Lemma label_set_tail y e :
  label (set_tail y e) = label e /\ labels (set_tail y e) = labels e.
Proof. now destruct e. Qed.

Lemma label_set_text x e :
  label (set_text x e) = label e /\ labels (set_text x e) = labels e.
Proof. now destruct e. Qed.

Lemma sub_list_skip_app {A : Type} (pre l : list A) : sub_list l (pre ++ l).
Proof.
  induction pre; simpl; [apply sub_list_refl | now apply sub_skip].
Qed.

(** Dropping a child among the siblings after [prev]: the labels of the
    child and of what lies below it go, the others stay. *)
Lemma drop_after_blocks (i : nat) (cs : list element) :
  forall prev,
    existsb (fun c => Nat.eqb (eid c) i) cs = true ->
    exists pre c post,
      cs = (pre ++ c :: post)%list /\ eid c = i
      /\ blocks (drop_after prev i cs)
         = (label prev :: labels prev ++ blocks pre ++ blocks post)%list.
Proof.
  induction cs as [|c0 rest IH]; intros prev H; [discriminate|].
  cbn [existsb drop_after] in *.
  destruct (Nat.eqb (eid c0) i) eqn:E.
  - apply Nat.eqb_eq in E. exists [], c0, rest.
    split; [reflexivity|]. split; [exact E|].
    rewrite blocks_cons.
    destruct (label_set_tail (join_text (etail prev) (etail c0)) prev)
      as [-> ->].
    reflexivity.
  - simpl in H. destruct (IH c0 H) as (pre & c & post & -> & Hc & Hb).
    exists (c0 :: pre), c, post. split; [reflexivity|]. split; [exact Hc|].
    rewrite blocks_cons, Hb, (blocks_cons c0 pre).
    simpl. now rewrite <- !app_assoc.
Qed.

Lemma drop_child_blocks (i : nat) (x : option string) (cs : list element) :
  existsb (fun c => Nat.eqb (eid c) i) cs = true ->
  exists pre c post,
    cs = (pre ++ c :: post)%list /\ eid c = i
    /\ blocks (snd (drop_child i x cs)) = (blocks pre ++ blocks post)%list.
Proof.
  destruct cs as [|c0 rest]; intros H; [discriminate|].
  cbn [existsb drop_child] in *.
  destruct (Nat.eqb (eid c0) i) eqn:E.
  - apply Nat.eqb_eq in E. exists [], c0, rest. now repeat split.
  - simpl in H. destruct (drop_after_blocks i rest c0 H)
      as (pre & c & post & -> & Hc & Hb).
    exists (c0 :: pre), c, post. split; [reflexivity|]. split; [exact Hc|].
    cbn [snd]. rewrite Hb, (blocks_cons c0 pre).
    simpl. now rewrite <- !app_assoc.
Qed.

Lemma label_drop_tree (i : nat) (e : element) :
  label (drop_tree i e) = label e.
Proof.
  destruct e as [j t a x y cs]. cbn [drop_tree].
  destruct (existsb _ cs); [|reflexivity].
  now destruct (drop_child i x cs).
Qed.

(** [drop_tree] only takes elements away. *)
Lemma drop_tree_labels (i : nat) (e : element) :
  sub_list (labels (drop_tree i e)) (labels e).
Proof.
  induction e as [j t a x y cs IH] using element_induction.
  cbn [drop_tree]. destruct (existsb _ cs) eqn:E.
  - destruct (drop_child_blocks i x cs E) as (pre & c & post & Hcs & _ & Hb).
    destruct (drop_child i x cs) as [x' cs']. cbn [snd] in Hb.
    rewrite !labels_children, Hb, Hcs, blocks_app, blocks_cons.
    apply sub_list_app; [apply sub_list_refl|].
    apply (sub_list_skip_app (label c :: labels c)).
  - rewrite !labels_children. clear E.
    induction cs as [|c cs IHcs]; [apply sub_nil|].
    inversion IH as [|c' cs' Hc Hcs]; subst.
    cbn [map]. rewrite !blocks_cons, label_drop_tree.
    apply sub_keep. apply sub_list_app; [exact Hc | now apply IHcs].
Qed.

(** Among elements with distinct identities, the dropped element is
    gone. *)
Lemma drop_tree_removes (i : nat) (e : element) :
  NoDup (map lid (labels e)) ->
  ~ In i (map lid (labels (drop_tree i e))).
Proof.
  induction e as [j t a x y cs IH] using element_induction.
  intros Hn. cbn [drop_tree]. destruct (existsb _ cs) eqn:E.
  - destruct (drop_child_blocks i x cs E) as (pre & c & post & Hcs & Hc & Hb).
    destruct (drop_child i x cs) as [x' cs']. cbn [snd] in Hb.
    rewrite labels_children in *. rewrite Hb.
    rewrite Hcs, blocks_app, blocks_cons, map_app in Hn. cbn [map] in Hn.
    change (lid (label c)) with (eid c) in Hn. rewrite Hc in Hn.
    apply NoDup_remove_2 in Hn. intros Hin. apply Hn.
    rewrite map_app in *. apply in_app_or in Hin as [Hin|Hin].
    + apply in_or_app. now left.
    + apply in_or_app. right. apply in_or_app. now right.
  - rewrite labels_children in *.
    induction cs as [|c cs IHcs]; [intros []|].
    inversion IH as [|c' cs' Hc Hcs]; subst.
    cbn [existsb] in E. apply orb_false_iff in E as [Ec Ecs].
    rewrite blocks_cons in Hn. cbn [map] in Hn. rewrite map_app in Hn.
    inversion Hn as [|h tl Hh Htl]; subst.
    cbn [map]. rewrite blocks_cons, label_drop_tree. cbn [map].
    rewrite map_app. intros [Hin|Hin].
    + change (lid (label c)) with (eid c) in Hin.
      apply Nat.eqb_neq in Ec. contradiction.
    + apply in_app_or in Hin as [Hin|Hin].
      * exact (Hc (NoDup_app_remove_r _ _ Htl) Hin).
      * exact (IHcs Hcs (NoDup_app_remove_l _ _ Htl) Ecs Hin).
Qed.

Lemma only_removes_refl (r : element) : only_removes r r.
Proof. split; [reflexivity | apply sub_list_refl]. Qed.

Lemma only_removes_trans (a b c : element) :
  only_removes a b -> only_removes b c -> only_removes a c.
Proof.
  intros [L1 S1] [L2 S2]. split; [congruence|].
  exact (sub_list_trans _ _ _ S2 S1).
Qed.

Lemma only_removes_drop_tree (i : nat) (r : element) :
  only_removes r (drop_tree i r).
Proof. split; [apply label_drop_tree | apply drop_tree_labels]. Qed.

(** Writing a text changes no label. *)
Lemma update_set_text_labels (i : nat) (x : option string) (e : element) :
  label (update i (set_text x) e) = label e
  /\ labels (update i (set_text x) e) = labels e.
Proof.
  induction e as [j t a tx ty cs IH] using element_induction.
  cbn [update eid]. destruct (Nat.eqb j i); [now split|].
  split; [reflexivity|]. rewrite !labels_children.
  induction cs as [|c cs IHcs]; [reflexivity|].
  inversion IH as [|c' cs' [Hl Hls] Hcs]; subst.
  cbn [map]. rewrite !blocks_cons, Hl, Hls. now rewrite (IHcs Hcs).
Qed.

Lemma only_removes_set_text (i : nat) (x : option string) (r : element) :
  only_removes r (update i (set_text x) r).
Proof.
  destruct (update_set_text_labels i x r) as [Hl Hls].
  split; [exact Hl | rewrite Hls; apply sub_list_refl].
Qed.

(** A loop over tags whose body only removes elements only removes
    elements. *)
Lemma for_tags_only_removes {S : Type} (node_of : S -> element)
      (order : list nat -> list nat) (body : nat -> S -> S) :
  (forall i st, only_removes (node_of st) (node_of (body i st))) ->
  forall tag_names st,
    only_removes (node_of st)
                 (node_of (for_tags node_of order tag_names body st)).
Proof.
  intros Hbody.
  assert (Hfold : forall l st,
             only_removes (node_of st)
               (node_of (fold_left (fun st i => body i st) l st))).
  { induction l as [|i l IH]; intros st; simpl; [apply only_removes_refl|].
    eapply only_removes_trans; [apply Hbody | apply IH]. }
  unfold for_tags.
  induction tag_names as [|t ts IH]; intros st; simpl;
    [apply only_removes_refl|].
  eapply only_removes_trans; [apply Hfold | apply IH].
Qed.

Lemma sanitize_header_only_removes (i : nat) (r : element) :
  only_removes r (sanitize_header i r).
Proof.
  unfold sanitize_header. destruct (find_elem r i); [|apply only_removes_refl].
  destruct (_ || _); [apply only_removes_drop_tree | apply only_removes_refl].
Qed.

Lemma sanitize_iframe_only_removes (i : nat) (r : element) :
  only_removes r (sanitize_iframe i r).
Proof.
  unfold sanitize_iframe. destruct (find_elem r i); [|apply only_removes_refl].
  destruct (get "src" _); [|apply only_removes_drop_tree].
  destruct (Re.search _ _);
    [apply only_removes_set_text | apply only_removes_drop_tree].
Qed.

Lemma clean_conditionally_only_removes d c (i : nat) (st : cleaning) :
  only_removes (node st) (node (clean_conditionally d c i st)).
Proof.
  unfold clean_conditionally.
  destruct (existsb _ _); [apply only_removes_refl|].
  destruct (find_elem (node st) i); [|apply only_removes_refl].
  destruct (Qltb _ 0); [apply only_removes_drop_tree|].
  destruct (_ <? 10)%nat; [|apply only_removes_refl].
  destruct (filter_decision _ _ _ _);
    [apply only_removes_drop_tree | apply only_removes_refl
     | apply only_removes_refl].
Qed.

(** The phases of [sanitize], named. *)
Lemma sanitize_tree_phases d article c :
  exists r1 r2 r3,
    r1 = for_tags (fun r => r) in_order ["h1"; "h2"; "h3"; "h4"; "h5"; "h6"]
                  sanitize_header article
    /\ r2 = for_tags (fun r => r) in_order ["form"; "textarea"] drop_tree r1
    /\ r3 = for_tags (fun r => r) in_order ["iframe"] sanitize_iframe r2
    /\ only_removes article r1 /\ only_removes r1 r2 /\ only_removes r2 r3
    /\ only_removes r3 (node (sanitize_tree d article c)).
Proof.
  eexists. eexists. eexists.
  split; [reflexivity|]. split; [reflexivity|]. split; [reflexivity|].
  split; [apply (for_tags_only_removes (fun r => r));
          apply sanitize_header_only_removes|].
  split; [apply (for_tags_only_removes (fun r => r));
          intros; apply only_removes_drop_tree|].
  split; [apply (for_tags_only_removes (fun r => r));
          apply sanitize_iframe_only_removes|].
  unfold sanitize_tree.
  apply (for_tags_only_removes node (@rev nat) (clean_conditionally d c)
           (clean_conditionally_only_removes d c)
           CLEANED_TAGS (mkCleaning _ [] [])).
Qed.

Lemma sanitize_doc d article c :
  doc (snd (sanitize d article c)) = node (sanitize_tree d article c).
Proof. reflexivity. Qed.

(** X13. The sanitizer only takes elements away: the root it leaves has
    the identity, tag and attributes of the node it was given, and the
    elements below it are elements of that node, in their original
    document order, each with its identity, tag and attributes
    unchanged. *)
Theorem sanitize_only_removes (d : Document) (article : element)
        (c : candidates) :
  label (doc (snd (sanitize d article c))) = label article
  /\ sub_list (labels (doc (snd (sanitize d article c)))) (labels article).
Proof.
  rewrite sanitize_doc.
  destruct (sanitize_tree_phases d article c)
    as (r1 & r2 & r3 & _ & _ & _ & H1 & H2 & H3 & H4).
  exact (only_removes_trans _ _ _
           (only_removes_trans _ _ _
              (only_removes_trans _ _ _ H1 H2) H3) H4).
Qed.

Lemma distinct_NoDup (l : list nat) : distinct l = true -> NoDup l.
Proof.
  induction l as [|x l IH]; simpl; intros H; [constructor|].
  apply andb_prop in H as [Hx Hl]. constructor; [|now apply IH].
  intros Hin. apply negb_true_iff in Hx.
  assert (existsb (Nat.eqb x) l = true) as Hc
    by (apply existsb_exists; exists x; split;
        [exact Hin | apply Nat.eqb_refl]).
  congruence.
Qed.

Lemma unique_ids_tree_ids (r : element) :
  unique_ids r = true -> NoDup (tree_ids r).
Proof.
  intros H. apply distinct_NoDup in H. unfold tree_ids, labels.
  rewrite map_map. exact H.
Qed.

Lemma only_removes_tree_ids (old new : element) :
  only_removes old new -> NoDup (tree_ids old) -> NoDup (tree_ids new).
Proof.
  intros [Hl Hs] Hn. unfold tree_ids in *.
  assert (Hid : eid new = eid old)
    by (change (lid (label new) = lid (label old)); now rewrite Hl).
  rewrite Hid. apply (sub_list_NoDup _ (eid old :: map lid (labels old)));
    [|exact Hn].
  apply sub_keep. now apply sub_list_map.
Qed.

Lemma tree_ids_descendants (r : element) :
  NoDup (tree_ids r) -> NoDup (map lid (labels r)).
Proof. intros H. now inversion H. Qed.

(** A loop that drops the listed elements leaves none of them. *)
Lemma drop_all_removes (ids : list nat) :
  forall r,
    NoDup (map lid (labels r)) ->
    forall i, In i ids ->
      ~ In i (map lid (labels (fold_left (fun st i => drop_tree i st) ids r))).
Proof.
  induction ids as [|k ids IH]; intros r Hn i Hin; [contradiction|].
  cbn [fold_left].
  assert (Hn' : NoDup (map lid (labels (drop_tree k r)))).
  { apply (sub_list_NoDup _ (map lid (labels r))); [|exact Hn].
    apply sub_list_map. apply drop_tree_labels. }
  assert (Hrest : only_removes (drop_tree k r)
                    (fold_left (fun st i => drop_tree i st) ids
                               (drop_tree k r))).
  { clear. generalize (drop_tree k r) as r0.
    induction ids as [|i ids IH]; intros r0; simpl;
      [apply only_removes_refl|].
    eapply only_removes_trans; [apply only_removes_drop_tree | apply IH]. }
  destruct Hin as [->|Hin].
  - intros Hi. apply (drop_tree_removes i r Hn).
    destruct Hrest as [_ Hs].
    exact (sub_list_In _ _ _ (sub_list_map lid _ _ Hs) Hi).
  - now apply IH.
Qed.

Lemma label_in_findall (r : element) (l : nat * string * list (string * string)) :
  In l (labels r) -> In (lid l) (findall (ltag l) r).
Proof.
  unfold labels, findall. intros H.
  apply in_map_iff in H as [x [<- Hx]].
  apply in_map_iff. exists x. split; [reflexivity|].
  apply filter_In. split; [exact Hx | apply String.eqb_refl].
Qed.

(** A loop that drops every element with one of the tag names leaves no
    element with any of them. *)
Lemma drop_tags_clears (names : list string) :
  forall (done : list string) (r : element),
    NoDup (map lid (labels r)) ->
    (forall l, In l (labels r) -> ~ In (ltag l) done) ->
    forall l,
      In l (labels (for_tags (fun r => r) in_order names drop_tree r)) ->
      ~ In (ltag l) (done ++ names).
Proof.
  unfold for_tags, in_order.
  induction names as [|t names IH]; intros done r Hn Hdone l Hl.
  - rewrite app_nil_r. now apply Hdone.
  - cbn [fold_left] in Hl.
    set (r' := fold_left (fun st i => drop_tree i st) (findall t r) r) in *.
    assert (Hrem : only_removes r r').
    { unfold r'. generalize (findall t r) as ids. clear.
      intros ids. revert r.
      induction ids as [|i ids IH]; intros r; simpl;
        [apply only_removes_refl|].
      eapply only_removes_trans; [apply only_removes_drop_tree | apply IH]. }
    destruct Hrem as [_ Hs].
    assert (Hn' : NoDup (map lid (labels r')))
      by (apply (sub_list_NoDup _ (map lid (labels r)));
          [now apply sub_list_map | exact Hn]).
    assert (Hdone' : forall l0, In l0 (labels r') ->
                                ~ In (ltag l0) (done ++ [t])).
    { intros l0 Hl0 Hin. apply in_app_or in Hin as [Hin|[Ht|[]]].
      - exact (Hdone l0 (sub_list_In _ _ _ Hs Hl0) Hin).
      - assert (Hid : In (lid l0) (findall t r)).
        { rewrite Ht. apply label_in_findall.
          exact (sub_list_In _ _ _ Hs Hl0). }
        apply (drop_all_removes (findall t r) r Hn (lid l0) Hid).
        fold r'. now apply in_map. }
    replace (done ++ t :: names)%list with ((done ++ [t]) ++ names)%list
      by (now rewrite <- app_assoc).
    exact (IH (done ++ [t])%list r' Hn' Hdone' l Hl).
Qed.

Lemma drop_tags_clears_all (names : list string) (r : element) :
  NoDup (map lid (labels r)) ->
  forall l,
    In l (labels (for_tags (fun r => r) in_order names drop_tree r)) ->
    ~ In (ltag l) names.
Proof.
  intros Hn l Hl.
  pose proof (drop_tags_clears names [] r Hn) as H. simpl in H.
  apply H; [|exact Hl].
  intros l0 _ [].
Qed.

(** X14. When the elements of the node have distinct identities, the
    node [sanitize] leaves holds no form and no textarea element. *)
Theorem sanitize_drops_forms (d : Document) (article : element)
        (c : candidates) :
  unique_ids article = true ->
  forall x, In x (descendants (doc (snd (sanitize d article c)))) ->
            etag x <> "form" /\ etag x <> "textarea".
Proof.
  intros Hu x Hx. rewrite sanitize_doc in Hx.
  destruct (sanitize_tree_phases d article c)
    as (r1 & r2 & r3 & _ & E2 & _ & H1 & H2 & H3 & H4).
  assert (Hn1 : NoDup (map lid (labels r1))).
  { apply tree_ids_descendants.
    exact (only_removes_tree_ids _ _ H1 (unique_ids_tree_ids _ Hu)). }
  assert (Hl : In (label x) (labels r2)).
  { destruct (only_removes_trans _ _ _ H3 H4) as [_ Hs].
    apply (sub_list_In _ _ _ Hs). unfold labels. apply in_map. exact Hx. }
  rewrite E2 in Hl.
  pose proof (drop_tags_clears_all ["form"; "textarea"] r1 Hn1 (label x) Hl)
    as Hno.
  change (ltag (label x)) with (etag x) in Hno.
  split; intros Ht; apply Hno; rewrite Ht;
    [left | right; left]; reflexivity.
Qed.

Lemma sanitize_drops_forms_witness :
  unique_ids with_form = true
  /\ In (Element 53 "p" [] (Some sentence) None [])
        (descendants (doc (snd (sanitize gallery_doc with_form []))))
  /\ etag (Element 53 "p" [] (Some sentence) None []) <> "form".
Proof.
  assert (Hu : unique_ids with_form = true) by reflexivity.
  assert (Hx : In (Element 53 "p" [] (Some sentence) None [])
                  (descendants (doc (snd (sanitize gallery_doc with_form [])))))
    by (vm_compute; left; reflexivity).
  split; [exact Hu|]. split; [exact Hx|].
  exact (proj1 (sanitize_drops_forms gallery_doc with_form [] Hu _ Hx)).
Defined.

Lemma NoDup_distinct (l : list nat) : NoDup l -> distinct l = true.
Proof.
  induction 1 as [|x l Hx Hl IH]; simpl; [reflexivity|].
  rewrite IH, andb_true_r. apply negb_true_iff.
  destruct (existsb (Nat.eqb x) l) eqn:E; [|reflexivity].
  apply existsb_exists in E as [y [Hy Hxy]].
  apply Nat.eqb_eq in Hxy. subst y. contradiction.
Qed.

(** In a tree with distinct identities a label leads to its element. *)
Lemma find_elem_label (r : element) (l : nat * string * list (string * string)) :
  NoDup (tree_ids r) -> In l (labels r) ->
  exists e, find_elem r (lid l) = Some e /\ label e = l.
Proof.
  intros Hn Hl. unfold labels in Hl.
  apply in_map_iff in Hl as [x [<- Hx]]. exists x. split; [|reflexivity].
  unfold find_elem. change (lid (label x)) with (eid x).
  apply find_by_id; [|now right].
  apply NoDup_distinct. unfold tree_ids, labels in Hn.
  rewrite map_map in Hn. exact Hn.
Qed.

Lemma find_elem_none (r : element) (i : nat) :
  find_elem r i = None -> ~ In i (map lid (labels r)).
Proof.
  unfold find_elem, labels. intros H Hin. rewrite map_map in Hin.
  apply in_map_iff in Hin as [x [Hid Hx]].
  pose proof (find_none _ _ H x (or_intror Hx)) as Hf. cbn beta in Hf.
  change (lid (label x)) with (eid x) in Hid.
  rewrite Hid, Nat.eqb_refl in Hf. discriminate.
Qed.

(** The loop over the iframes keeps the ones whose source is a video. *)
Lemma iframe_loop_keeps_videos (ids : list nat) :
  forall r,
    NoDup (tree_ids r) ->
    (forall l, In l (labels r) -> ltag l = "iframe" ->
               In (lid l) ids \/ video_source (lattrib l)) ->
    forall l,
      In l (labels (fold_left (fun st i => sanitize_iframe i st) ids r)) ->
      ltag l = "iframe" -> video_source (lattrib l).
Proof.
  induction ids as [|k ids IH]; intros r Hn Hinv l Hl Ht.
  - destruct (Hinv l Hl Ht) as [[]|Hv]. exact Hv.
  - cbn [fold_left] in Hl.
    apply (IH (sanitize_iframe k r)); [| |exact Hl|exact Ht].
    + exact (only_removes_tree_ids _ _ (sanitize_iframe_only_removes k r) Hn).
    + clear l Hl Ht. intros l Hl Ht. unfold sanitize_iframe in Hl.
      destruct (find_elem r k) as [elem|] eqn:Ef.
      * assert (Hkeep :
                 In l (labels r) ->
                 video_source (eattrib elem) ->
                 In (lid l) ids \/ video_source (lattrib l)).
        { intros Hlr Hv. destruct (Hinv l Hlr Ht) as [[Hk|Hi]|Hv'];
            [|now left|now right].
          right. destruct (find_elem_label r l Hn Hlr) as [e [He Hle]].
          rewrite <- Hk, Ef in He. injection He as <-. now rewrite <- Hle. }
        assert (Hdrop :
                 In l (labels (drop_tree k r)) ->
                 In (lid l) ids \/ video_source (lattrib l)).
        { intros Hld.
          pose proof (sub_list_In _ _ _ (drop_tree_labels k r) Hld) as Hlr.
          destruct (Hinv l Hlr Ht) as [[Hk|Hi]|Hv'];
            [|now left|now right].
          exfalso.
          apply (drop_tree_removes k r (tree_ids_descendants _ Hn)).
          apply in_map_iff. exists l. split; [now symmetry | exact Hld]. }
        destruct (get "src" (eattrib elem)) as [src|] eqn:Es;
          [|now apply Hdrop].
        destruct (Re.search videoRe src) eqn:Ev; [|now apply Hdrop].
        destruct (update_set_text_labels k (Some "VIDEO") r) as [_ Hls].
        rewrite Hls in Hl. apply (Hkeep Hl).
        exists src. split; assumption.
      * destruct (Hinv l Hl Ht) as [[Hk|Hi]|Hv'];
          [|now left|now right].
        exfalso. apply (find_elem_none r k Ef).
        apply in_map_iff. exists l. split; [now symmetry | exact Hl].
Qed.

Lemma for_tags_single (t : string) (body : nat -> element -> element)
      (r : element) :
  for_tags (fun r => r) in_order [t] body r
  = fold_left (fun st i => body i st) (findall t r) r.
Proof. reflexivity. Qed.

(** X15. When the elements of the node have distinct identities, every
    iframe element that [sanitize] leaves has a src attribute accepted by
    the video pattern; the other iframes are gone. *)
Theorem sanitize_keeps_video_iframes (d : Document) (article : element)
        (c : candidates) :
  unique_ids article = true ->
  forall x, In x (descendants (doc (snd (sanitize d article c)))) ->
            etag x = "iframe" ->
            exists src, get "src" (eattrib x) = Some src
                        /\ Re.search videoRe src = true.
Proof.
  intros Hu x Hx Ht. rewrite sanitize_doc in Hx.
  destruct (sanitize_tree_phases d article c)
    as (r1 & r2 & r3 & _ & _ & E3 & H1 & H2 & H3 & H4).
  assert (Hn2 : NoDup (tree_ids r2)).
  { apply (only_removes_tree_ids _ _ (only_removes_trans _ _ _ H1 H2)).
    exact (unique_ids_tree_ids _ Hu). }
  assert (Hl : In (label x) (labels r3)).
  { destruct H4 as [_ Hs]. apply (sub_list_In _ _ _ Hs).
    unfold labels. apply in_map. exact Hx. }
  rewrite E3, for_tags_single in Hl.
  pose proof (iframe_loop_keeps_videos (findall "iframe" r2) r2 Hn2) as Hloop.
  assert (Hinit : forall l, In l (labels r2) -> ltag l = "iframe" ->
                            In (lid l) (findall "iframe" r2)
                            \/ video_source (lattrib l)).
  { intros l Hlr Hlt. left. rewrite <- Hlt. apply label_in_findall.
    exact Hlr. }
  specialize (Hloop Hinit (label x) Hl Ht).
  exact Hloop.
Qed.

Lemma sanitize_keeps_video_iframes_witness :
  let x := Element 61 "iframe" [("src", "https://www.youtube.com/embed/x")]
                   (Some "VIDEO") None [] in
  unique_ids with_iframes = true
  /\ findall "iframe" (doc (snd (sanitize gallery_doc with_iframes []))) = [61]
  /\ In x (descendants (doc (snd (sanitize gallery_doc with_iframes []))))
  /\ exists src, get "src" (eattrib x) = Some src
                 /\ Re.search videoRe src = true.
Proof.
  intros x.
  assert (Hu : unique_ids with_iframes = true) by reflexivity.
  assert (Hx : In x (descendants
                       (doc (snd (sanitize gallery_doc with_iframes [])))))
    by (vm_compute; left; reflexivity).
  split; [exact Hu|]. split; [reflexivity|]. split; [exact Hx|].
  exact (sanitize_keeps_video_iframes gallery_doc with_iframes [] Hu x Hx
           eq_refl).
Defined.

(* ===================================================================== *)
(** * Further properties: the tags of the tree that [summary] leaves *)
(* ===================================================================== *)

Lemma all_tags_children i t a x y cs :
  all_tags (Element i t a x y cs) = t :: flat_map all_tags cs.
Proof.
  unfold all_tags, self_and_descendants. cbn [map etag descendants].
  f_equal. induction cs as [|c cs IH]; [reflexivity|].
  cbn [flat_map]. rewrite map_app, IH. reflexivity.
Qed.

Lemma all_tags_labels (r : element) :
  all_tags r = ltag (label r) :: map ltag (labels r).
Proof.
  unfold all_tags, self_and_descendants, labels. cbn [map].
  now rewrite map_map.
Qed.

Lemma tags_from_refl (r : element) : tags_from r r.
Proof. intros t Ht. right. right. exact Ht. Qed.

Lemma tags_from_trans (a b c : element) :
  tags_from a b -> tags_from b c -> tags_from a c.
Proof.
  intros Hab Hbc t Ht. destruct (Hbc t Ht) as [H|[H|H]].
  - left. exact H.
  - right. left. exact H.
  - exact (Hab t H).
Qed.

Lemma only_removes_tags_from (old new : element) :
  only_removes old new -> tags_from old new.
Proof.
  intros [Hl Hs] t Ht. right. right.
  rewrite all_tags_labels in *. rewrite Hl in Ht.
  destruct Ht as [Ht|Ht]; [left; exact Ht | right].
  exact (sub_list_In _ _ _ (sub_list_map ltag _ _ Hs) Ht).
Qed.

(** A change made to one element that brings no new tag brings none to
    the tree. *)
Lemma update_tags_from (i : nat) (f : element -> element) :
  (forall e, tags_from e (f e)) ->
  forall r, tags_from r (update i f r).
Proof.
  intros Hf r.
  induction r as [j t a x y cs IH] using element_induction.
  cbn [update eid]. destruct (Nat.eqb j i); [apply Hf|].
  intros t0 Ht0. rewrite all_tags_children in *.
  destruct Ht0 as [Ht0|Ht0]; [right; right; left; exact Ht0|].
  apply in_flat_map in Ht0 as [c' [Hc' Ht0]].
  apply in_map_iff in Hc' as [c [<- Hc]].
  rewrite Forall_forall in IH.
  destruct (IH c Hc t0 Ht0) as [H|[H|H]];
    [left; exact H | right; left; exact H |].
  right. right. right. apply in_flat_map. exists c. split; assumption.
Qed.

Lemma set_tag_p_tags (e : element) : tags_from e (set_tag "p" e).
Proof.
  destruct e as [j t a x y cs]. intros t0 Ht0. cbn [set_tag] in Ht0.
  rewrite all_tags_children in *.
  destruct Ht0 as [Ht0|Ht0]; [left; now symmetry|].
  right. right. right. exact Ht0.
Qed.

Lemma set_text_tags x (e : element) : tags_from e (set_text x e).
Proof. destruct e. intros t0 Ht0. right. right. exact Ht0. Qed.

Lemma set_tail_tags y (e : element) : tags_from e (set_tail y e).
Proof. destruct e. intros t0 Ht0. right. right. exact Ht0. Qed.

Lemma set_attrib_tags a (e : element) : tags_from e (set_attrib a e).
Proof. destruct e. intros t0 Ht0. right. right. exact Ht0. Qed.

Lemma in_insert_at {A : Type} (pos : nat) (x y : A) (l : list A) :
  In y (insert_at pos x l) -> y = x \/ In y l.
Proof.
  revert l. induction pos as [|n IH]; intros l H.
  - destruct l; simpl in H; destruct H as [H|H]; auto.
  - destruct l as [|z l]; simpl in H.
    + destruct H as [H|[]]. left. now symmetry.
    + destruct H as [H|H]; [right; left; exact H|].
      destruct (IH l H) as [Hx|Hl]; [left; exact Hx | right; right; exact Hl].
Qed.

(** Inserting a new, empty paragraph among the children. *)
Lemma insert_paragraph_tags (pos n : nat) (x x' : option string) (e : element) :
  tags_from e
    (set_children
       (insert_at pos (set_text x (fragment_fromstring n "p")) (echildren e))
       (set_text x' e)).
Proof.
  destruct e as [j t a tx ty cs]. intros t0 Ht0.
  cbn [set_text set_children echildren] in Ht0.
  rewrite all_tags_children in *.
  destruct Ht0 as [Ht0|Ht0]; [right; right; left; exact Ht0|].
  apply in_flat_map in Ht0 as [c [Hc Ht0]].
  apply in_insert_at in Hc as [->|Hc].
  - left. cbn in Ht0. destruct Ht0 as [Ht0|[]]. now symmetry.
  - right. right. right. apply in_flat_map. exists c. split; assumption.
Qed.

Lemma insert_paragraph_after_tags (pos n : nat) (x : option string)
      (e : element) :
  tags_from e
    (set_children
       (insert_at pos (set_text x (fragment_fromstring n "p")) (echildren e))
       e).
Proof.
  destruct e as [j t a tx ty cs].
  exact (insert_paragraph_tags pos n x tx (Element j t a tx ty cs)).
Qed.

Lemma drop_tree_tags (i : nat) (r : element) : tags_from r (drop_tree i r).
Proof. apply only_removes_tags_from. apply only_removes_drop_tree. Qed.

Lemma wrap_leading_text_tags (i : nat) (st : element * nat) :
  tags_from (fst st) (fst (wrap_leading_text i st)).
Proof.
  unfold wrap_leading_text.
  destruct (find_elem (fst st) i) as [elem|]; [|apply tags_from_refl].
  destruct (etext elem) as [x|]; [|apply tags_from_refl].
  destruct (is_blank x); [apply tags_from_refl|].
  cbn [fst]. apply update_tags_from. intros e.
  apply insert_paragraph_tags.
Qed.

Lemma wrap_tail_tags (i : nat) (st : element * nat) (pc : nat * nat) :
  tags_from (fst st) (fst (wrap_tail i st pc)).
Proof.
  unfold wrap_tail. destruct pc as [pos child_ref].
  destruct (find_elem (fst st) child_ref) as [child|];
    [|apply tags_from_refl].
  set (st' := if truthy (etail child)
                 && negb (is_blank (or_empty (etail child)))
              then _ else st).
  assert (H : tags_from (fst st) (fst st')).
  { unfold st'. destruct (_ && _); [|apply tags_from_refl].
    cbn [fst].
    eapply tags_from_trans.
    - apply (update_tags_from child_ref (set_tail None)).
      intros e. apply set_tail_tags.
    - apply update_tags_from. intros e. apply insert_paragraph_after_tags. }
  clearbody st'.
  destruct (String.eqb (etag child) "br"); [|exact H].
  cbn [fst]. eapply tags_from_trans; [exact H | apply drop_tree_tags].
Qed.

Lemma fold_tags_from {A : Type} (step : element * nat -> A -> element * nat) :
  (forall st a, tags_from (fst st) (fst (step st a))) ->
  forall l st, tags_from (fst st) (fst (fold_left step l st)).
Proof.
  intros Hstep. induction l as [|a l IH]; intros st; simpl;
    [apply tags_from_refl|].
  eapply tags_from_trans; [apply Hstep | apply IH].
Qed.

Lemma fold_tree_tags_from {A : Type} (step : element -> A -> element) :
  (forall r a, tags_from r (step r a)) ->
  forall l r, tags_from r (fold_left step l r).
Proof.
  intros Hstep. induction l as [|a l IH]; intros r; simpl;
    [apply tags_from_refl|].
  eapply tags_from_trans; [apply Hstep | apply IH].
Qed.

Lemma split_div_tags (st : element * nat) (i : nat) :
  tags_from (fst st) (fst (split_div st i)).
Proof.
  unfold split_div.
  pose proof (wrap_leading_text_tags i st) as H1.
  destruct (find_elem (fst (wrap_leading_text i st)) i) as [elem|];
    [|exact H1].
  eapply tags_from_trans; [exact H1|].
  apply fold_tags_from. intros st0 pc. apply wrap_tail_tags.
Qed.

Lemma retag_div_tags (r : element) (i : nat) : tags_from r (retag_div r i).
Proof.
  unfold retag_div. destruct (find_elem r i); [|apply tags_from_refl].
  destruct (Re.search _ _); [apply tags_from_refl|].
  apply update_tags_from. apply set_tag_p_tags.
Qed.

Lemma transform_tags (d : Document) :
  tags_from (doc d) (doc (transform_misused_divs_into_paragraphs d)).
Proof.
  unfold transform_misused_divs_into_paragraphs.
  pose proof (fold_tree_tags_from retag_div retag_div_tags
                (findall "div" (doc d)) (doc d)) as H1.
  fold (retag_divs (doc d)) in *.
  pose proof (fold_tags_from split_div split_div_tags
                (findall "div" (retag_divs (doc d)))
                (retag_divs (doc d), fresh d)) as H2.
  destruct (fold_left split_div _ _) as [root n].
  cbn [fst doc] in *. exact (tags_from_trans _ _ _ H1 H2).
Qed.

Lemma remove_unlikely_tags (d : Document) :
  tags_from (doc d) (doc (remove_unlikely_candidates d)).
Proof.
  unfold remove_unlikely_candidates, with_doc. cbn [doc].
  apply fold_tree_tags_from. intros r i.
  destruct (find_elem r i) as [elem|]; [|apply tags_from_refl].
  destruct (is_unlikely elem); [apply drop_tree_tags | apply tags_from_refl].
Qed.

Lemma for_tags_tags_from (order : list nat -> list nat)
      (body : nat -> element -> element) :
  (forall i r, tags_from r (body i r)) ->
  forall tag_names r,
    tags_from r (for_tags (fun r => r) order tag_names body r).
Proof.
  intros Hbody. unfold for_tags.
  induction tag_names as [|t ts IH]; intros r; simpl;
    [apply tags_from_refl|].
  eapply tags_from_trans; [|apply IH].
  apply (fold_tree_tags_from (fun st i => body i st)).
  intros r0 i. apply Hbody.
Qed.

(** After the scripts and styles are dropped, the rest of the preparation
    brings no new tag but p. *)
Lemma prepare_tags (ruthless : bool) (d : Document) :
  tags_from
    (for_tags (fun r => r) in_order ["script"; "style"] drop_tree (doc d))
    (doc (prepare ruthless d)).
Proof.
  unfold prepare.
  set (d0 := with_doc d (for_tags (fun r => r) in_order ["script"; "style"]
                                  drop_tree (doc d))).
  change (for_tags (fun r => r) in_order ["script"; "style"] drop_tree (doc d))
    with (doc d0).
  set (d1 := with_doc d0 (for_tags (fun r => r) in_order ["body"]
                                   mark_body (doc d0))).
  assert (H1 : tags_from (doc d0) (doc d1)).
  { unfold d1, with_doc. cbn [doc]. apply for_tags_tags_from.
    intros i r. unfold mark_body. apply update_tags_from.
    intros e. apply set_attrib_tags. }
  clearbody d1. clearbody d0.
  eapply tags_from_trans; [|apply transform_tags].
  destruct ruthless; [|exact H1].
  eapply tags_from_trans; [exact H1 | apply remove_unlikely_tags].
Qed.

Lemma child_in_descendants (e c : element) :
  In c (echildren e) -> In c (descendants e).
Proof.
  destruct e as [j t a x y cs]. cbn [echildren descendants]. intros Hc.
  apply in_flat_map. exists c. split; [exact Hc | left; reflexivity].
Qed.

Lemma subtree_trans (r x y : element) :
  In x (self_and_descendants r) -> In y (self_and_descendants x) ->
  In y (self_and_descendants r).
Proof.
  unfold self_and_descendants. intros [<- | Hx] Hy; [exact Hy|].
  destruct Hy as [<- | Hy]; [right; exact Hx|].
  right. exact (descendants_trans r x y Hx Hy).
Qed.

(** The tags of a part of a tree are tags of the tree. *)
Lemma subtree_tags (r x : element) :
  In x (self_and_descendants r) ->
  forall t, In t (all_tags x) -> In t (all_tags r).
Proof.
  intros Hx t Ht. unfold all_tags in *.
  apply in_map_iff in Ht as [y [<- Hy]].
  apply in_map. exact (subtree_trans r x y Hx Hy).
Qed.

Lemma subtree_tags_from (r x : element) :
  In x (self_and_descendants r) -> tags_from r x.
Proof.
  intros Hx t Ht. right. right. exact (subtree_tags r x Hx t Ht).
Qed.

(** The node that [get_article] builds is a new div over elements of the
    document. *)
Lemma get_article_tags (d : Document) (c : candidates) (best : nat * Q) :
  tags_from (doc d) (fst (get_article d c best)).
Proof.
  unfold get_article. cbv zeta.
  set (siblings := match getparent (doc d) (fst best) with
                   | Some parent => echildren parent
                   | None => match find_elem (doc d) (fst best) with
                             | Some e => [e]
                             | None => []
                             end
                   end).
  assert (Hs : forall s, In s siblings ->
                         In s (self_and_descendants (doc d))).
  { intros s Hin. unfold siblings in Hin.
    destruct (getparent (doc d) (fst best)) as [parent|] eqn:Ep.
    - unfold getparent in Ep. apply find_some in Ep as [Hp _].
      apply (subtree_trans (doc d) parent s Hp).
      right. exact (child_in_descendants parent s Hin).
    - destruct (find_elem (doc d) (fst best)) as [e|] eqn:Ee;
        [|destruct Hin].
      destruct Hin as [<- | []].
      unfold find_elem in Ee. apply find_some in Ee as [He _]. exact He. }
  clearbody siblings.
  set (f := sibling_appended c best _).
  pose proof (get_article_root f siblings
                (fragment_fromstring (fresh d) "div") (doc d)) as Hr.
  destruct (fold_left _ siblings _) as [output root].
  cbn [fst] in *. rewrite Hr. unfold fragment_fromstring.
  cbn [set_children echildren app].
  intros t Ht. rewrite all_tags_children in Ht.
  destruct Ht as [<- | Ht]; [right; left; reflexivity|].
  apply in_flat_map in Ht as [s [Hin Ht]].
  apply filter_In in Hin as [Hin _].
  right. right. exact (subtree_tags (doc d) s (Hs s Hin) t Ht).
Qed.

Lemma fallback_article_tags (d : Document) :
  tags_from (doc d) (fallback_article d).
Proof.
  unfold fallback_article.
  destruct (find_child "body" (doc d)) as [article|] eqn:E;
    [|apply tags_from_refl].
  unfold find_child in E. apply find_some in E as [Hin _].
  apply subtree_tags_from. right.
  exact (child_in_descendants (doc d) article Hin).
Qed.

Lemma sanitize_tree_tags (d : Document) (article : element) (c : candidates) :
  tags_from article (node (sanitize_tree d article c)).
Proof.
  destruct (sanitize_tree_phases d article c)
    as (r1 & r2 & r3 & _ & _ & _ & H1 & H2 & H3 & H4).
  apply only_removes_tags_from.
  exact (only_removes_trans _ _ _ H1
           (only_removes_trans _ _ _ H2
              (only_removes_trans _ _ _ H3 H4))).
Qed.

(** However the turn ends, the document it leaves is the sanitized node. *)
Lemma clean_and_decide_doc (ruthless : bool) (d : Document)
      (article : element) (c : candidates) :
  doc (outcome_doc (clean_and_decide ruthless d article c))
  = node (sanitize_tree d article c).
Proof.
  unfold clean_and_decide.
  pose proof (sanitize_doc d article c) as H.
  destruct (sanitize d article c) as [cleaned d2]. cbn [snd] in H.
  destruct (ruthless && _); cbn [outcome_doc]; exact H.
Qed.

(** One turn: the tags of the document it leaves are tags the document
    had once its scripts and styles were dropped, or else p or div. *)
Lemma summary_iteration_tags (ruthless : bool) (d : Document) :
  tags_from
    (for_tags (fun r => r) in_order ["script"; "style"] drop_tree (doc d))
    (doc (outcome_doc (summary_iteration ruthless d))).
Proof.
  pose proof (prepare_tags ruthless d) as Hp.
  unfold summary_iteration. cbv zeta.
  set (d1 := prepare ruthless d) in *. clearbody d1.
  set (c := score_paragraphs d1). clearbody c.
  destruct (select_best_candidate c) as [best|].
  - pose proof (get_article_tags d1 c best) as Ha.
    destruct (get_article d1 c best) as [article d2]. cbn [fst] in Ha.
    rewrite clean_and_decide_doc.
    exact (tags_from_trans _ _ _ Hp
             (tags_from_trans _ _ _ Ha (sanitize_tree_tags d2 article c))).
  - destruct ruthless; [exact Hp|].
    rewrite clean_and_decide_doc.
    exact (tags_from_trans _ _ _ Hp
             (tags_from_trans _ _ _ (fallback_article_tags d1)
                (sanitize_tree_tags d1 (fallback_article d1) c))).
Qed.

Lemma tags_from_no_script (old new : element) :
  tags_from old new -> no_script old -> no_script new.
Proof.
  intros Hf Hn t Ht. destruct (Hf t Ht) as [-> | [-> | H]].
  - split; discriminate.
  - split; discriminate.
  - exact (Hn t H).
Qed.

Lemma drop_scripts_tags (r : element) :
  tags_from r
    (for_tags (fun r => r) in_order ["script"; "style"] drop_tree r).
Proof. apply for_tags_tags_from. intros i r0. apply drop_tree_tags. Qed.

(** The first loop of a turn leaves no script and no style element below
    a root that is neither. *)
Lemma drop_scripts_no_script (r : element) :
  unique_ids r = true -> etag r <> "script" -> etag r <> "style" ->
  no_script (for_tags (fun r => r) in_order ["script"; "style"] drop_tree r).
Proof.
  intros Hu H1 H2 t Ht.
  pose proof (for_tags_only_removes (fun r => r) in_order drop_tree
                (fun i r0 => only_removes_drop_tree i r0)
                ["script"; "style"] r) as [Hl _].
  pose proof (drop_tags_clears_all ["script"; "style"] r
                (tree_ids_descendants r (unique_ids_tree_ids r Hu))) as Hc.
  rewrite all_tags_labels in Ht. rewrite Hl in Ht.
  destruct Ht as [<- | Ht].
  - split; [exact H1 | exact H2].
  - apply in_map_iff in Ht as [l [<- Hin]].
    specialize (Hc l Hin).
    split; intros E; apply Hc; rewrite E;
      [left; reflexivity | right; left; reflexivity].
Qed.

(** [summary] returns, and the document it leaves has only tags that the
    document had after the first loop of the first turn, or else p or
    div. *)
Lemma summary_tags (d : Document) :
  exists r d' n,
    summary d = Some (r, d', n)
    /\ tags_from
         (for_tags (fun r => r) in_order ["script"; "style"] drop_tree (doc d))
         (doc d').
Proof.
  unfold summary.
  pose proof (summary_iteration_tags true d) as H1.
  destruct (summary_iteration true d) as [b d1 | r d1] eqn:E1.
  - pose proof (summary_iteration_retry _ _ _ _ E1) as ->.
    pose proof (summary_iteration_tags false d1) as H2.
    destruct (summary_iteration_lenient d1) as [r [d2 E2]].
    rewrite E2 in H2. cbn [outcome_doc] in H1, H2.
    exists r, d2, 2. split.
    + cbn [summary_loop]. rewrite E1, E2. reflexivity.
    + exact (tags_from_trans _ _ _ H1
               (tags_from_trans _ _ _ (drop_scripts_tags (doc d1)) H2)).
  - cbn [outcome_doc] in H1. exists r, d1, 1. split.
    + cbn [summary_loop]. rewrite E1. reflexivity.
    + exact H1.
Qed.

(** X16. [summary] returns a result, and the tree it leaves as the
    document holds no script and no style element, whatever the number of
    turns: every element of it has a tag that some element of the document
    had at the start, or else is a p or a div, the two tags the program
    gives to the elements it creates or retags.  The elements of the
    document have distinct identities and its root is itself neither a
    script nor a style element. *)
Theorem summary_leaves_no_script (d : Document) :
  unique_ids (doc d) = true ->
  etag (doc d) <> "script" -> etag (doc d) <> "style" ->
  exists r d' n,
    summary d = Some (r, d', n)
    /\ forall x,
         In x (self_and_descendants (doc d')) ->
         etag x <> "script" /\ etag x <> "style"
         /\ (etag x = "p" \/ etag x = "div"
             \/ exists y, In y (self_and_descendants (doc d))
                          /\ etag y = etag x).
Proof.
  intros Hu H1 H2.
  destruct (summary_tags d) as (r & d' & n & Es & Ht).
  exists r, d', n. split; [exact Es|].
  intros x Hx.
  assert (Hin : In (etag x) (all_tags (doc d')))
    by (unfold all_tags; apply in_map; exact Hx).
  pose proof (tags_from_no_script _ _ Ht
                (drop_scripts_no_script (doc d) Hu H1 H2) (etag x) Hin)
    as [Hs1 Hs2].
  split; [exact Hs1|]. split; [exact Hs2|].
  destruct (tags_from_trans _ _ _ (drop_scripts_tags (doc d)) Ht (etag x) Hin)
    as [H | [H | H]].
  - left. exact H.
  - right. left. exact H.
  - right. right. unfold all_tags in H.
    apply in_map_iff in H as [y [Ey Hy]]. exists y. split; assumption.
Qed.

Lemma summary_leaves_no_script_witness :
  unique_ids (doc with_script) = true
  /\ etag (doc with_script) <> "script"
  /\ etag (doc with_script) <> "style"
  /\ exists r d' n,
       summary with_script = Some (r, d', n)
       /\ forall x,
            In x (self_and_descendants (doc d')) ->
            etag x <> "script" /\ etag x <> "style"
            /\ (etag x = "p" \/ etag x = "div"
                \/ exists y, In y (self_and_descendants (doc with_script))
                             /\ etag y = etag x).
Proof.
  assert (Hu : unique_ids (doc with_script) = true) by reflexivity.
  assert (H1 : etag (doc with_script) <> "script") by discriminate.
  assert (H2 : etag (doc with_script) <> "style") by discriminate.
  split; [exact Hu|]. split; [exact H1|]. split; [exact H2|].
  exact (summary_leaves_no_script with_script Hu H1 H2).
Defined.


(* ===================================================================== *)
(** * Further properties: the unlikely candidates *)
(* ===================================================================== *)

(** Whether an element is an unlikely candidate is read off its tag and
    its attributes. *)
Lemma is_unlikely_label (e e' : element) :
  label e = label e' -> is_unlikely e = is_unlikely e'.
Proof.
  destruct e as [j t a x y cs], e' as [j' t' a' x' y' cs'].
  unfold label. cbn [eid etag eattrib]. intros H.
  injection H as _ -> ->. reflexivity.
Qed.

(** The loop of [remove_unlikely_candidates] leaves no element that it
    visits and finds unlikely. *)
Lemma unlikely_loop_clears (ids : list nat) :
  forall r,
    NoDup (tree_ids r) ->
    (forall x, In x (descendants r) ->
               In (eid x) ids \/ is_unlikely x = false) ->
    forall x,
      In x (descendants
              (fold_left
                 (fun root i =>
                    match find_elem root i with
                    | Some elem =>
                        if is_unlikely elem then drop_tree i root else root
                    | None => root
                    end) ids r)) ->
      is_unlikely x = false.
Proof.
  induction ids as [|k ids IH]; intros r Hn Hinv x Hx.
  - destruct (Hinv x Hx) as [[]|H]. exact H.
  - cbn [fold_left] in Hx.
    destruct (find_elem r k) as [elem|] eqn:Ef.
    + destruct (is_unlikely elem) eqn:Eu.
      * apply (IH (drop_tree k r)); [| |exact Hx].
        -- exact (only_removes_tree_ids _ _ (only_removes_drop_tree k r) Hn).
        -- clear x Hx. intros x Hx.
           assert (Hl : In (label x) (labels r)).
           { apply (sub_list_In _ _ _ (drop_tree_labels k r)).
             unfold labels. apply in_map. exact Hx. }
           unfold labels in Hl. apply in_map_iff in Hl as [x0 [El Hx0]].
           destruct (Hinv x0 Hx0) as [[Hk|Hi]|Hf].
           ++ exfalso.
              apply (drop_tree_removes k r (tree_ids_descendants _ Hn)).
              apply in_map_iff. exists (label x). split.
              ** change (eid x = k).
                 rewrite Hk.
                 change (lid (label x) = lid (label x0)). now rewrite El.
              ** unfold labels. apply in_map. exact Hx.
           ++ left.
              assert (Eid : eid x = eid x0)
                by (change (lid (label x) = lid (label x0)); now rewrite El).
              rewrite Eid. exact Hi.
           ++ right. rewrite <- Hf. apply is_unlikely_label.
              now symmetry.
      * apply (IH r Hn); [|exact Hx].
        clear x Hx. intros x Hx.
        destruct (Hinv x Hx) as [[Hk|Hi]|Hf];
          [|left; exact Hi|right; exact Hf].
        right.
        assert (Hl : In (label x) (labels r))
          by (unfold labels; apply in_map; exact Hx).
        destruct (find_elem_label r (label x) Hn Hl) as [e [He Hle]].
        change (lid (label x)) with (eid x) in He.
        rewrite <- Hk, Ef in He. injection He as <-.
        rewrite <- Eu. apply is_unlikely_label. now symmetry.
    + apply (IH r Hn); [|exact Hx].
      clear x Hx. intros x Hx.
      destruct (Hinv x Hx) as [[Hk|Hi]|Hf];
        [|left; exact Hi|right; exact Hf].
      exfalso. apply (find_elem_none r k Ef).
      apply in_map_iff. exists (label x). split.
      * change (eid x = k). now symmetry.
      * unfold labels. apply in_map. exact Hx.
Qed.

(** With no unlikely element below the root the loop changes nothing. *)
Lemma unlikely_loop_idle (r : element) :
  (forall x, In x (descendants r) -> is_unlikely x = false) ->
  forall ids,
    (forall k, In k ids -> k <> eid r) ->
    fold_left
      (fun root i =>
         match find_elem root i with
         | Some elem => if is_unlikely elem then drop_tree i root else root
         | None => root
         end) ids r = r.
Proof.
  intros Hf. induction ids as [|k ids IH]; intros Hk; [reflexivity|].
  cbn [fold_left].
  destruct (find_elem r k) as [elem|] eqn:Ef.
  - assert (Hu : is_unlikely elem = false).
    { unfold find_elem in Ef. cbn [find] in Ef.
      destruct (Nat.eqb (eid r) k) eqn:Ek.
      - exfalso. apply Nat.eqb_eq in Ek.
        apply (Hk k (or_introl eq_refl)). now symmetry.
      - apply find_some in Ef as [Hin _]. exact (Hf elem Hin). }
    rewrite Hu. apply IH. intros k0 Hk0. apply Hk. right. exact Hk0.
  - apply IH. intros k0 Hk0. apply Hk. right. exact Hk0.
Qed.

Lemma only_removes_unlikely (d : Document) :
  only_removes (doc d) (doc (remove_unlikely_candidates d)).
Proof.
  unfold remove_unlikely_candidates, with_doc. cbn [doc].
  generalize (findall_any (doc d)). generalize (doc d).
  intros r ids. revert r.
  induction ids as [|k ids IH]; intros r; [apply only_removes_refl|].
  cbn [fold_left].
  eapply only_removes_trans; [|apply IH].
  destruct (find_elem r k) as [elem|]; [|apply only_removes_refl].
  destruct (is_unlikely elem);
    [apply only_removes_drop_tree | apply only_removes_refl].
Qed.

(** X17. [remove_unlikely_candidates] only takes elements away: the root
    keeps its identity, tag and attributes, and the elements below it are
    elements of the document, in document order, labelled as before.  When
    the elements have distinct identities, no element that it leaves below
    the root is an unlikely candidate, that is, has a class and id text of
    two characters or more that matches the pattern of the unlikely
    candidates and not the pattern of the possible candidates while its
    tag is neither html nor body; and a document with no such element
    below its root is left as it is. *)
Theorem remove_unlikely_candidates_spec (d : Document) :
  unique_ids (doc d) = true ->
  label (doc (remove_unlikely_candidates d)) = label (doc d)
  /\ sub_list (labels (doc (remove_unlikely_candidates d))) (labels (doc d))
  /\ (forall x, In x (descendants (doc (remove_unlikely_candidates d))) ->
                is_unlikely x = false)
  /\ ((forall x, In x (descendants (doc d)) -> is_unlikely x = false) ->
      remove_unlikely_candidates d = d).
Proof.
  intros Hu.
  destruct (only_removes_unlikely d) as [Hl Hs].
  split; [exact Hl|]. split; [exact Hs|].
  pose proof (unique_ids_tree_ids _ Hu) as Hn.
  split.
  - unfold remove_unlikely_candidates, with_doc. cbn [doc].
    apply (unlikely_loop_clears (findall_any (doc d)) (doc d) Hn).
    intros x Hx. left. unfold findall_any. apply in_map. exact Hx.
  - intros Hf. unfold remove_unlikely_candidates.
    rewrite (unlikely_loop_idle (doc d) Hf).
    + destruct d. reflexivity.
    + intros k Hk Ek. unfold tree_ids in Hn.
      inversion Hn as [|i l Hni _]. apply Hni.
      unfold findall_any in Hk. unfold labels. rewrite map_map.
      rewrite <- Ek. exact Hk.
Qed.

Lemma remove_unlikely_candidates_spec_witness :
  unique_ids (doc with_sidebar) = true
  /\ findall_any (doc (remove_unlikely_candidates with_sidebar)) = [1; 4; 5]
  /\ forall x,
       In x (descendants (doc (remove_unlikely_candidates with_sidebar))) ->
       is_unlikely x = false.
Proof.
  assert (Hu : unique_ids (doc with_sidebar) = true) by reflexivity.
  split; [exact Hu|]. split; [reflexivity|].
  exact (proj1 (proj2 (proj2 (remove_unlikely_candidates_spec with_sidebar
                                Hu)))).
Defined.


(* ===================================================================== *)
(** * Further properties: the divs after the normalization *)
(* ===================================================================== *)

(** ** Blank text *)

Lemma is_blank_all_space (s : string) : is_blank s = all_space s.
Proof.
  induction s as [|c s IH]; [reflexivity|].
  unfold is_blank, strip in *. cbn [lstrip all_space].
  destruct (is_space c) eqn:E; [exact IH|].
  cbn [rstrip andb]. destruct (rstrip s); rewrite ?E; reflexivity.
Qed.

Lemma all_space_app (a b : string) :
  all_space (a ++ b) = all_space a && all_space b.
Proof.
  induction a as [|c a IH]; [reflexivity|].
  simpl. rewrite IH. now rewrite andb_assoc.
Qed.

Lemma blank_join (old extra : option string) :
  blank_opt old = true -> blank_opt extra = true ->
  blank_opt (join_text old extra) = true.
Proof.
  unfold join_text. intros Ho He.
  destruct (truthy extra); [|exact Ho].
  cbn [blank_opt]. rewrite is_blank_all_space, all_space_app.
  destruct old as [o|], extra as [e|]; cbn [blank_opt or_empty] in *;
    rewrite ?is_blank_all_space in *; rewrite ?Ho, ?He; reflexivity.
Qed.

(** The test of the second loop fails on blank tails only. *)
Lemma not_wrapped_blank (y : option string) :
  truthy y && negb (is_blank (or_empty y)) = false -> blank_opt y = true.
Proof.
  destruct y as [[|c s]|]; cbn [truthy or_empty blank_opt andb];
    [reflexivity | | reflexivity].
  intros H. now apply negb_false_iff in H.
Qed.

(** ** The identities of a tree *)

Lemma sd_children i t a x y cs :
  self_and_descendants (Element i t a x y cs)
  = Element i t a x y cs :: flat_map self_and_descendants cs.
Proof. reflexivity. Qed.

Lemma ids_children i t a x y cs :
  elem_ids (Element i t a x y cs) = i :: flat_map elem_ids cs.
Proof.
  unfold elem_ids. rewrite sd_children. cbn [map eid]. f_equal.
  induction cs as [|c cs IH]; [reflexivity|].
  cbn [flat_map]. rewrite map_app, IH. reflexivity.
Qed.

Lemma ids_tree_ids (r : element) : tree_ids r = elem_ids r.
Proof.
  unfold tree_ids, elem_ids, labels, self_and_descendants. cbn [map].
  now rewrite map_map.
Qed.

Lemma unique_ids_NoDup (r : element) :
  unique_ids r = true -> NoDup (elem_ids r).
Proof. intros H. rewrite <- ids_tree_ids. now apply unique_ids_tree_ids. Qed.

Lemma self_in_sd (r : element) : In r (self_and_descendants r).
Proof. left. reflexivity. Qed.

Lemma child_in_sd (e c : element) :
  In c (echildren e) -> In c (self_and_descendants e).
Proof. intros H. right. now apply child_in_descendants. Qed.

Lemma sd_child_sd (r k x : element) :
  In k (echildren r) -> In x (self_and_descendants k) ->
  In x (self_and_descendants r).
Proof.
  intros Hk Hx. exact (subtree_trans r k x (child_in_sd r k Hk) Hx).
Qed.

Lemma in_sd_ids (r x : element) :
  In x (self_and_descendants r) -> In (eid x) (elem_ids r).
Proof. intros H. unfold elem_ids. now apply in_map. Qed.

Lemma NoDup_flat_map_piece {A B : Type} (f : A -> list B) (l : list A) (a : A) :
  NoDup (flat_map f l) -> In a l -> NoDup (f a).
Proof.
  induction l as [|b l IH]; intros Hn Hin; [destruct Hin|].
  cbn [flat_map] in Hn. destruct Hin as [-> | Hin].
  - exact (NoDup_app_remove_r _ _ Hn).
  - exact (IH (NoDup_app_remove_l _ _ Hn) Hin).
Qed.

Lemma NoDup_ids_child (r k : element) :
  NoDup (elem_ids r) -> In k (echildren r) -> NoDup (elem_ids k).
Proof.
  destruct r as [j t a x y cs]. rewrite ids_children. cbn [echildren].
  intros Hn Hk. inversion Hn as [|? ? _ Hn']; subst.
  exact (NoDup_flat_map_piece elem_ids cs k Hn' Hk).
Qed.

Lemma NoDup_ids_sd (r x : element) :
  NoDup (elem_ids r) -> In x (self_and_descendants r) -> NoDup (elem_ids x).
Proof.
  induction r as [j t a tx ty cs IH] using element_induction.
  intros Hn Hx. rewrite sd_children in Hx.
  destruct Hx as [<- | Hx]; [exact Hn|].
  apply in_flat_map in Hx as [k [Hk Hx]].
  rewrite Forall_forall in IH.
  exact (IH k Hk (NoDup_ids_child _ k Hn Hk) Hx).
Qed.

(** The identity of the root is not met again below it. *)
Lemma root_id_fresh (r x : element) :
  NoDup (elem_ids r) -> In x (descendants r) -> eid x <> eid r.
Proof.
  destruct r as [j t a tx ty cs]. intros Hn Hx E.
  unfold elem_ids, self_and_descendants in Hn. cbn [map eid] in Hn.
  inversion Hn as [|? ? Hni _]; subst. apply Hni.
  cbn [eid] in E. rewrite <- E. now apply in_map.
Qed.

(** With distinct identities an element is found under its identity. *)
Lemma unique_find (r x : element) :
  NoDup (elem_ids r) -> In x (self_and_descendants r) ->
  find_elem r (eid x) = Some x.
Proof.
  intros Hn Hx. unfold find_elem.
  apply find_by_id; [|exact Hx].
  apply NoDup_distinct. exact Hn.
Qed.

Lemma unique_elem (r x y : element) :
  NoDup (elem_ids r) -> In x (self_and_descendants r) ->
  In y (self_and_descendants r) -> eid x = eid y -> x = y.
Proof.
  intros Hn Hx Hy E.
  pose proof (unique_find r x Hn Hx) as H1.
  pose proof (unique_find r y Hn Hy) as H2.
  rewrite E in H1. congruence.
Qed.

Lemma find_elem_in (r e : element) (i : nat) :
  find_elem r i = Some e -> In e (self_and_descendants r) /\ eid e = i.
Proof.
  unfold find_elem. intros H. apply find_some in H as [Hin He].
  split; [exact Hin | now apply Nat.eqb_eq].
Qed.

Lemma find_elem_absent (r : element) (i : nat) :
  find_elem r i = None -> ~ In i (elem_ids r).
Proof.
  unfold find_elem, elem_ids. intros H Hin.
  apply in_map_iff in Hin as [x [Hid Hx]].
  pose proof (find_none _ _ H x Hx) as Hf. cbn beta in Hf.
  rewrite Hid, Nat.eqb_refl in Hf. discriminate.
Qed.

(** ** What the children look like *)

Lemma retail_other (c : nat) (v : nat * string * option string) :
  fst (fst v) <> c -> retail c v = v.
Proof.
  intros H. unfold retail. apply Nat.eqb_neq in H. now rewrite H.
Qed.

Lemma cview_update_tail (c : nat) (ch : element) :
  cview (update c (set_tail None) ch) = retail c (cview ch).
Proof.
  destruct ch as [j t a x y cs]. unfold retail, cview.
  cbn [update eid etag etail fst snd].
  destruct (Nat.eqb j c); reflexivity.
Qed.

Lemma flat_map_map_ext {A B : Type} (f : A -> list B) (g : A -> A)
      (l : list A) :
  (forall a, In a l -> f (g a) = f a) -> flat_map f (map g l) = flat_map f l.
Proof.
  induction l as [|a l IH]; intros H; [reflexivity|].
  cbn [map flat_map]. rewrite (H a (or_introl eq_refl)).
  rewrite IH; [reflexivity|]. intros b Hb. apply H. now right.
Qed.

(** ** Taking a tail away *)

Lemma ids_update_tail (c : nat) (y : option string) (r : element) :
  elem_ids (update c (set_tail y) r) = elem_ids r.
Proof.
  induction r as [j t a tx ty cs IH] using element_induction.
  cbn [update eid]. destruct (Nat.eqb j c).
  - cbn [set_tail]. now rewrite !ids_children.
  - rewrite !ids_children. f_equal. apply flat_map_map_ext.
    rewrite Forall_forall in IH. exact IH.
Qed.

Lemma eid_update_tail (c : nat) (y : option string) (r : element) :
  eid (update c (set_tail y) r) = eid r.
Proof.
  destruct r as [j t a tx ty cs]. cbn [update eid].
  destruct (Nat.eqb j c); reflexivity.
Qed.

(** Where the elements of the new tree come from, and what their
    children look like. *)
Lemma update_tail_origin (c : nat) (r : element) :
  NoDup (elem_ids r) ->
  forall x',
    In x' (self_and_descendants (update c (set_tail None) r)) ->
    exists x,
      In x (self_and_descendants r)
      /\ eid x' = eid x /\ etag x' = etag x /\ etext x' = etext x
      /\ map cview (echildren x') = map (retail c) (map cview (echildren x)).
Proof.
  induction r as [j t a tx ty cs IH] using element_induction.
  intros Hn x' Hx'. cbn [update eid] in Hx'.
  destruct (Nat.eqb j c) eqn:E.
  - apply Nat.eqb_eq in E. subst c. cbn [set_tail] in Hx'.
    rewrite sd_children in Hx'. destruct Hx' as [<- | Hx'].
    + exists (Element j t a tx ty cs). split; [left; reflexivity|].
      split; [reflexivity|]. split; [reflexivity|]. split; [reflexivity|].
      cbn [echildren]. rewrite map_map. apply map_ext_in. intros ch Hch.
      symmetry. apply retail_other.
      apply (root_id_fresh (Element j t a tx ty cs) ch Hn).
      apply child_in_descendants. exact Hch.
    + assert (Hd : In x' (descendants (Element j t a tx ty cs)))
        by exact Hx'.
      exists x'. split; [right; exact Hd|].
      split; [reflexivity|]. split; [reflexivity|]. split; [reflexivity|].
      rewrite map_map. apply map_ext_in. intros ch Hch.
      symmetry. apply retail_other.
      apply (root_id_fresh (Element j t a tx ty cs) ch Hn).
      apply (descendants_trans _ x' ch Hd).
      apply child_in_descendants. exact Hch.
  - rewrite sd_children in Hx'. destruct Hx' as [<- | Hx'].
    + exists (Element j t a tx ty cs). split; [left; reflexivity|].
      split; [reflexivity|]. split; [reflexivity|]. split; [reflexivity|].
      cbn [echildren]. rewrite !map_map. apply map_ext. intros ch.
      apply cview_update_tail.
    + apply in_flat_map in Hx' as [k' [Hk' Hx']].
      apply in_map_iff in Hk' as [k [<- Hk]].
      rewrite Forall_forall in IH.
      destruct (IH k Hk (NoDup_ids_child _ k Hn Hk) x' Hx')
        as (x & Hx & H1 & H2 & H3 & H4).
      exists x. split; [|repeat split; assumption].
      exact (sd_child_sd (Element j t a tx ty cs) k x Hk Hx).
Qed.

(** ** Inserting a paragraph *)

Section Insert.

Variable p : element.
Variable F : element -> element.
Variable i : nat.

Hypothesis p_leaf : echildren p = [].
Hypothesis F_inserts :
  forall e, exists pos tx,
    F e = Element (eid e) (etag e) (eattrib e) tx (etail e)
                  (insert_at pos p (echildren e))
    /\ (tx = etext e \/ tx = None).

Lemma cview_update_insert (ch : element) :
  cview (update i F ch) = cview ch.
Proof.
  destruct ch as [j t a x y cs]. cbn [update eid].
  destruct (Nat.eqb j i); [|reflexivity].
  destruct (F_inserts (Element j t a x y cs)) as (pos & tx & -> & _).
  reflexivity.
Qed.

Lemma eid_update_insert (r : element) : eid (update i F r) = eid r.
Proof.
  change (fst (fst (cview (update i F r))) = fst (fst (cview r))).
  now rewrite cview_update_insert.
Qed.

Lemma update_insert_origin (r : element) :
  NoDup (elem_ids r) ->
  forall x',
    In x' (self_and_descendants (update i F r)) ->
    x' = p
    \/ exists x,
         In x (self_and_descendants r)
         /\ eid x' = eid x /\ etag x' = etag x
         /\ (etext x' = etext x \/ etext x' = None)
         /\ (forall v, In v (map cview (echildren x')) ->
                       v = cview p \/ In v (map cview (echildren x)))
         /\ (eid x' = i -> x' = F x).
Proof.
  induction r as [j t a tx ty cs IH] using element_induction.
  intros Hn x' Hx'. cbn [update eid] in Hx'.
  destruct (Nat.eqb j i) eqn:E.
  - apply Nat.eqb_eq in E. subst j.
    destruct (F_inserts (Element i t a tx ty cs)) as (pos & tx' & EF & Htx).
    rewrite EF in Hx'. cbn [eid etag eattrib etail echildren] in *.
    rewrite sd_children in Hx'. destruct Hx' as [<- | Hx'].
    + right. exists (Element i t a tx ty cs). split; [left; reflexivity|].
      split; [reflexivity|]. split; [reflexivity|].
      split; [exact Htx|]. split; [|intros _; now rewrite EF].
      cbn [echildren]. intros v Hv.
      apply in_map_iff in Hv as [ch [<- Hch]].
      destruct (in_insert_at pos p ch cs Hch) as [-> | Hc];
        [left; reflexivity | right; now apply in_map].
    + apply in_flat_map in Hx' as [k [Hk Hx']].
      destruct (in_insert_at pos p k cs Hk) as [-> | Hc].
      * left. destruct p as [pj pt pa px py pcs]. cbn [echildren] in p_leaf.
        subst pcs. destruct Hx' as [<- | []]. reflexivity.
      * right. exists x'.
        assert (Hd : In x' (self_and_descendants (Element i t a tx ty cs)))
          by exact (sd_child_sd (Element i t a tx ty cs) k x' Hc Hx').
        split; [exact Hd|].
        split; [reflexivity|]. split; [reflexivity|].
        split; [left; reflexivity|]. split; [intros v Hv; now right|].
        intros Ei. exfalso.
        destruct Hd as [Hd | Hd].
        -- subst x'.
           assert (Hs : In (Element i t a tx ty cs)
                           (descendants (Element i t a tx ty cs))).
           { cbn [descendants]. apply in_flat_map. exists k.
             split; assumption. }
           exact (root_id_fresh _ _ Hn Hs eq_refl).
        -- exact (root_id_fresh _ _ Hn Hd Ei).
  - rewrite sd_children in Hx'. destruct Hx' as [<- | Hx'].
    + right. exists (Element j t a tx ty cs). split; [left; reflexivity|].
      split; [reflexivity|]. split; [reflexivity|].
      split; [left; reflexivity|]. split.
      * cbn [echildren]. intros v Hv. right.
        rewrite map_map in Hv.
        apply in_map_iff in Hv as [ch [<- Hch]].
        rewrite cview_update_insert. now apply in_map.
      * cbn [eid]. intros Ei. apply Nat.eqb_neq in E. contradiction.
    + apply in_flat_map in Hx' as [k' [Hk' Hx']].
      apply in_map_iff in Hk' as [k [<- Hk]].
      rewrite Forall_forall in IH.
      destruct (IH k Hk (NoDup_ids_child _ k Hn Hk) x' Hx')
        as [Hp | (x & Hx & H1 & H2 & H3 & H4 & H5)]; [left; exact Hp|].
      right. exists x. split; [|repeat split; assumption].
      exact (sd_child_sd (Element j t a tx ty cs) k x Hk Hx).
Qed.

(** Counting the identities. *)
Lemma count_flat_insert (pos : nat) (cs : list element) (k : nat) :
  count_occ Nat.eq_dec (flat_map elem_ids (insert_at pos p cs)) k
  = count_occ Nat.eq_dec (flat_map elem_ids cs) k
    + count_occ Nat.eq_dec (elem_ids p) k.
Proof.
  revert cs. induction pos as [|n IH]; intros cs.
  - destruct cs; cbn [insert_at flat_map]; rewrite !count_occ_app; lia.
  - destruct cs as [|c cs]; cbn [insert_at flat_map].
    + rewrite !count_occ_app. cbn [count_occ]. lia.
    + rewrite !count_occ_app, IH. lia.
Qed.

Lemma count_ids_insert (r : element) (k : nat) :
  count_occ Nat.eq_dec (elem_ids (update i F r)) k
  <= count_occ Nat.eq_dec (elem_ids r) k
     + count_occ Nat.eq_dec (elem_ids p) k * count_occ Nat.eq_dec (elem_ids r) i.
Proof.
  induction r as [j t a tx ty cs IH] using element_induction.
  cbn [update eid]. destruct (Nat.eqb j i) eqn:E.
  - apply Nat.eqb_eq in E. subst j.
    destruct (F_inserts (Element i t a tx ty cs)) as (pos & tx' & -> & _).
    cbn [eid etag eattrib etail echildren].
    rewrite !ids_children. cbn [count_occ].
    rewrite count_flat_insert.
    destruct (Nat.eq_dec i i) as [_|N]; [|contradiction].
    destruct (Nat.eq_dec i k); nia.
  - rewrite !ids_children. cbn [count_occ].
    assert (H : count_occ Nat.eq_dec
                  (flat_map elem_ids (map (update i F) cs)) k
                <= count_occ Nat.eq_dec (flat_map elem_ids cs) k
                   + count_occ Nat.eq_dec (elem_ids p) k
                     * count_occ Nat.eq_dec (flat_map elem_ids cs) i).
    { clear E. induction cs as [|c cs IHcs]; [cbn; lia|].
      inversion IH as [|? ? Hc Hcs]; subst.
      cbn [map flat_map]. rewrite !count_occ_app.
      specialize (IHcs Hcs). nia. }
    destruct (Nat.eq_dec j k), (Nat.eq_dec j i); nia.
Qed.

Lemma ids_update_insert (r : element) (k : nat) :
  In k (elem_ids (update i F r)) -> In k (elem_ids p) \/ In k (elem_ids r).
Proof.
  intros H. apply (count_occ_In Nat.eq_dec) in H.
  pose proof (count_ids_insert r k) as Hc.
  destruct (count_occ Nat.eq_dec (elem_ids p) k) as [|m] eqn:Ep.
  - right. apply (count_occ_In Nat.eq_dec). lia.
  - left. apply (count_occ_In Nat.eq_dec). lia.
Qed.

Lemma NoDup_update_insert (r : element) :
  NoDup (elem_ids r) -> NoDup (elem_ids p) ->
  (forall k, In k (elem_ids p) -> ~ In k (elem_ids r)) ->
  NoDup (elem_ids (update i F r)).
Proof.
  intros Hn Hp Hf. apply (NoDup_count_occ Nat.eq_dec). intros k.
  pose proof (count_ids_insert r k) as Hc.
  pose proof (proj1 (NoDup_count_occ Nat.eq_dec (elem_ids r)) Hn k) as H1.
  pose proof (proj1 (NoDup_count_occ Nat.eq_dec (elem_ids r)) Hn i) as H2.
  pose proof (proj1 (NoDup_count_occ Nat.eq_dec (elem_ids p)) Hp k) as H3.
  destruct (count_occ Nat.eq_dec (elem_ids p) k) as [|m] eqn:Ep; [lia|].
  assert (Hk : In k (elem_ids p)) by (apply (count_occ_In Nat.eq_dec); lia).
  apply Hf in Hk. apply (count_occ_not_In Nat.eq_dec) in Hk. nia.
Qed.

End Insert.

(** ** Dropping a child *)

Lemma cview_drop_tree (c : nat) (k : element) :
  cview (drop_tree c k) = cview k.
Proof.
  destruct k as [j t a x y cs]. cbn [drop_tree].
  destruct (existsb _ cs); [|reflexivity].
  now destruct (drop_child c x cs).
Qed.

Lemma vok_blank (T B : list nat) (v : nat * string * option string) :
  vok T B v -> ~ In (fst (fst v)) T -> blank_opt (snd v) = true.
Proof.
  intros [H | [H | [_ H]]] Hn; [contradiction | | exact H].
  unfold settled_view in H. now apply andb_prop in H as [H _].
Qed.

Lemma vok_join (T B : list nat) (v : nat * string * option string)
      (y : option string) :
  vok T B v -> blank_opt y = true ->
  vok T B (fst v, join_text (snd v) y).
Proof.
  intros [H | [H | [H1 H2]]] Hy.
  - left. exact H.
  - right. left. unfold settled_view in *. cbn [fst snd].
    apply andb_prop in H as [Hb Ht]. rewrite Ht, andb_true_r.
    now apply blank_join.
  - right. right. cbn [fst snd]. split; [exact H1 | now apply blank_join].
Qed.

Lemma cview_set_tail (y : option string) (k : element) :
  cview (set_tail y k) = (fst (cview k), y).
Proof. now destruct k. Qed.

Lemma drop_after_ok (T B : list nat) (c : nat) :
  ~ In c T ->
  forall cs prev,
    (forall v, In v (map cview (prev :: cs)) -> vok T B v) ->
    forall v, In v (map cview (drop_after prev c cs)) -> vok T B v.
Proof.
  intros Hc. induction cs as [|k cs IH]; intros prev Hok v Hv.
  - exact (Hok v Hv).
  - cbn [drop_after] in Hv. destruct (Nat.eqb (eid k) c) eqn:E.
    + apply Nat.eqb_eq in E. cbn [map] in Hv. destruct Hv as [<- | Hv].
      * rewrite cview_set_tail.
        apply (vok_join T B (cview prev) (etail k)).
        -- apply Hok. left. reflexivity.
        -- apply (vok_blank T B (cview k)).
           ++ apply Hok. right. left. reflexivity.
           ++ cbn [cview fst]. now rewrite E.
      * apply Hok. right. right. exact Hv.
    + cbn [map] in Hv. destruct Hv as [<- | Hv].
      * apply Hok. left. reflexivity.
      * apply (IH k); [|exact Hv].
        intros w Hw. apply Hok. right. exact Hw.
Qed.

Lemma drop_child_ok (T B : list nat) (c : nat) (x : option string)
      (cs : list element) :
  ~ In c T ->
  blank_opt x = true ->
  (forall v, In v (map cview cs) -> vok T B v) ->
  blank_opt (fst (drop_child c x cs)) = true
  /\ forall v, In v (map cview (snd (drop_child c x cs))) -> vok T B v.
Proof.
  intros Hc Hx Hok. destruct cs as [|k cs]; cbn [drop_child].
  - split; [exact Hx | intros v []].
  - destruct (Nat.eqb (eid k) c) eqn:E; cbn [fst snd].
    + apply Nat.eqb_eq in E. split.
      * apply blank_join; [exact Hx|].
        apply (vok_blank T B (cview k)).
        -- apply Hok. left. reflexivity.
        -- cbn [cview fst]. now rewrite E.
      * intros v Hv. apply Hok. right. exact Hv.
    + split; [exact Hx|]. now apply drop_after_ok.
Qed.

(** The children that stay are the children of before, one of them
    possibly with a longer tail. *)
Lemma drop_after_members (c : nat) :
  forall cs prev k',
    In k' (drop_after prev c cs) ->
    exists k, In k (prev :: cs) /\ (k' = k \/ exists y, k' = set_tail y k).
Proof.
  induction cs as [|k cs IH]; intros prev k' H.
  - exists k'. split; [exact H | now left].
  - cbn [drop_after] in H. destruct (Nat.eqb (eid k) c).
    + destruct H as [<- | H].
      * exists prev. split; [now left | right; eauto].
      * exists k'. split; [right; right; exact H | now left].
    + destruct H as [<- | H].
      * exists prev. split; [now left | now left].
      * destruct (IH k k' H) as (k0 & Hk0 & Hr).
        exists k0. split; [right; exact Hk0 | exact Hr].
Qed.

Lemma drop_child_members (c : nat) (x : option string) (cs : list element)
      (k' : element) :
  In k' (snd (drop_child c x cs)) ->
  exists k, In k cs /\ (k' = k \/ exists y, k' = set_tail y k).
Proof.
  destruct cs as [|k cs]; cbn [drop_child]; [intros []|].
  destruct (Nat.eqb (eid k) c); cbn [snd].
  - intros H. exists k'. split; [right; exact H | now left].
  - apply drop_after_members.
Qed.

Lemma sok_set_tail (T B : list nat) (y : option string) (k : element) :
  sok T B k -> sok T B (set_tail y k).
Proof. now destruct k. Qed.

Lemma drop_tree_origin (c : nat) (r : element) :
  forall x',
    In x' (self_and_descendants (drop_tree c r)) ->
    exists x,
      In x (self_and_descendants r)
      /\ eid x' = eid x /\ etag x' = etag x
      /\ forall T B, ~ In c T -> sok T B x -> sok T B x'.
Proof.
  induction r as [j t a tx ty cs IH] using element_induction.
  intros x' Hx'. cbn [drop_tree] in Hx'.
  destruct (existsb _ cs) eqn:E.
  - pose proof (drop_child_ok) as Hok.
    pose proof (drop_child_members c tx cs) as Hm.
    destruct (drop_child c tx cs) as [tx' cs'] eqn:Ed.
    cbn [snd] in Hm.
    rewrite sd_children in Hx'. destruct Hx' as [<- | Hx'].
    + exists (Element j t a tx ty cs). split; [left; reflexivity|].
      split; [reflexivity|]. split; [reflexivity|].
      intros T B Hc [Hb Hv]. cbn [etext echildren] in *.
      destruct (Hok T B c tx cs Hc Hb Hv) as [H1 H2].
      rewrite Ed in H1, H2. split; assumption.
    + apply in_flat_map in Hx' as [k' [Hk' Hx']].
      destruct (Hm k' Hk') as (k & Hk & [-> | [y ->]]).
      * exists x'. split.
        -- exact (sd_child_sd (Element j t a tx ty cs) k x' Hk Hx').
        -- split; [reflexivity|]. split; [reflexivity|]. intros; assumption.
      * destruct k as [kj kt ka kx ky kcs]. cbn [set_tail] in Hx'.
        rewrite sd_children in Hx'. destruct Hx' as [<- | Hx'].
        -- exists (Element kj kt ka kx ky kcs). split.
           ++ exact (child_in_sd (Element j t a tx ty cs) _ Hk).
           ++ split; [reflexivity|]. split; [reflexivity|].
              intros; assumption.
        -- exists x'. split.
           ++ apply (sd_child_sd (Element j t a tx ty cs) _ x' Hk).
              right. exact Hx'.
           ++ split; [reflexivity|]. split; [reflexivity|].
              intros; assumption.
  - rewrite sd_children in Hx'. destruct Hx' as [<- | Hx'].
    + exists (Element j t a tx ty cs). split; [left; reflexivity|].
      split; [reflexivity|]. split; [reflexivity|].
      intros T B Hc [Hb Hv]. split; [exact Hb|].
      cbn [echildren] in *. intros v Hin. apply Hv.
      rewrite map_map in Hin. apply in_map_iff in Hin as [k [<- Hk]].
      rewrite cview_drop_tree. now apply in_map.
    + apply in_flat_map in Hx' as [k' [Hk' Hx']].
      apply in_map_iff in Hk' as [k [<- Hk]].
      rewrite Forall_forall in IH.
      destruct (IH k Hk x' Hx') as (x & Hx & H1 & H2 & H3).
      exists x. split; [|split; [exact H1 | split; [exact H2 | exact H3]]].
      exact (sd_child_sd (Element j t a tx ty cs) k x Hk Hx).
Qed.

Lemma NoDup_drop_tree (c : nat) (r : element) :
  NoDup (elem_ids r) -> NoDup (elem_ids (drop_tree c r)).
Proof.
  rewrite <- !ids_tree_ids.
  exact (only_removes_tree_ids _ _ (only_removes_drop_tree c r)).
Qed.

Lemma ids_drop_tree (c : nat) (r : element) (k : nat) :
  In k (elem_ids (drop_tree c r)) -> In k (elem_ids r).
Proof.
  rewrite <- !ids_tree_ids. unfold tree_ids.
  destruct (only_removes_drop_tree c r) as [Hl Hs].
  intros [H | H].
  - left. rewrite <- H.
    change (lid (label r) = lid (label (drop_tree c r))). now rewrite Hl.
  - right. exact (sub_list_In _ _ _ (sub_list_map lid _ _ Hs) H).
Qed.

(** With distinct identities the dropped element is gone. *)
Lemma drop_tree_gone (c : nat) (r x : element) :
  NoDup (elem_ids r) -> In x (descendants (drop_tree c r)) -> eid x <> c.
Proof.
  intros Hn Hx E.
  assert (Hd : NoDup (map lid (labels r))).
  { apply tree_ids_descendants. now rewrite ids_tree_ids. }
  apply (drop_tree_removes c r Hd).
  unfold labels. rewrite map_map.
  apply in_map_iff. exists x. split; [exact E | exact Hx].
Qed.

(** ** The state of the children *)

Lemma vok_retail_keep (T B : list nat) (c : nat)
      (v : nat * string * option string) :
  vok T B v -> vok T B (retail c v).
Proof.
  unfold retail. destruct (Nat.eqb (fst (fst v)) c); [|intros H; exact H].
  intros [H | [H | [H1 H2]]].
  - left. exact H.
  - right. left. unfold settled_view in *. cbn [fst snd blank_opt].
    apply andb_prop in H as [_ H]. exact H.
  - right. right. split; [exact H1 | reflexivity].
Qed.

Lemma vok_retail_up (T B : list nat) (c : nat)
      (v : nat * string * option string) :
  vok (c :: T) B v -> vok T (c :: B) (retail c v).
Proof.
  unfold retail. destruct (Nat.eqb (fst (fst v)) c) eqn:E.
  - intros _. apply Nat.eqb_eq in E. right. right. cbn [fst snd].
    split; [left; now symmetry | reflexivity].
  - apply Nat.eqb_neq in E. intros [[H | H] | [H | [H1 H2]]].
    + exfalso. apply E. now symmetry.
    + left. exact H.
    + right. left. exact H.
    + right. right. split; [right; exact H1 | exact H2].
Qed.

Lemma vok_drop_B (T B : list nat) (c : nat)
      (v : nat * string * option string) :
  vok T (c :: B) v -> fst (fst v) <> c -> vok T B v.
Proof.
  intros [H | [H | [[H1 | H1] H2]]] Hc.
  - left. exact H.
  - right. left. exact H.
  - exfalso. apply Hc. now symmetry.
  - right. right. split; assumption.
Qed.

Lemma vok_settle (T : list nat) (c : nat)
      (v : nat * string * option string) :
  vok T [c] v ->
  (fst (fst v) = c -> String.eqb (snd (fst v)) "br" = false) ->
  vok T [] v.
Proof.
  intros [H | [H | [[H1 | []] H2]]] Hc.
  - left. exact H.
  - right. left. exact H.
  - right. left. unfold settled_view. rewrite H2.
    rewrite (Hc (eq_sym H1)). reflexivity.
Qed.

Lemma div_ok_sok (x : element) : div_ok x = true <-> sok [] [] x.
Proof.
  unfold div_ok, sok. split.
  - intros H. apply andb_prop in H as [Hb Hf]. split; [exact Hb|].
    intros v Hv. apply in_map_iff in Hv as [ch [<- Hch]].
    right. left. rewrite forallb_forall in Hf. exact (Hf ch Hch).
  - intros [Hb Hv]. rewrite Hb. cbn [andb]. apply forallb_forall.
    intros ch Hch.
    destruct (Hv (cview ch) (in_map cview _ ch Hch)) as [[] | [H | [[] _]]].
    exact H.
Qed.

Lemma div_state_transfer (P : list nat) (rid i : nat) (T B T' B' : list nat)
      (x x' : element) :
  eid x' = eid x ->
  (sok [] [] x -> sok [] [] x') ->
  (sok T B x -> sok T' B' x') ->
  div_state P rid i T B x -> div_state P rid i T' B' x'.
Proof.
  intros E H0 H1 [H | [H | [[H2 H3] | H]]].
  - left. now rewrite E.
  - right. left. now rewrite E.
  - right. right. left. split; [now rewrite E | now apply H1].
  - right. right. right. now apply H0.
Qed.

Lemma child_below (r x ch : element) :
  In x (self_and_descendants r) -> In ch (echildren x) ->
  In ch (descendants r).
Proof.
  intros [<- | Hx] Hch; [now apply child_in_descendants|].
  apply (descendants_trans r x ch Hx). now apply child_in_descendants.
Qed.

(** ** The steps of the second loop *)

Lemma tail_step (P : list nat) (rid i c : nat) (T B : list nat)
      (cur : element) :
  NoDup (elem_ids cur) ->
  div_inv P rid i (c :: T) B cur ->
  div_inv P rid i T (c :: B) (update c (set_tail None) cur).
Proof.
  intros Hn H x' Hx' Ht.
  destruct (update_tail_origin c cur Hn x' Hx')
    as (x & Hx & E1 & E2 & E3 & E4).
  apply (div_state_transfer P rid i (c :: T) B T (c :: B) x x' E1).
  - intros [Hb Hv]. split; [now rewrite E3|].
    intros v' Hv'. rewrite E4 in Hv'.
    apply in_map_iff in Hv' as [v [<- Hin]].
    apply vok_retail_keep. now apply Hv.
  - intros [Hb Hv]. split; [now rewrite E3|].
    intros v' Hv'. rewrite E4 in Hv'.
    apply in_map_iff in Hv' as [v [<- Hin]].
    apply vok_retail_up. now apply Hv.
  - apply H; [exact Hx | now rewrite <- E2].
Qed.

Lemma insert_step (P : list nat) (rid i j : nat) (T B : list nat)
      (p : element) (F : element -> element) (cur : element) :
  echildren p = [] ->
  (forall e, exists pos tx,
      F e = Element (eid e) (etag e) (eattrib e) tx (etail e)
                    (insert_at pos p (echildren e))
      /\ (tx = etext e \/ tx = None)) ->
  settled p = true -> etag p <> "div" ->
  NoDup (elem_ids cur) ->
  div_inv P rid i T B cur ->
  div_inv P rid i T B (update j F cur).
Proof.
  intros Hl HF Hs Hp Hn H x' Hx' Ht.
  destruct (update_insert_origin p F j Hl HF cur Hn x' Hx')
    as [-> | (x & Hx & E1 & E2 & E3 & E4 & _)]; [contradiction|].
  assert (Hk : forall T0 B0, sok T0 B0 x -> sok T0 B0 x').
  { intros T0 B0 [Hb Hv]. split.
    - destruct E3 as [-> | ->]; [exact Hb | reflexivity].
    - intros v Hin. destruct (E4 v Hin) as [-> | Hin'].
      + right. left. exact Hs.
      + now apply Hv. }
  apply (div_state_transfer P rid i T B T B x x' E1); [apply Hk | apply Hk |].
  apply H; [exact Hx | now rewrite <- E2].
Qed.

Lemma drop_step (P : list nat) (rid i c : nat) (T B : list nat)
      (cur : element) :
  NoDup (elem_ids cur) -> ~ In c T ->
  div_inv P rid i T (c :: B) cur ->
  div_inv P rid i T B (drop_tree c cur).
Proof.
  intros Hn Hc H x' Hx' Ht.
  destruct (drop_tree_origin c cur x' Hx') as (x & Hx & E1 & E2 & E3).
  apply (div_state_transfer P rid i T (c :: B) T B x x' E1).
  - apply E3. intros [].
  - intros Hs. destruct (E3 T (c :: B) Hc Hs) as [Hb Hv].
    split; [exact Hb|]. intros v Hin. apply (vok_drop_B T B c).
    + now apply Hv.
    + apply in_map_iff in Hin as [ch [<- Hch]]. cbn [cview fst].
      apply (drop_tree_gone c cur ch Hn).
      exact (child_below _ x' ch Hx' Hch).
  - apply H; [exact Hx | now rewrite <- E2].
Qed.

(** ** The new paragraphs *)

Lemma tail_paragraph_inserts (pos : nat) (p : element) :
  forall e, exists pos' tx,
    set_children (insert_at pos p (echildren e)) e
    = Element (eid e) (etag e) (eattrib e) tx (etail e)
              (insert_at pos' p (echildren e))
    /\ (tx = etext e \/ tx = None).
Proof.
  intros [j t a x y cs]. exists pos, x. split; [reflexivity | now left].
Qed.

Lemma lead_paragraph_inserts (p : element) :
  forall e, exists pos' tx,
    set_children (insert_at 0 p (echildren e)) (set_text None e)
    = Element (eid e) (etag e) (eattrib e) tx (etail e)
              (insert_at pos' p (echildren e))
    /\ (tx = etext e \/ tx = None).
Proof.
  intros [j t a x y cs]. exists 0, None. split; [reflexivity | now right].
Qed.

Lemma well_formed_insert (j n : nat) (tx : option string)
      (F : element -> element) (cur : element) :
  (forall e, exists pos tx',
      F e = Element (eid e) (etag e) (eattrib e) tx' (etail e)
                    (insert_at pos (set_text tx (fragment_fromstring n "p"))
                               (echildren e))
      /\ (tx' = etext e \/ tx' = None)) ->
  well_formed cur n -> well_formed (update j F cur) (S n).
Proof.
  intros HF [Hn Hb].
  set (p := set_text tx (fragment_fromstring n "p")) in *.
  assert (Hp : elem_ids p = [n]) by reflexivity.
  split.
  - apply (NoDup_update_insert p F j HF cur Hn).
    + rewrite Hp. constructor; [intros [] | constructor].
    + intros k Hk Hin. rewrite Hp in Hk. destruct Hk as [<- | []].
      specialize (Hb n Hin). lia.
  - intros k Hk.
    destruct (ids_update_insert p F j HF cur k Hk) as [Hk' | Hk'].
    + rewrite Hp in Hk'. destruct Hk' as [<- | []]. lia.
    + specialize (Hb k Hk'). lia.
Qed.

Lemma well_formed_drop (c n : nat) (cur : element) :
  well_formed cur n -> well_formed (drop_tree c cur) n.
Proof.
  intros [Hn Hb]. split; [now apply NoDup_drop_tree|].
  intros k Hk. apply Hb. exact (ids_drop_tree c cur k Hk).
Qed.

(** ** One child of the div *)

Lemma wrap_tail_inv (P : list nat) (rid i : nat) (T : list nat)
      (st : element * nat) (pos c : nat) :
  well_formed (fst st) (snd st) -> ~ In c T ->
  div_inv P rid i (c :: T) [] (fst st) ->
  well_formed (fst (wrap_tail i st (pos, c))) (snd (wrap_tail i st (pos, c)))
  /\ div_inv P rid i T [] (fst (wrap_tail i st (pos, c))).
Proof.
  intros Hw Hc H. destruct st as [cur n]. cbn [fst snd] in *.
  unfold wrap_tail. cbv beta iota. cbn [fst snd].
  destruct (find_elem cur c) as [child|] eqn:Ef.
  2: { split; [exact Hw|].
       intros x Hx Ht.
       apply (div_state_transfer P rid i (c :: T) [] T [] x x eq_refl);
         [intros H0; exact H0 | | apply H; assumption].
       intros [Hb Hv]. split; [exact Hb|]. intros v Hin.
       destruct (Hv v Hin) as [[Hcv | Hi] | Hr];
         [| left; exact Hi | right; exact Hr].
       exfalso. apply (find_elem_absent cur c Ef).
       apply in_map_iff in Hin as [ch [<- Hch]]. cbn [cview fst] in Hcv.
       rewrite Hcv. apply in_sd_ids. right.
       exact (child_below cur x ch Hx Hch). }
  destruct (find_elem_in cur child c Ef) as [Hchild Eid].
  destruct Hw as [Hn Hb].
  assert (U1 : forall y, In y (self_and_descendants cur) -> eid y = c ->
                         y = child).
  { intros y Hy Ey. apply (unique_elem cur y child Hn Hy Hchild).
    now rewrite Eid. }
  cbv zeta.
  set (st1 := if truthy (etail child)
                 && negb (is_blank (or_empty (etail child)))
              then _ else (cur, n)).
  assert (H1 : well_formed (fst st1) (snd st1)
               /\ div_inv P rid i T [c] (fst st1)
               /\ forall y, In y (self_and_descendants (fst st1)) ->
                            eid y = c -> etag y = etag child).
  { unfold st1.
    destruct (truthy (etail child)
              && negb (is_blank (or_empty (etail child)))) eqn:Econd;
      cbn [fst snd].
    - set (cur_a := update c (set_tail None) cur).
      set (p := set_text (etail child) (fragment_fromstring n "p")).
      set (F := fun e : element =>
                  set_children (insert_at (pos + 1) p (echildren e)) e).
      pose proof (tail_step P rid i c T [] cur Hn H) as Ha.
      fold cur_a in Ha.
      assert (Hwa : well_formed cur_a n).
      { split; [unfold cur_a; now rewrite ids_update_tail|].
        intros k Hk. unfold cur_a in Hk. rewrite ids_update_tail in Hk.
        now apply Hb. }
      pose proof (tail_paragraph_inserts (pos + 1) p) as HF.
      split; [exact (well_formed_insert i n (etail child) F cur_a HF Hwa)|].
      split.
      + apply (insert_step P rid i i T [c] p F cur_a eq_refl HF);
          [reflexivity | discriminate | exact (proj1 Hwa) | exact Ha].
      + intros y Hy Ey.
        destruct (update_insert_origin p F i eq_refl HF cur_a (proj1 Hwa)
                    y Hy)
          as [-> | (y0 & Hy0 & E1 & E2 & _)].
        * exfalso. cbn [p set_text fragment_fromstring eid] in Ey.
          pose proof (Hb c) as Hlt. rewrite <- Eid in Hlt at 1.
          specialize (Hlt (in_sd_ids cur child Hchild)). lia.
        * destruct (update_tail_origin c cur Hn y0 Hy0)
            as (y1 & Hy1 & F1 & F2 & _).
          rewrite E2, F2. f_equal. apply U1; [exact Hy1 | congruence].
    - split; [split; assumption|]. split.
      + intros x Hx Ht.
        apply (div_state_transfer P rid i (c :: T) [] T [c] x x eq_refl);
          [intros H0; exact H0 | | apply H; assumption].
        intros [Hbx Hv]. split; [exact Hbx|]. intros v Hin.
        destruct (Hv v Hin) as [[Hcv | Hi] | [Hs | [[] _]]];
          [| left; exact Hi | right; left; exact Hs].
        right. right.
        apply in_map_iff in Hin as [ch [<- Hch]].
        cbn [cview fst snd] in *. split; [left; exact Hcv|].
        rewrite (U1 ch); [now apply not_wrapped_blank | | now symmetry].
        right. exact (child_below cur x ch Hx Hch).
      + intros y Hy Ey. f_equal. now apply U1. }
  clearbody st1. destruct st1 as [cur1 n1]. cbn [fst snd] in *.
  destruct H1 as (Hw1 & HJ & Htag).
  destruct (String.eqb (etag child) "br") eqn:Ebr; cbn [fst snd].
  - split; [now apply well_formed_drop|].
    apply drop_step; [exact (proj1 Hw1) | exact Hc | exact HJ].
  - split; [exact Hw1|]. intros x Hx Ht.
    apply (div_state_transfer P rid i T [c] T [] x x eq_refl);
      [intros H0; exact H0 | | apply HJ; assumption].
    intros [Hbx Hv]. split; [exact Hbx|]. intros v Hin.
    apply (vok_settle T c v (Hv v Hin)). intros Ev.
    apply in_map_iff in Hin as [ch [<- Hch]]. cbn [cview fst snd] in *.
    rewrite (Htag ch); [exact Ebr | | exact Ev].
    right. exact (child_below cur1 x ch Hx Hch).
Qed.

Lemma wrap_tails_inv (P : list nat) (rid i : nat) :
  forall (l : list (nat * nat)) (st : element * nat),
    well_formed (fst st) (snd st) -> NoDup (map snd l) ->
    div_inv P rid i (map snd l) [] (fst st) ->
    well_formed (fst (fold_left (wrap_tail i) l st))
                (snd (fold_left (wrap_tail i) l st))
    /\ div_inv P rid i [] [] (fst (fold_left (wrap_tail i) l st)).
Proof.
  induction l as [|[pos c] l IH]; intros st Hw Hn H.
  - split; assumption.
  - cbn [fold_left map snd] in *.
    inversion Hn as [|? ? Hc Hn']; subst.
    destruct (wrap_tail_inv P rid i (map snd l) st pos c Hw Hc H)
      as [Hw' H'].
    exact (IH _ Hw' Hn' H').
Qed.

(** ** One div *)

Lemma map_snd_enumerate {A : Type} (l : list A) (n s : nat) :
  List.length l = n -> map snd (combine (seq s n) l) = l.
Proof.
  revert n s. induction l as [|a l IH]; intros n s E.
  - now destruct n.
  - destruct n as [|n]; [discriminate|]. injection E as E.
    cbn [seq combine map snd]. now rewrite (IH n (S s) E).
Qed.

Lemma head_ids (k : element) : exists l, elem_ids k = eid k :: l.
Proof. destruct k as [j t a x y cs]. rewrite ids_children. eauto. Qed.

Lemma NoDup_children_ids (e : element) :
  NoDup (elem_ids e) -> NoDup (map eid (echildren e)).
Proof.
  destruct e as [j t a x y cs]. rewrite ids_children. cbn [echildren].
  intros Hn. inversion Hn as [|? ? _ Hn']; subst. clear Hn.
  induction cs as [|k cs IH]; [constructor|].
  cbn [flat_map map] in *. destruct (head_ids k) as [l El].
  rewrite El in Hn'. cbn [app] in Hn'.
  inversion Hn' as [|? ? Hk Hr]; subst.
  constructor.
  - intros Hin. apply Hk. apply in_or_app. right.
    apply in_map_iff in Hin as [ch [Ech Hch]].
    apply in_flat_map. exists ch. split; [exact Hch|].
    destruct (head_ids ch) as [l' El']. rewrite El', Ech. now left.
  - apply IH. exact (NoDup_app_remove_l _ _ Hr).
Qed.

Lemma div_inv_done (P : list nat) (rid i j : nat) (cur : element) :
  div_inv P rid i [] [] cur -> div_inv P rid j [] [] cur.
Proof.
  intros H x Hx Ht. destruct (H x Hx Ht) as [H0 | [H0 | [[_ H0] | H0]]].
  - left. exact H0.
  - right. left. exact H0.
  - right. right. right. exact H0.
  - right. right. right. exact H0.
Qed.

(** The leading text of the div: afterwards the div has none. *)
Lemma wrap_leading_text_inv (P : list nat) (rid i : nat)
      (st : element * nat) :
  well_formed (fst st) (snd st) ->
  div_inv P rid i [] [] (fst st) ->
  well_formed (fst (wrap_leading_text i st)) (snd (wrap_leading_text i st))
  /\ div_inv P rid i [] [] (fst (wrap_leading_text i st))
  /\ forall x, In x (self_and_descendants (fst (wrap_leading_text i st))) ->
               eid x = i -> blank_opt (etext x) = true.
Proof.
  intros Hw H. destruct st as [cur n]. cbn [fst snd] in *.
  unfold wrap_leading_text. cbn [fst snd].
  destruct (find_elem cur i) as [elem|] eqn:Ef.
  2: { split; [exact Hw|]. split; [exact H|]. intros x Hx Ex. exfalso.
       apply (find_elem_absent cur i Ef). rewrite <- Ex.
       now apply in_sd_ids. }
  destruct (find_elem_in cur elem i Ef) as [Helem Eid].
  assert (U1 : forall y, In y (self_and_descendants cur) -> eid y = i ->
                         y = elem).
  { intros y Hy Ey. apply (unique_elem cur y elem (proj1 Hw) Hy Helem).
    now rewrite Eid. }
  destruct (etext elem) as [tx|] eqn:Et.
  2: { split; [exact Hw|]. split; [exact H|]. intros x Hx Ex.
       rewrite (U1 x Hx Ex), Et. reflexivity. }
  destruct (is_blank tx) eqn:Eb.
  { split; [exact Hw|]. split; [exact H|]. intros x Hx Ex.
    rewrite (U1 x Hx Ex), Et. exact Eb. }
  cbv zeta. cbn [fst snd].
  set (p := set_text (Some tx) (fragment_fromstring n "p")).
  set (F := fun e : element =>
              set_children (insert_at 0 p (echildren e)) (set_text None e)).
  pose proof (lead_paragraph_inserts p) as HF.
  split; [exact (well_formed_insert i n (Some tx) F cur HF Hw)|].
  split.
  - apply (insert_step P rid i i [] [] p F cur eq_refl HF);
      [reflexivity | discriminate | exact (proj1 Hw) | exact H].
  - intros x Hx Ex.
    destruct (update_insert_origin p F i eq_refl HF cur (proj1 Hw) x Hx)
      as [-> | (x0 & Hx0 & _ & _ & _ & _ & HFx)].
    + exfalso. cbn [p set_text fragment_fromstring eid] in Ex.
      pose proof (proj2 Hw i) as Hlt. rewrite <- Eid in Hlt at 1.
      specialize (Hlt (in_sd_ids cur elem Helem)). lia.
    + rewrite (HFx Ex). unfold F. now destruct x0.
Qed.

Lemma split_div_inv (P : list nat) (rid i : nat) (st : element * nat) :
  well_formed (fst st) (snd st) ->
  div_inv (i :: P) rid i [] [] (fst st) ->
  well_formed (fst (split_div st i)) (snd (split_div st i))
  /\ div_inv P rid i [] [] (fst (split_div st i)).
Proof.
  intros Hw H. unfold split_div. cbv zeta.
  destruct (wrap_leading_text_inv (i :: P) rid i st Hw H)
    as (Hw1 & H1 & Htext).
  set (st1 := wrap_leading_text i st) in *. clearbody st1.
  destruct (find_elem (fst st1) i) as [elem|] eqn:Ef.
  - destruct (find_elem_in (fst st1) elem i Ef) as [Helem Eid].
    apply wrap_tails_inv; [exact Hw1 | |].
    + rewrite map_rev, map_snd_enumerate by apply length_map. apply NoDup_rev.
      apply NoDup_children_ids.
      exact (NoDup_ids_sd (fst st1) elem (proj1 Hw1) Helem).
    + rewrite map_rev, map_snd_enumerate by apply length_map.
      intros x Hx Ht.
      destruct (H1 x Hx Ht) as [[Hi | Hp] | [Hr | [[_ Hs] | Hs]]].
      * right. right. left. split; [now symmetry|].
        assert (Ex : x = elem).
        { apply (unique_elem (fst st1) x elem (proj1 Hw1) Hx Helem).
          now rewrite Eid. }
        subst x. split; [apply (Htext elem Helem Eid)|].
        intros v Hv. left. apply in_map_iff in Hv as [ch [<- Hch]].
        cbn [cview fst]. apply -> in_rev. now apply in_map.
      * left. exact Hp.
      * right. left. exact Hr.
      * right. right. right. exact Hs.
      * right. right. right. exact Hs.
  - split; [exact Hw1|]. intros x Hx Ht.
    destruct (H1 x Hx Ht) as [[Hi | Hp] | [Hr | [[_ Hs] | Hs]]].
    + exfalso. apply (find_elem_absent (fst st1) i Ef). rewrite Hi.
      now apply in_sd_ids.
    + left. exact Hp.
    + right. left. exact Hr.
    + right. right. right. exact Hs.
    + right. right. right. exact Hs.
Qed.

(** ** All the divs *)

Lemma split_divs_inv (rid j : nat) :
  forall (l : list nat) (st : element * nat),
    well_formed (fst st) (snd st) ->
    div_inv l rid j [] [] (fst st) ->
    well_formed (fst (fold_left split_div l st))
                (snd (fold_left split_div l st))
    /\ div_inv [] rid j [] [] (fst (fold_left split_div l st)).
Proof.
  induction l as [|i l IH]; intros st Hw H.
  - split; assumption.
  - cbn [fold_left].
    destruct (split_div_inv l rid i st Hw (div_inv_done _ rid j i _ H))
      as [Hw' H'].
    exact (IH _ Hw' (div_inv_done _ rid i j _ H')).
Qed.

(** The identity of the root stays. *)
Lemma eid_update (i : nat) (f : element -> element) (r : element) :
  (forall e, eid (f e) = eid e) -> eid (update i f r) = eid r.
Proof.
  intros Hf. destruct r as [j t a x y cs]. cbn [update eid].
  destruct (Nat.eqb j i); [apply Hf | reflexivity].
Qed.

Lemma eid_drop_tree (c : nat) (r : element) : eid (drop_tree c r) = eid r.
Proof.
  change (lid (label (drop_tree c r)) = lid (label r)).
  now rewrite label_drop_tree.
Qed.

Lemma eid_wrap_leading_text (i : nat) (st : element * nat) :
  eid (fst (wrap_leading_text i st)) = eid (fst st).
Proof.
  unfold wrap_leading_text.
  destruct (find_elem (fst st) i) as [elem|]; [|reflexivity].
  destruct (etext elem) as [x|]; [|reflexivity].
  destruct (is_blank x); [reflexivity|].
  cbn [fst]. apply eid_update. now intros [].
Qed.

Lemma eid_wrap_tail (i : nat) (st : element * nat) (pc : nat * nat) :
  eid (fst (wrap_tail i st pc)) = eid (fst st).
Proof.
  unfold wrap_tail. destruct pc as [pos child_ref].
  destruct (find_elem (fst st) child_ref) as [child|]; [|reflexivity].
  set (st' := if truthy (etail child)
                 && negb (is_blank (or_empty (etail child)))
              then _ else st).
  assert (H : eid (fst st') = eid (fst st)).
  { unfold st'. destruct (_ && _); [|reflexivity].
    cbn [fst]. rewrite eid_update; [|now intros []].
    apply eid_update. now intros []. }
  clearbody st'.
  destruct (String.eqb (etag child) "br"); [|exact H].
  cbn [fst]. now rewrite eid_drop_tree.
Qed.

Lemma eid_split_div (st : element * nat) (i : nat) :
  eid (fst (split_div st i)) = eid (fst st).
Proof.
  unfold split_div.
  pose proof (eid_wrap_leading_text i st) as H1.
  destruct (find_elem (fst (wrap_leading_text i st)) i) as [elem|];
    [|exact H1].
  rewrite <- H1. generalize (wrap_leading_text i st).
  generalize (rev (combine (seq 0 (List.length (echildren elem)))
                           (map eid (echildren elem)))).
  induction l as [|pc l IH]; intros st0; [reflexivity|].
  cbn [fold_left]. rewrite IH. apply eid_wrap_tail.
Qed.

Lemma eid_split_divs (l : list nat) :
  forall st, eid (fst (fold_left split_div l st)) = eid (fst st).
Proof.
  induction l as [|i l IH]; intros st; [reflexivity|].
  cbn [fold_left]. rewrite IH. apply eid_split_div.
Qed.

(** The first loop changes tags only. *)
Lemma ids_update_tag (i : nat) (t : string) (r : element) :
  elem_ids (update i (set_tag t) r) = elem_ids r.
Proof.
  induction r as [j t0 a tx ty cs IH] using element_induction.
  cbn [update eid]. destruct (Nat.eqb j i).
  - cbn [set_tag]. now rewrite !ids_children.
  - rewrite !ids_children. f_equal. apply flat_map_map_ext.
    rewrite Forall_forall in IH. exact IH.
Qed.

Lemma ids_retag_divs (r : element) : elem_ids (retag_divs r) = elem_ids r.
Proof.
  unfold retag_divs. generalize (findall "div" r) at 1.
  intros l. revert r. induction l as [|i l IH]; intros r; [reflexivity|].
  cbn [fold_left]. rewrite IH. unfold retag_div.
  destruct (find_elem r i); [|reflexivity].
  destruct (Re.search _ _); [reflexivity|]. apply ids_update_tag.
Qed.

(** X18. After [transform_misused_divs_into_paragraphs] every div below
    the root is normal: it has no text of its own left, before its first
    child or after any of its children, other than blanks, and none of its
    children is a br element.  The text that was there sits in new p
    children.  The elements of the document have distinct identities, all
    of them below the identity that the next new element gets. *)
Theorem transform_normalizes_divs (d : Document) :
  unique_ids (doc d) = true ->
  forallb (fun x => eid x <? fresh d)%nat (self_and_descendants (doc d))
  = true ->
  forall x,
    In x (descendants (doc (transform_misused_divs_into_paragraphs d))) ->
    etag x = "div" ->
    blank_opt (etext x) = true
    /\ forall c, In c (echildren x) ->
                 blank_opt (etail c) = true /\ etag c <> "br".
Proof.
  intros Hu Hf x Hx Ht.
  unfold transform_misused_divs_into_paragraphs in Hx. cbv zeta in Hx.
  set (root1 := retag_divs (doc d)) in *.
  assert (Hw : well_formed root1 (fresh d)).
  { split.
    - unfold root1. rewrite ids_retag_divs. now apply unique_ids_NoDup.
    - intros k Hk. unfold root1 in Hk. rewrite ids_retag_divs in Hk.
      unfold elem_ids in Hk. apply in_map_iff in Hk as [y [<- Hy]].
      rewrite forallb_forall in Hf. apply Nat.ltb_lt. exact (Hf y Hy). }
  assert (Hinit : div_inv (findall "div" root1) (eid root1) 0 [] [] root1).
  { intros y Hy Hty. destruct Hy as [<- | Hy].
    - right. left. reflexivity.
    - left. unfold findall. apply in_map. apply filter_In.
      split; [exact Hy | now apply String.eqb_eq]. }
  destruct (split_divs_inv (eid root1) 0 (findall "div" root1)
              (root1, fresh d) Hw Hinit) as [Hwf Hfin].
  pose proof (eid_split_divs (findall "div" root1) (root1, fresh d)) as Hid.
  destruct (fold_left split_div (findall "div" root1) (root1, fresh d))
    as [root n].
  cbn [fst snd doc] in *.
  assert (Hs : sok [] [] x).
  { destruct (Hfin x (or_intror Hx) Ht) as [[] | [Hr | [[_ Hs] | Hs]]];
      [| exact Hs | exact Hs].
    exfalso. apply (root_id_fresh root x (proj1 Hwf) Hx). congruence. }
  destruct Hs as [Hb Hv]. split; [exact Hb|]. intros c Hc.
  destruct (Hv (cview c) (in_map cview _ c Hc)) as [[] | [H | [[] _]]].
  unfold settled_view in H. cbn [cview fst snd] in H.
  apply andb_prop in H as [H1 H2]. split; [exact H1|].
  intros E. rewrite E in H2. discriminate.
Qed.

Lemma transform_normalizes_divs_witness :
  let x := Element 4 "div" [] (Some " ") None
             [Element 14 "p" [] (Some "x") None [];
              Element 6 "p" [] (Some "s") None [];
              Element 13 "p" [] (Some "y  ") None []] in
  unique_ids (doc with_breaks) = true
  /\ forallb (fun x => eid x <? fresh with_breaks)%nat
             (self_and_descendants (doc with_breaks)) = true
  /\ In x (descendants
             (doc (transform_misused_divs_into_paragraphs with_breaks)))
  /\ etag x = "div"
  /\ blank_opt (etext x) = true
  /\ forall c, In c (echildren x) ->
               blank_opt (etail c) = true /\ etag c <> "br".
Proof.
  intros x.
  assert (Hu : unique_ids (doc with_breaks) = true) by reflexivity.
  assert (Hf : forallb (fun x => eid x <? fresh with_breaks)%nat
                       (self_and_descendants (doc with_breaks)) = true)
    by reflexivity.
  assert (Hx : In x (descendants
                       (doc (transform_misused_divs_into_paragraphs
                               with_breaks))))
    by (vm_compute; do 3 right; left; reflexivity).
  split; [exact Hu|]. split; [exact Hf|]. split; [exact Hx|].
  split; [reflexivity|].
  exact (transform_normalizes_divs with_breaks Hu Hf x Hx eq_refl).
Defined.


(* ===================================================================== *)
(** * Further properties: the headers that the sanitizer leaves *)
(* ===================================================================== *)

(** The class weight is read off the attributes. *)
Lemma class_weight_label (e e' : element) :
  label e = label e' -> class_weight e = class_weight e'.
Proof.
  destruct e as [j t a x y cs], e' as [j' t' a' x' y' cs'].
  unfold label. cbn [eid etag eattrib]. intros H.
  injection H as _ _ ->. reflexivity.
Qed.

(** What is left after removals was there before, labelled alike. *)
Lemma only_removes_origin (old new x : element) :
  only_removes old new -> In x (descendants new) ->
  exists x0, In x0 (descendants old) /\ label x0 = label x.
Proof.
  intros [_ Hs] Hx.
  assert (Hl : In (label x) (labels old)).
  { apply (sub_list_In _ _ _ Hs). unfold labels. now apply in_map. }
  unfold labels in Hl. apply in_map_iff in Hl as [x0 [E Hx0]].
  exists x0. split; assumption.
Qed.

Lemma etag_label (e e' : element) : label e = label e' -> etag e = etag e'.
Proof. intros H. change (ltag (label e) = ltag (label e')). now rewrite H. Qed.

Lemma eid_label (e e' : element) : label e = label e' -> eid e = eid e'.
Proof. intros H. change (lid (label e) = lid (label e')). now rewrite H. Qed.

(** The loop over the headers of one tag name leaves none of them with a
    negative class weight. *)
Lemma header_loop_weights (t : string) (refs : list nat) :
  forall r,
    NoDup (tree_ids r) ->
    (forall x, In x (descendants r) -> etag x = t ->
               In (eid x) refs \/ (0 <= class_weight x)%Z) ->
    forall x,
      In x (descendants (fold_left (fun st i => sanitize_header i st) refs r)) ->
      etag x = t -> (0 <= class_weight x)%Z.
Proof.
  induction refs as [|k refs IH]; intros r Hn Hinv x Hx Ht.
  - destruct (Hinv x Hx Ht) as [[] | H]. exact H.
  - cbn [fold_left] in Hx.
    apply (IH (sanitize_header k r)); [| | exact Hx | exact Ht].
    + exact (only_removes_tree_ids _ _ (sanitize_header_only_removes k r) Hn).
    + clear x Hx Ht. intros x Hx Ht. unfold sanitize_header in Hx.
      destruct (find_elem r k) as [header|] eqn:Ef.
      * destruct ((class_weight header <? 0)%Z
                  || Qltb (33 # 100) (get_link_density header)) eqn:Ec.
        -- destruct (only_removes_origin r (drop_tree k r) x
                       (only_removes_drop_tree k r) Hx) as [x0 [Hx0 El]].
           destruct (Hinv x0 Hx0) as [[Hk | Hi] | Hg].
           ++ now rewrite (etag_label _ _ El).
           ++ exfalso.
              apply (drop_tree_removes k r (tree_ids_descendants _ Hn)).
              unfold labels. rewrite map_map.
              apply in_map_iff. exists x. split; [|exact Hx].
              change (eid x = k). rewrite Hk. symmetry.
              now apply eid_label.
           ++ left. now rewrite <- (eid_label _ _ El).
           ++ right. now rewrite <- (class_weight_label _ _ El).
        -- destruct (Hinv x Hx Ht) as [[Hk | Hi] | Hg];
             [| left; exact Hi | right; exact Hg].
           right.
           assert (Hl : In (label x) (labels r))
             by (unfold labels; now apply in_map).
           destruct (find_elem_label r (label x) Hn Hl) as [e [He Hle]].
           change (lid (label x)) with (eid x) in He.
           rewrite <- Hk, Ef in He. injection He as <-.
           apply orb_false_iff in Ec as [Ec _].
           apply Z.ltb_ge in Ec.
           now rewrite <- (class_weight_label _ _ Hle).
      * destruct (Hinv x Hx Ht) as [[Hk | Hi] | Hg];
          [| left; exact Hi | right; exact Hg].
        exfalso. apply (find_elem_none r k Ef).
        unfold labels. rewrite map_map.
        apply in_map_iff. exists x. split; [now symmetry | exact Hx].
Qed.

Lemma header_loop_only_removes (refs : list nat) :
  forall r,
    only_removes r (fold_left (fun st i => sanitize_header i st) refs r).
Proof.
  induction refs as [|k refs IH]; intros r; [apply only_removes_refl|].
  cbn [fold_left].
  eapply only_removes_trans; [apply sanitize_header_only_removes | apply IH].
Qed.

(** The loop over the tag names, one after the other. *)
Lemma headers_loop_weights (names : list string) :
  forall (done : list string) (r : element),
    NoDup (tree_ids r) ->
    (forall x, In x (descendants r) -> In (etag x) done ->
               (0 <= class_weight x)%Z) ->
    forall x,
      In x (descendants
              (for_tags (fun r => r) in_order names sanitize_header r)) ->
      In (etag x) (done ++ names) -> (0 <= class_weight x)%Z.
Proof.
  unfold for_tags, in_order.
  induction names as [|t names IH]; intros done r Hn Hdone x Hx Ht.
  - rewrite app_nil_r in Ht. now apply Hdone.
  - cbn [fold_left] in Hx.
    set (r' := fold_left (fun st i => sanitize_header i st) (findall t r) r)
      in *.
    pose proof (header_loop_only_removes (findall t r) r) as Hrem.
    fold r' in Hrem.
    assert (Hn' : NoDup (tree_ids r'))
      by exact (only_removes_tree_ids _ _ Hrem Hn).
    assert (Hdone' : forall x0, In x0 (descendants r') ->
                                In (etag x0) (done ++ [t]) ->
                                (0 <= class_weight x0)%Z).
    { intros x0 Hx0 Hin. apply in_app_or in Hin as [Hin | [Et | []]].
      - destruct (only_removes_origin r r' x0 Hrem Hx0) as [x1 [Hx1 El]].
        rewrite <- (class_weight_label _ _ El). apply Hdone; [exact Hx1|].
        now rewrite (etag_label _ _ El).
      - apply (header_loop_weights t (findall t r) r Hn); [| exact Hx0
                                                           | now symmetry].
        intros x1 Hx1 Et1. left. unfold findall. apply in_map.
        apply filter_In. split; [exact Hx1 | now apply String.eqb_eq]. }
    replace (done ++ t :: names)%list with ((done ++ [t]) ++ names)%list in Ht
      by (now rewrite <- app_assoc).
    exact (IH (done ++ [t])%list r' Hn' Hdone' x Hx Ht).
Qed.

(** X19. When the elements of the node have distinct identities, no
    header (h1 to h6) that [sanitize] leaves has a negative class weight,
    whatever else the sanitizer removes. *)
Theorem sanitize_keeps_weighty_headers (d : Document) (article : element)
        (c : candidates) :
  unique_ids article = true ->
  forall x, In x (descendants (doc (snd (sanitize d article c)))) ->
            In (etag x) HEADER_TAGS -> (0 <= class_weight x)%Z.
Proof.
  intros Hu x Hx Ht. rewrite sanitize_doc in Hx.
  destruct (sanitize_tree_phases d article c)
    as (r1 & r2 & r3 & E1 & _ & _ & H1 & H2 & H3 & H4).
  destruct (only_removes_origin r1 _ x
              (only_removes_trans _ _ _ H2 (only_removes_trans _ _ _ H3 H4))
              Hx) as [x1 [Hx1 El]].
  rewrite <- (class_weight_label _ _ El).
  rewrite E1 in Hx1.
  apply (headers_loop_weights HEADER_TAGS [] article
           (unique_ids_tree_ids _ Hu)); [| exact Hx1 |].
  - intros x0 _ [].
  - cbn [app]. rewrite (etag_label _ _ El). exact Ht.
Qed.

Lemma sanitize_keeps_weighty_headers_witness :
  let x := Element 73 "h1" [("class", "post-title")] (Some "Title") None [] in
  unique_ids with_headers = true
  /\ findall_any (doc (snd (sanitize gallery_doc with_headers [])))
     = [72; 73; 74]
  /\ In x (descendants (doc (snd (sanitize gallery_doc with_headers []))))
  /\ In (etag x) HEADER_TAGS
  /\ (0 <= class_weight x)%Z.
Proof.
  intros x.
  assert (Hu : unique_ids with_headers = true) by reflexivity.
  assert (Hx : In x (descendants
                       (doc (snd (sanitize gallery_doc with_headers [])))))
    by (vm_compute; right; left; reflexivity).
  assert (Ht : In (etag x) HEADER_TAGS) by (left; reflexivity).
  split; [exact Hu|]. split; [reflexivity|]. split; [exact Hx|].
  split; [exact Ht|].
  exact (sanitize_keeps_weighty_headers gallery_doc with_headers [] Hu x Hx
           Ht).
Defined.

(* ===================================================================== *)
(** * The order of the visits of the sanitizer *)
(* ===================================================================== *)

Lemma sub_list_filter {A : Type} (p : A -> bool) (l1 l2 : list A) :
  sub_list l1 l2 -> sub_list (filter p l1) (filter p l2).
Proof.
  induction 1 as [|x l1 l2 H IH|x l1 l2 H IH]; cbn [filter].
  - apply sub_nil.
  - destruct (p x); [apply sub_skip; exact IH | exact IH].
  - destruct (p x); [apply sub_keep; exact IH | exact IH].
Qed.

Lemma sub_list_rev {A : Type} (l1 l2 : list A) :
  sub_list l1 l2 -> sub_list (rev l1) (rev l2).
Proof.
  induction 1 as [|x l1 l2 H IH|x l1 l2 H IH]; cbn [rev].
  - apply sub_nil.
  - rewrite <- (app_nil_r (rev l1)).
    apply sub_list_app; [exact IH | apply sub_list_nil].
  - apply sub_list_app; [exact IH | apply sub_list_refl].
Qed.

Lemma findall_labels (t : string) (r : element) :
  findall t r
  = map lid (filter (fun l => String.eqb (ltag l) t) (labels r)).
Proof.
  unfold findall, labels.
  induction (descendants r) as [|x l IH]; [reflexivity|].
  cbn [filter map]. change (ltag (label x)) with (etag x).
  destruct (String.eqb (etag x) t); cbn [map]; now rewrite IH.
Qed.

(** The elements of one tag name in what is left of a tree are elements
    of that name in the tree, in the same order. *)
Lemma findall_sub_list (t : string) (old new : element) :
  only_removes old new -> sub_list (findall t new) (findall t old).
Proof.
  intros [_ Hs]. rewrite !findall_labels.
  apply sub_list_map. now apply sub_list_filter.
Qed.

(** A visit adds one entry to the record, or none. *)
Lemma visited_step d c (i : nat) (st : cleaning) :
  visited (clean_conditionally d c i st) = visited st
  \/ exists v,
       visited (clean_conditionally d c i st) = (visited st ++ [(i, v)])%list.
Proof.
  unfold clean_conditionally.
  destruct (existsb _ _); [right; eexists; reflexivity|].
  destruct (find_elem (node st) i); [|left; reflexivity].
  destruct (Qltb _ 0); [right; eexists; reflexivity|].
  destruct (_ <? 10)%nat; [|right; eexists; reflexivity].
  destruct (filter_decision _ _ _ _); right; eexists; reflexivity.
Qed.

Lemma batch_only_removes d c (l : list nat) :
  forall st,
    only_removes (node st)
      (node (fold_left (fun st i => clean_conditionally d c i st) l st)).
Proof.
  induction l as [|i l IH]; intros st; [apply only_removes_refl|].
  cbn [fold_left].
  eapply only_removes_trans;
    [apply clean_conditionally_only_removes | apply IH].
Qed.

(** The visits of the walk over one list of references follow the list. *)
Lemma visits_batch d c (l : list nat) :
  forall st,
    exists V,
      map fst (visited (fold_left (fun st i => clean_conditionally d c i st)
                                  l st))
      = (map fst (visited st) ++ V)%list
      /\ sub_list V l.
Proof.
  induction l as [|i l IH]; intros st.
  - exists []. split; [now rewrite app_nil_r | apply sub_nil].
  - cbn [fold_left].
    destruct (IH (clean_conditionally d c i st)) as [V [EV HV]].
    destruct (visited_step d c i st) as [E | [v E]]; rewrite EV, E.
    + exists V. split; [reflexivity | apply sub_skip; exact HV].
    + exists (i :: V). split; [|apply sub_keep; exact HV].
      rewrite map_app. cbn [map fst]. now rewrite <- app_assoc.
Qed.

(** The visits of the whole walk: batch after batch, each a part of the
    reversed list of the elements of its tag name. *)
Lemma visits_walk d c (R : element) (names : list string) :
  forall st,
    only_removes R (node st) ->
    exists V,
      map fst (visited (for_tags node (@rev nat) names
                                 (clean_conditionally d c) st))
      = (map fst (visited st) ++ V)%list
      /\ sub_list V (flat_map (fun t => rev (findall t R)) names).
Proof.
  unfold for_tags.
  induction names as [|t names IH]; intros st HR.
  - exists []. split; [now rewrite app_nil_r | apply sub_nil].
  - cbn [fold_left flat_map].
    set (l := rev (findall t (node st))).
    destruct (visits_batch d c l st) as [V1 [E1 H1]].
    pose proof (batch_only_removes d c l st) as Hb.
    set (st1 := fold_left (fun st i => clean_conditionally d c i st) l st)
      in *.
    destruct (IH st1 (only_removes_trans _ _ _ HR Hb)) as [V2 [E2 H2]].
    exists (V1 ++ V2)%list. split.
    + rewrite E2, E1. now rewrite app_assoc.
    + apply sub_list_app; [|exact H2].
      apply (sub_list_trans _ l); [exact H1|].
      unfold l. apply sub_list_rev. now apply findall_sub_list.
Qed.

(** The record only grows. *)
Lemma visited_grows_step d c (i j : nat) (st : cleaning) :
  In j (map fst (visited st)) ->
  In j (map fst (visited (clean_conditionally d c i st))).
Proof.
  intros H. destruct (visited_step d c i st) as [E | [v E]]; rewrite E.
  - exact H.
  - rewrite map_app. apply in_or_app. left. exact H.
Qed.

Lemma visited_grows_batch d c (j : nat) (l : list nat) :
  forall st,
    In j (map fst (visited st)) ->
    In j (map fst (visited
                     (fold_left (fun st i => clean_conditionally d c i st)
                                l st))).
Proof.
  induction l as [|i l IH]; intros st H; [exact H|].
  cbn [fold_left]. apply IH. now apply visited_grows_step.
Qed.

Lemma visited_grows_walk d c (j : nat) (names : list string) :
  forall st,
    In j (map fst (visited st)) ->
    In j (map fst (visited (for_tags node (@rev nat) names
                                     (clean_conditionally d c) st))).
Proof.
  unfold for_tags.
  induction names as [|t names IH]; intros st H; [exact H|].
  cbn [fold_left]. apply IH. now apply visited_grows_batch.
Qed.

(** An element that is in the tree when its turn comes is recorded. *)
Lemma visit_recorded d c (i : nat) (st : cleaning) :
  In i (map lid (labels (node st))) ->
  In i (map fst (visited (clean_conditionally d c i st))).
Proof.
  intros Hp.
  assert (Hlast : forall (v : verdict) (l : list (nat * verdict)),
             In i (map fst (l ++ [(i, v)])%list)).
  { intros v l. rewrite map_app. apply in_or_app. right. left. reflexivity. }
  unfold clean_conditionally.
  destruct (existsb _ _); [apply Hlast|].
  destruct (find_elem (node st) i) eqn:Ef.
  2:{ exfalso. exact (find_elem_none _ _ Ef Hp). }
  destruct (Qltb _ 0); [apply Hlast|].
  destruct (_ <? 10)%nat; [|apply Hlast].
  destruct (filter_decision _ _ _ _); apply Hlast.
Qed.

Lemma batch_recorded d c (l : list nat) :
  forall st i,
    In i l ->
    In i (map lid (labels
                     (node (fold_left
                              (fun st i => clean_conditionally d c i st)
                              l st)))) ->
    In i (map fst (visited
                     (fold_left (fun st i => clean_conditionally d c i st)
                                l st))).
Proof.
  induction l as [|a l IH]; intros st i Hin Hp; [destruct Hin|].
  cbn [fold_left] in *. destruct Hin as [-> | Hin].
  - apply visited_grows_batch. apply visit_recorded.
    pose proof (only_removes_trans _ _ _
                  (clean_conditionally_only_removes d c i st)
                  (batch_only_removes d c l (clean_conditionally d c i st)))
      as [_ Hs].
    exact (sub_list_In _ _ _ (sub_list_map lid _ _ Hs) Hp).
  - exact (IH _ i Hin Hp).
Qed.

(** An element with one of the tag names that is still in the tree at
    the end of the walk was visited. *)
Lemma walk_recorded d c (names : list string) :
  forall st x,
    In x (descendants
            (node (for_tags node (@rev nat) names
                            (clean_conditionally d c) st))) ->
    In (etag x) names ->
    In (eid x)
       (map fst (visited (for_tags node (@rev nat) names
                                   (clean_conditionally d c) st))).
Proof.
  induction names as [|t names IH]; intros st x Hx Ht; [destruct Ht|].
  pose proof (for_tags_only_removes node (@rev nat) (clean_conditionally d c)
                (clean_conditionally_only_removes d c)) as Hrem.
  unfold for_tags in *. cbn [fold_left] in *.
  set (l := rev (findall t (node st))) in *.
  set (st1 := fold_left (fun st i => clean_conditionally d c i st) l st) in *.
  destruct Ht as [Et | Ht]; [|exact (IH st1 x Hx Ht)].
  apply (visited_grows_walk d c (eid x) names st1).
  assert (Hl1 : In (label x) (labels (node st1))).
  { destruct (Hrem names st1) as [_ Hs].
    apply (sub_list_In _ _ _ Hs). unfold labels. now apply in_map. }
  apply batch_recorded.
  - pose proof (batch_only_removes d c l st) as [_ Hs]. fold st1 in Hs.
    unfold l. rewrite Et. apply -> in_rev.
    exact (label_in_findall (node st) (label x)
             (sub_list_In _ _ _ Hs Hl1)).
  - fold st1. change (eid x) with (lid (label x)). now apply in_map.
Qed.

(** Two entries of a part of a list without repetition stand in the
    order they have in the list. *)
Lemma before_cons {A : Type} (z x y : A) (l : list A) :
  before x y l -> before x y (z :: l).
Proof.
  intros (l1 & l2 & l3 & ->). exists (z :: l1), l2, l3. reflexivity.
Qed.

Lemma before_in {A : Type} (x y : A) (l : list A) :
  before x y l -> In x l /\ In y l.
Proof.
  intros (l1 & l2 & l3 & ->). split.
  - apply in_or_app. right. left. reflexivity.
  - apply in_or_app. right. right. apply in_or_app. right. left. reflexivity.
Qed.

Lemma before_head {A : Type} (x y : A) (l : list A) :
  In y l -> before x y (x :: l).
Proof.
  intros H. apply in_split in H as [m1 [m2 ->]].
  exists [], m1, m2. reflexivity.
Qed.

Lemma before_uncons {A : Type} (z x y : A) (l : list A) :
  before x y (z :: l) -> (z = x /\ In y l) \/ before x y l.
Proof.
  intros (l1 & l2 & l3 & E). destruct l1 as [|w l1]; cbn [app] in E.
  - injection E as -> ->. left. split; [reflexivity|].
    apply in_or_app. right. left. reflexivity.
  - injection E as -> ->. right. exists l1, l2, l3. reflexivity.
Qed.

Lemma sub_list_before {A : Type} (V W : list A) (a b : A) :
  sub_list V W -> NoDup W -> In a V -> In b V ->
  before a b W -> before a b V.
Proof.
  induction 1 as [|x V W H IH|x V W H IH]; intros Hn Ha Hb Hbef.
  - destruct Ha.
  - inversion Hn as [|? ? Hx Hn']; subst.
    destruct (before_uncons _ _ _ _ Hbef) as [[-> _] | Hbef'].
    + exfalso. apply Hx. exact (sub_list_In _ _ _ H Ha).
    + now apply IH.
  - inversion Hn as [|? ? Hx Hn']; subst.
    destruct (before_uncons _ _ _ _ Hbef) as [[-> Hy] | Hbef'].
    + destruct Hb as [<- | Hb]; [contradiction|].
      now apply before_head.
    + destruct (before_in _ _ _ Hbef') as [Ia Ib].
      apply before_cons. apply IH; [exact Hn' | | | exact Hbef'].
      * destruct Ha as [<- | Ha]; [contradiction | exact Ha].
      * destruct Hb as [<- | Hb]; [contradiction | exact Hb].
Qed.

Lemma NoDup_app_intro {A : Type} (l1 l2 : list A) :
  NoDup l1 -> NoDup l2 -> (forall x, In x l1 -> ~ In x l2) ->
  NoDup (l1 ++ l2).
Proof.
  induction l1 as [|x l1 IH]; intros H1 H2 Hd; [exact H2|].
  inversion H1 as [|? ? Hx H1']; subst. cbn [app]. constructor.
  - intros Hin. apply in_app_or in Hin as [Hin | Hin]; [contradiction|].
    exact (Hd x (or_introl eq_refl) Hin).
  - apply IH; [exact H1' | exact H2|].
    intros y Hy. apply Hd. now right.
Qed.

Lemma sub_list_filter_self {A : Type} (p : A -> bool) (l : list A) :
  sub_list (filter p l) l.
Proof.
  induction l as [|x l IH]; cbn [filter]; [apply sub_nil|].
  destruct (p x); [apply sub_keep | apply sub_skip]; exact IH.
Qed.

Lemma in_findall (t : string) (r : element) (i : nat) :
  In i (findall t r) ->
  exists x, In x (descendants r) /\ etag x = t /\ eid x = i.
Proof.
  unfold findall. intros H. apply in_map_iff in H as [x [E Hx]].
  apply filter_In in Hx as [Hx Ht]. apply String.eqb_eq in Ht.
  exists x. repeat split; assumption.
Qed.

Lemma unique_descendant (r x y : element) :
  NoDup (map eid (descendants r)) ->
  In x (descendants r) -> In y (descendants r) -> eid x = eid y -> x = y.
Proof.
  induction (descendants r) as [|z l IH]; intros Hn Hx Hy E; [destruct Hx|].
  cbn [map] in Hn. inversion Hn as [|? ? Hz Hn']; subst.
  destruct Hx as [<- | Hx], Hy as [<- | Hy].
  - reflexivity.
  - exfalso. apply Hz. rewrite E. now apply in_map.
  - exfalso. apply Hz. rewrite <- E. now apply in_map.
  - now apply IH.
Qed.

(** With distinct identities no element is listed twice by the walk. *)
Lemma NoDup_walk (r : element) (names : list string) :
  NoDup (map eid (descendants r)) -> NoDup names ->
  NoDup (flat_map (fun t => rev (findall t r)) names).
Proof.
  intros Hn. induction names as [|t names IH]; intros Hnames;
    [constructor|].
  inversion Hnames as [|? ? Ht Hnames']; subst.
  cbn [flat_map]. apply NoDup_app_intro.
  - apply NoDup_rev. unfold findall.
    apply (sub_list_NoDup _ (map eid (descendants r))); [|exact Hn].
    apply sub_list_map. apply sub_list_filter_self.
  - now apply IH.
  - intros i Hi Hin. apply in_rev in Hi.
    destruct (in_findall _ _ _ Hi) as (x & Hx & Tx & Ex).
    apply in_flat_map in Hin as [t' [Ht' Hi']]. apply in_rev in Hi'.
    destruct (in_findall _ _ _ Hi') as (y & Hy & Ty & Ey).
    assert (E : x = y)
      by (apply (unique_descendant r x y Hn Hx Hy); congruence).
    subst y. apply Ht. congruence.
Qed.

Lemma sanitize_tree_start d article c :
  exists r3,
    only_removes article r3
    /\ sanitize_tree d article c
       = for_tags node (@rev nat) CLEANED_TAGS (clean_conditionally d c)
                  (mkCleaning r3 [] []).
Proof.
  destruct (sanitize_tree_phases d article c)
    as (r1 & r2 & r3 & E1 & E2 & E3 & H1 & H2 & H3 & _).
  exists r3. split.
  - exact (only_removes_trans _ _ _ H1 (only_removes_trans _ _ _ H2 H3)).
  - rewrite E3, E2, E1. reflexivity.
Qed.

(** C3, as amended. The sanitizer visits the elements one tag name after
    the other, in the order table, ul, div, aside, header, footer,
    section, and the elements of one tag name in reverse document order:
    the list of its visits is the list that [reverse_tags] gives for the
    node and these names, with the elements left out that were removed
    before their turn; every element with one of these names that is
    still in the tree at the end was visited.  So, when the identities
    are distinct and an element [y] lies inside an element [x], both
    visited: if they have the same tag name, [y] is visited before [x];
    if the tag name of [x] stands before the tag name of [y] in the list
    of names, [x], the ancestor, is visited before [y]. *)
Theorem sanitize_visit_order (d : Document) (article : element)
        (c : candidates) :
  unique_ids article = true ->
  let visits := map fst (visited (sanitize_tree d article c)) in
  let walked :=
    ["table"; "ul"; "div"; "aside"; "header"; "footer"; "section"] in
  sub_list visits (map eid (reverse_tags article walked))
  /\ (forall x,
         In x (descendants (node (sanitize_tree d article c))) ->
         In (etag x) walked -> In (eid x) visits)
  /\ (forall x y,
         In x (descendants article) -> In y (descendants x) ->
         In (eid x) visits -> In (eid y) visits ->
         (etag y = etag x -> before (eid y) (eid x) visits)
         /\ (forall n1 n2 n3 : list string,
                walked = (n1 ++ etag x :: n2 ++ etag y :: n3)%list ->
                before (eid x) (eid y) visits)).
Proof.
  intros Hu visits walked.
  destruct (sanitize_tree_start d article c) as (r3 & Hr3 & Est).
  assert (Hsub : sub_list visits (map eid (reverse_tags article walked))).
  { unfold visits. rewrite Est.
    destruct (visits_walk d c article CLEANED_TAGS (mkCleaning r3 [] []) Hr3)
      as [V [EV HV]].
    rewrite EV. cbn [visited map app]. rewrite reverse_tags_refs.
    exact HV. }
  split; [exact Hsub|]. split.
  - intros x Hx Ht. unfold visits. rewrite Est in *.
    exact (walk_recorded d c CLEANED_TAGS _ x Hx Ht).
  - assert (Hn : NoDup (map eid (descendants article))).
    { apply unique_ids_tree_ids in Hu. unfold tree_ids, labels in Hu.
      rewrite map_map in Hu. inversion Hu; assumption. }
    assert (Hw : NoDup (map eid (reverse_tags article walked))).
    { rewrite reverse_tags_refs. apply NoDup_walk; [exact Hn|].
      unfold walked. repeat constructor; cbn [In]; intuition discriminate. }
    intros x y Hx Hy Vx Vy.
    pose proof (descendants_trans _ _ _ Hx Hy) as Hy'.
    split.
    + intros Et.
      apply (sub_list_before _ _ _ _ Hsub Hw Vy Vx).
      assert (Hin : In (etag x) walked).
      { pose proof (sub_list_In _ _ _ Hsub Vx) as Hi.
        rewrite reverse_tags_refs in Hi.
        apply in_flat_map in Hi as [t [Ht Hi]]. apply in_rev in Hi.
        destruct (in_findall _ _ _ Hi) as (x' & Hx' & Tx' & Ex').
        rewrite <- (unique_descendant article x' x Hn Hx' Hx Ex').
        rewrite Tx'. exact Ht. }
      apply in_split in Hin as [n1 [n2 En]].
      rewrite En. unfold reverse_tags. rewrite flat_map_app, map_app.
      cbn [flat_map]. rewrite map_app.
      apply before_app. apply before_map.
      exact (nested_first_in_batch article x y (etag x) Hx Hy eq_refl Et).
    + intros n1 n2 n3 En.
      apply (sub_list_before _ _ _ _ Hsub Hw Vx Vy).
      rewrite En. apply before_map.
      exact (batches_in_order article x y n1 n2 n3 Hx Hy').
Qed.

Lemma sanitize_visit_order_witness :
  let y := Element 12 "div" [] (Some ten_commas) None [] in
  let x := Element 11 "div" [] None None [y] in
  unique_ids div_in_div = true
  /\ map fst (visited (sanitize_tree table_doc div_in_div [])) = [12; 11]
  /\ In x (descendants div_in_div) /\ In y (descendants x)
  /\ before (eid y) (eid x)
            (map fst (visited (sanitize_tree table_doc div_in_div []))).
Proof.
  intros y x.
  assert (Hu : unique_ids div_in_div = true) by reflexivity.
  assert (Hx : In x (descendants div_in_div)) by (left; reflexivity).
  assert (Hy : In y (descendants x)) by (left; reflexivity).
  assert (Vx : In (eid x)
                  (map fst (visited (sanitize_tree table_doc div_in_div []))))
    by (vm_compute; right; left; reflexivity).
  assert (Vy : In (eid y)
                  (map fst (visited (sanitize_tree table_doc div_in_div []))))
    by (vm_compute; left; reflexivity).
  split; [exact Hu|]. split; [reflexivity|].
  split; [exact Hx|]. split; [exact Hy|].
  exact (proj1 (proj2 (proj2 (sanitize_visit_order table_doc div_in_div []
                                 Hu))
                 x y Hx Hy Vx Vy)
           eq_refl).
Defined.

(* ===================================================================== *)
(** * The scoring pass in any arithmetic *)
(* ===================================================================== *)

Section NumericScoring.
Variable N : Numeric.arithmetic.


















Section Accumulation.
Variable d : Document.
Hypothesis Hu : unique_ids (doc d) = true.




End Accumulation.





End NumericScoring.



(** In binary64 the order of the additions shows: the two divs of
    [two_orders] hold the same two paragraphs, in the two orders, and get
    different scores, (5 + 2.31) + 2.29 and (5 + 2.29) + 2.31; in exact
    arithmetic the scores are equal. *)
Lemma loop_order_shows :
  let c := Numeric.score_paragraphs Numeric.binary64 two_orders in
  let q := Numeric.score_paragraphs Numeric.exact two_orders in
  PrimFloat.ltb (Numeric.cand_score Numeric.binary64 5 c)
                (Numeric.cand_score Numeric.binary64 2 c) = true
  /\ Numeric.cand_score Numeric.binary64 5 c
     = PrimFloat.div (Numeric.f64_of_Z 96) (Numeric.f64_of_Z 10)
  /\ (Numeric.cand_score Numeric.exact 5 q
      == Numeric.cand_score Numeric.exact 2 q)%Q.
Proof.
  split; [vm_compute; reflexivity|].
  split; vm_compute; reflexivity.
Qed.

(* ===================================================================== *)
(** * The exact instance is the model above *)
(* ===================================================================== *)

Lemma exact_min (a b : Q) : Numeric.n_min Numeric.exact a b = Qmin a b.
Proof.
  unfold Numeric.n_min, Qmin. cbn [Numeric.n_lt Numeric.exact].
  unfold Qltb. now destruct (Qle_bool a b).
Qed.

Lemma exact_max (a b : Q) : Numeric.n_max Numeric.exact a b = Qmax a b.
Proof.
  unfold Numeric.n_max, Qmax. cbn [Numeric.n_lt Numeric.exact].
  unfold Qltb. now destruct (Qle_bool b a).
Qed.

Lemma exact_paragraph_score (t : string) :
  Numeric.paragraph_score Numeric.exact t = paragraph_score t.
Proof.
  unfold Numeric.paragraph_score, paragraph_score.
  rewrite exact_min.
  cbn [Numeric.n_add Numeric.n_div Numeric.of_int Numeric.exact].
  unfold Numeric.of_nat. cbn [Numeric.of_int Numeric.exact].
  f_equal. unfold Qnat, Qplus, inject_Z. cbn [Qnum Qden Pos.mul].
  f_equal. lia.
Qed.

Lemma exact_get_link_density (e : element) :
  Numeric.get_link_density Numeric.exact e = get_link_density e.
Proof. reflexivity. Qed.

Lemma exact_score_paragraph d st x :
  Numeric.score_paragraph Numeric.exact d st x = score_paragraph d st x.
Proof.
  unfold Numeric.score_paragraph, score_paragraph.
  rewrite exact_paragraph_score. reflexivity.
Qed.

Lemma fold_left_ext {A B : Type} (f g : A -> B -> A) (l : list B) :
  (forall a b, f a b = g a b) ->
  forall a, fold_left f l a = fold_left g l a.
Proof.
  intros H. induction l as [|b l IH]; intros a; [reflexivity|].
  cbn [fold_left]. rewrite H. apply IH.
Qed.

(** Over the exact rationals the scoring pass is [score_paragraphs]. *)
Lemma exact_score_paragraphs (d : Document) :
  Numeric.score_paragraphs Numeric.exact d = score_paragraphs d.
Proof.
  unfold Numeric.score_paragraphs, score_paragraphs,
    Numeric.accumulate_scores, accumulate_scores.
  rewrite (fold_left_ext _ _ _ (exact_score_paragraph d)).
  change (Numeric.candidates Numeric.exact) with candidates.
  destruct (fold_left (score_paragraph d) _ _) as [c ordered].
  apply fold_left_ext. intros a b. reflexivity.
Qed.

Lemma exact_sibling_appended c best threshold sibling :
  Numeric.sibling_appended Numeric.exact c best threshold sibling
  = sibling_appended c best threshold sibling.
Proof. reflexivity. Qed.

(** Over the exact rationals the assembler is [get_article]. *)
Lemma exact_get_article (d : Document) (c : candidates) (best : nat * Q) :
  Numeric.get_article Numeric.exact d c best = get_article d c best.
Proof.
  unfold Numeric.get_article, get_article.
  unfold Numeric.sibling_score_threshold. rewrite exact_max.
  reflexivity.
Qed.

(* ===================================================================== *)
(** * The assembler in any arithmetic *)
(* ===================================================================== *)

(** The chain of tests of [get_article], as one boolean formula. *)
Lemma num_sibling_appended_formula (N : Numeric.arithmetic) c best threshold
      sibling :
  Numeric.sibling_appended N c best threshold sibling
  = Nat.eqb (eid sibling) (fst best)
    || (Numeric.cand_mem N (eid sibling) c
        && Numeric.n_le N threshold (Numeric.cand_score N (eid sibling) c))
    || (String.eqb (etag sibling) "p"
        && (((80 <? String.length (or_empty (etext sibling)))%nat
             && Numeric.n_lt N (Numeric.get_link_density N sibling)
                              (Numeric.ratio N 1 4))
            || ((String.length (or_empty (etext sibling)) <=? 80)%nat
                && Numeric.n_eq N (Numeric.get_link_density N sibling)
                                  (Numeric.of_int N 0)
                && Re.search sentence_end_re (or_empty (etext sibling))))).
Proof.
  unfold Numeric.sibling_appended.
  destruct (Nat.eqb _ _); [reflexivity|].
  destruct (Numeric.cand_mem _ _ _ && _); [reflexivity|].
  destruct (String.eqb _ _); [|reflexivity].
  destruct (_ && Numeric.n_lt _ _ _); [reflexivity|].
  now destruct (_ && Re.search _ _).
Qed.

(** C5, as amended. In whatever arithmetic the scores are computed, the
    children of the root built by [get_article] are the siblings of the
    best candidate that pass the test, in their original order; a
    sibling passes exactly when it is the best candidate, or it has a
    candidate whose score is at least max(10, best score * 0.2), the
    product and the comparison being those of the arithmetic, or it is a
    p element and either its own text is longer than 80 characters and
    its link density is below 0.25, or its own text has at most 80
    characters, its link density is 0, and the text holds a full stop
    followed by a space or standing at the end of the text (a final
    newline apart), wherever that full stop is. *)
Theorem get_article_siblings (N : Numeric.arithmetic) (d : Document)
        (c : Numeric.candidates N) (best : nat * Numeric.num N) :
  let product := Numeric.n_mul N (snd best) (Numeric.ratio N 2 10) in
  let threshold :=
    if Numeric.n_lt N (Numeric.of_int N 10) product then product
    else Numeric.of_int N 10 in
  let siblings :=
    match getparent (doc d) (fst best) with
    | Some parent => echildren parent
    | None => match find_elem (doc d) (fst best) with
              | Some e => [e]
              | None => []
              end
    end in
  echildren (fst (Numeric.get_article N d c best))
  = filter (Numeric.sibling_appended N c best threshold) siblings
  /\ forall sibling,
      Numeric.sibling_appended N c best threshold sibling = true
      <-> (eid sibling = fst best
           \/ (Numeric.cand_mem N (eid sibling) c = true
               /\ Numeric.n_le N threshold
                    (Numeric.cand_score N (eid sibling) c) = true)
           \/ (etag sibling = "p"
               /\ ((80 < String.length (or_empty (etext sibling))
                    /\ Numeric.n_lt N (Numeric.get_link_density N sibling)
                                      (Numeric.ratio N 1 4) = true)
                   \/ (String.length (or_empty (etext sibling)) <= 80
                       /\ Numeric.n_eq N (Numeric.get_link_density N sibling)
                                         (Numeric.of_int N 0) = true
                       /\ has_sentence_end (or_empty (etext sibling)))))).
Proof.
  intros product threshold siblings. split.
  - unfold Numeric.get_article. fold siblings.
    change (Numeric.sibling_score_threshold N best) with threshold.
    pose proof (get_article_fold
                  (Numeric.sibling_appended N c best threshold)
                  siblings (fragment_fromstring (fresh d) "div") (doc d)) as H.
    destruct (fold_left _ siblings _) as [output root].
    simpl in H. simpl. exact H.
  - intros sibling. rewrite num_sibling_appended_formula.
    rewrite !orb_true_iff, !andb_true_iff, !orb_true_iff, !andb_true_iff.
    rewrite Nat.eqb_eq, String.eqb_eq, Nat.ltb_lt, Nat.leb_le,
      search_sentence_end.
    tauto.
Qed.

(** C5, as stated, fails: the fifth element of [two_siblings] is a short
    paragraph without links whose text holds a full stop before a space
    but does not end with one; it is neither the best candidate nor a
    candidate, and it is appended. *)
Lemma appended_without_final_stop :
  let c := Numeric.score_paragraphs Numeric.binary64 two_siblings in
  let best := (2, Numeric.cand_score Numeric.binary64 2 c) in
  let sibling := Element 5 "p" [] (Some "a. b") None [] in
  map fst c = [2; 1]
  /\ PrimFloat.ltb (Numeric.cand_score Numeric.binary64 1 c) (snd best) = true
  /\ In sibling
        (echildren (fst (Numeric.get_article Numeric.binary64 two_siblings
                                             c best)))
  /\ eid sibling <> fst best
  /\ Numeric.cand_mem Numeric.binary64 (eid sibling) c = false
  /\ ~ 80 < String.length (or_empty (etext sibling))
  /\ ends_sentence (or_empty (etext sibling)) = false.
Proof.
  intros c best sibling.
  split; [vm_compute; reflexivity|].
  split; [vm_compute; reflexivity|].
  split; [vm_compute; tauto|].
  split; [vm_compute; discriminate|].
  split; [vm_compute; reflexivity|].
  split; [vm_compute; lia | reflexivity].
Qed.

(** In binary64 the threshold is the rounded product: for a best score
    of 50.5 it is 10.100000000000001, which a candidate with the score
    5 + 2.25 + 2.85 does not reach, although 50.5 * 0.2 is that score in
    exact arithmetic. *)
Lemma threshold_is_rounded :
  let sibling := Element 3 "div" [] None None [] in
  let best64 := (2, Numeric.ratio Numeric.binary64 505 10) in
  let score64 :=
    PrimFloat.add
      (PrimFloat.add (Numeric.f64_of_Z 5) (Numeric.ratio Numeric.binary64 225 100))
      (Numeric.ratio Numeric.binary64 285 100) in
  let best := (2, Numeric.ratio Numeric.exact 505 10) in
  let score := (5 + (225 # 100) + (285 # 100))%Q in
  Numeric.sibling_appended Numeric.binary64 [(3, score64)] best64
    (Numeric.sibling_score_threshold Numeric.binary64 best64) sibling = false
  /\ Numeric.sibling_appended Numeric.exact [(3, score)] best
       (Numeric.sibling_score_threshold Numeric.exact best) sibling = true.
Proof.
  split; vm_compute; reflexivity.
Qed.
